(** * drama-director: shot generation and continuity pipeline

    A shallow embedding of the retry executor, the asset compressor, the
    batch prompt generator (src/services/gemini.ts), the frame extractor and
    the shot orchestrator (the App component), with the properties of the
    pipeline proved over it. *)

From Stdlib Require Import ZArith QArith Qround Qminmax Qabs Lia Lqa Bool.
From stdpp Require Import base option list strings pretty.

Local Open Scope Z_scope.

(** ** Thrown values and call outcomes *)

Module Js.

(** The fields of a thrown value that the code inspects.  [e.code === 503]
    and [e.status === 'UNAVAILABLE'] are strict comparisons: a code that is
    not a number, or a status that is not a string, compares unequal to
    every constant and is [None] here. *)
Record JsError : Type := mkError {
  code : option Z;
  status : option string;
  message : option string
}.

(** [new Error(msg)] *)
Definition Error (msg : string) : JsError :=
  {| code := None; status := None; message := Some msg |}.

(** What a [throw] carries: an error object, or [undefined]. *)
Inductive Thrown : Type :=
| ThrowError (e : JsError)
| ThrowUndefined.

(** The settled state of one awaited call. *)
Inductive Outcome (T : Type) : Type :=
| Resolved (v : T)
| Rejected (e : JsError).
Arguments Resolved {T} v.
Arguments Rejected {T} e.

(** Truthiness of an optional string: [undefined] and [''] are falsy. *)
Definition truthy (s : option string) : bool :=
  match s with
  | Some s => negb (String.eqb s "")
  | None => false
  end.

(** [a || b] on optional strings. *)
Definition or_else (a b : option string) : option string :=
  if truthy a then a else b.

End Js.
Export Js.

(** ** RetryExecutor: [withRetry] *)

Module Retry.

Definition code_is (e : JsError) (n : Z) : bool :=
  match code e with
  | Some c => c =? n
  | None => false
  end.

Definition status_is (e : JsError) (s : string) : bool :=
  match status e with
  | Some t => String.eqb t s
  | None => false
  end.

Definition isRetryable (e : JsError) : bool :=
  code_is e 503 || status_is e "UNAVAILABLE" || code_is e 500
  || status_is e "INTERNAL" || code_is e 429 || status_is e "RESOURCE_EXHAUSTED".

(** [(e.code === 429 ? 5000 : baseDelay) * Math.pow(2, i)], in
    milliseconds. *)
Definition delay (e : JsError) (baseDelay : Z) (i : nat) : Z :=
  (if code_is e 429 then 5000 else baseDelay) * 2 ^ Z.of_nat i.

(** What one run of the executor did: how it settled, how many times the
    wrapped operation was invoked, and the timer durations it waited for, in
    order. *)
Record Run (T : Type) : Type := mkRun {
  settled : Thrown + T;
  calls : nat;
  waits : list Z
}.
Arguments mkRun {T}.
Arguments settled {T}.
Arguments calls {T}.
Arguments waits {T}.

Section WithRetry.
Context {T : Type}.

(** The wrapped operation: [fn k] is how its [k]-th invocation (from 0)
    settles.  The executor invokes it once per loop iteration, so at
    iteration [i] it has been invoked [i] times before. *)
Variable fn : nat -> Outcome T.
Variable maxRetries : Z.
Variable baseDelay : Z.

(** The [for] loop from iteration [i] on.  [left] is the number of
    iterations for which [i < maxRetries] still holds, so [left = 0] is
    the loop exit, which reaches the final [throw lastError]. *)
Fixpoint attempts (left : nat) (i : nat) (lastError : Thrown)
    (waited : list Z) : Run T :=
  match left with
  | O => mkRun (inl lastError) i waited
  | S left' =>
      match fn i with
      | Resolved v => mkRun (inr v) (S i) waited
      | Rejected e =>
          if isRetryable e && (Z.of_nat i <? maxRetries - 1)
          then attempts left' (S i) (ThrowError e) (waited ++ [delay e baseDelay i])
          else mkRun (inl (ThrowError e)) (S i) waited
      end
  end.

Definition withRetry : Run T :=
  attempts (Z.to_nat maxRetries) 0 ThrowUndefined [].
End WithRetry.

(** The defaults of the signature: [maxRetries = 3, baseDelay = 2000]. *)
Definition withRetry_default {T : Type} (fn : nat -> Outcome T) : Run T :=
  withRetry fn 3 2000.

(** An operation that fails with the errors of [es] in turn and then
    resolves to [v] for good. *)
Definition fails_then {T : Type} (es : list JsError) (v : T) (k : nat) : Outcome T :=
  match es !! k with
  | Some e => Rejected e
  | None => Resolved v
  end.

(** An error object carrying a code and nothing else. *)
Definition error_with_code (c : Z) : JsError :=
  {| code := Some c; status := None; message := None |}.

(** The resource-exhaustion signal of the model API without a numeric
    code. *)
Definition quota_exceeded : JsError :=
  {| code := None; status := Some "RESOURCE_EXHAUSTED";
     message := Some "quota exceeded" |}.

End Retry.

(** ** AssetCompressor: [compressImage] *)

Module Compress.

(** [Math.round]: the nearest integer, ties towards plus infinity. *)
Definition Math_round (x : Q) : Z := Qfloor (x + (1 # 2)).

(** What the browser does with the data URL: [img.onload] with the natural
    size of the decoded image, or [img.onerror]; and whether
    [canvas.getContext('2d')] gives a context. *)
Record Browser : Type := mkBrowser {
  decoded : option (Z * Z);
  context2d : bool
}.

Inductive Compressed : Type :=
| Empty                                           (* { data: '', mimeType: '' } *)
| Reencoded (width height : Z) (quality : Q)      (* JPEG of a canvas of that size *)
| Forwarded (data : string) (mimeType : string).  (* the source, not re-encoded *)

(** [s.split(',')[1]]: what lies between the first and the second comma,
    [undefined] without a comma. *)
Definition split_comma_1 (s : string) : option string :=
  match String.index 0 "," s with
  | None => None
  | Some i =>
      let rest := String.substring (S i) (String.length s - S i) s in
      match String.index 0 "," rest with
      | None => Some rest
      | Some j => Some (String.substring 0 j rest)
      end
  end.

(** [s.includes(t)] *)
Definition includes (t s : string) : bool :=
  match String.index 0 t s with Some _ => true | None => false end.

Definition forward (dataUrl : string) : Compressed :=
  Forwarded
    (default dataUrl (or_else (split_comma_1 dataUrl) (Some dataUrl)))
    (if includes "image/png" dataUrl then "image/png" else "image/jpeg").

Section Doubles.
(** JavaScript numbers are doubles.  Sizes and the bound are integers,
    which doubles hold exactly; the two divisions and the two products
    are rounded to a double, and [fl] is that rounding. *)
Variable fl : Q -> Q.

(** The size given to the canvas. *)
Definition canvas_size (maxWidth width height : Z) : Z * Z :=
  if (maxWidth <? width) || (maxWidth <? height) then
    let ratio := Qmin (fl (inject_Z maxWidth / inject_Z width))
                      (fl (inject_Z maxWidth / inject_Z height)) in
    (Math_round (fl (inject_Z width * ratio)),
     Math_round (fl (inject_Z height * ratio)))
  else (width, height).

Definition compressImage (env : Browser) (dataUrl : string)
    (maxWidth : Z) (quality : Q) : Compressed :=
  if String.eqb dataUrl "" then Empty else
  match decoded env with
  | Some (width, height) =>
      let '(w, h) := canvas_size maxWidth width height in
      if context2d env then Reencoded w h quality else forward dataUrl
  | None => forward dataUrl
  end.

(** [maxWidth = 1024, quality = 0.8] *)
Definition compressImage_default (env : Browser) (dataUrl : string) : Compressed :=
  compressImage env dataUrl 1024 (8 # 10).
End Doubles.


End Compress.

(** ** Batch prompt generation: [generatePromptsForContinuousSegments] *)

Module Prompts.

(** A value built by [JSON.parse]. *)
#[warnings="-register-all"]
Inductive JSON : Type :=
| JNull
| JBool (b : bool)
| JNum (q : Q)
| JStr (s : string)
| JArr (items : list JSON)
| JObj (fields : list (string * JSON)).

(** The text of the collaborator's response as [JSON.parse] sees it:
    missing or empty (then ["[]"] is parsed instead), the text of a JSON
    value, or text that makes [JSON.parse] throw. *)
Inductive ResponseText : Type :=
| TextAbsent
| TextJson (v : JSON)
| TextMalformed.

(** [JSON.parse(response.text || "[]")]; [None] is the SyntaxError. *)
Definition parse_or_default (t : ResponseText) : option JSON :=
  match t with
  | TextAbsent => Some (JArr [])
  | TextJson v => Some v
  | TextMalformed => None
  end.

Definition truthyJ (v : JSON) : bool :=
  match v with
  | JNull => false
  | JBool b => b
  | JNum q => negb (Qeq_bool q 0)
  | JStr s => negb (String.eqb s "")
  | JArr _ | JObj _ => true
  end.

Fixpoint own_property (k : string) (fields : list (string * JSON)) : option JSON :=
  match fields with
  | [] => None
  | (k', v) :: rest => if String.eqb k' k then Some v else own_property k rest
  end.

(** [results[index]]: [None] when it throws (on [null]), [Some None] when
    it is [undefined]. *)
Definition at_index (results : JSON) (index : nat) : option (option JSON) :=
  match results with
  | JNull => None
  | JArr items => Some (items !! index)
  | JObj fields => Some (own_property (pretty index) fields)
  | JStr s =>
      Some (match String.get index s with
            | Some c => Some (JStr (String c ""))
            | None => None
            end)
  | JBool _ | JNum _ => Some None
  end.

(** [x?.visual_prompt] and [x?.image_prompt]: only an object built by
    [JSON.parse] can have such a property. *)
Definition optional_field (x : option JSON) (k : string) : option JSON :=
  match x with
  | Some (JObj fields) => own_property k fields
  | _ => None
  end.

Definition placeholder : JSON := JStr "生成失败".

(** [v || "生成失败"] *)
Definition or_placeholder (v : option JSON) : JSON :=
  match v with
  | Some v => if truthyJ v then v else placeholder
  | None => placeholder
  end.

(** [GeneratedSceneResponse]; the prompts are declared strings, and are
    whatever truthy value the response carried. *)
Record GeneratedSceneResponse : Type := mkResponse {
  script_segment : string;
  visual_prompt : JSON;
  image_prompt : JSON
}.

(** [segments.map((seg, index) => ...)] from position [index] on. *)
Fixpoint map_segments (results : JSON) (index : nat) (segments : list string)
    : option (list GeneratedSceneResponse) :=
  match segments with
  | [] => Some []
  | seg :: rest =>
      match at_index results index with
      | None => None
      | Some entry =>
          match map_segments results (S index) rest with
          | None => None
          | Some tail =>
              Some ({| script_segment := seg;
                       visual_prompt := or_placeholder (optional_field entry "visual_prompt");
                       image_prompt := or_placeholder (optional_field entry "image_prompt") |}
                    :: tail)
          end
      end
  end.

(** The body given to [withRetry]: the request settles, then the
    [try { parse; map } catch { throw new Error(...) }]. *)
Definition attempt (segments : list string) (response : Outcome ResponseText)
    : Outcome (list GeneratedSceneResponse) :=
  match response with
  | Rejected e => Rejected e
  | Resolved text =>
      match parse_or_default text with
      | None => Rejected (Error "生成提示词失败")
      | Some results =>
          match map_segments results 0 segments with
          | Some entries => Resolved entries
          | None => Rejected (Error "生成提示词失败")
          end
      end
  end.

(** [collaborator k] is how the [k]-th request to the model settles.  The
    style, era and reference image only shape the request. *)
Definition generatePromptsForContinuousSegments (segments : list string)
    (collaborator : nat -> Outcome ResponseText)
    : Retry.Run (list GeneratedSceneResponse) :=
  Retry.withRetry_default (fun k => attempt segments (collaborator k)).

End Prompts.

(** ** FrameExtractor: [extractLastFrameFromVideo] *)

Module FrameExtractor.

(** How rasterising the current frame goes inside [capture]. *)
Inductive Raster : Type :=
| Painted (dataUrl : string)   (* drawImage and toDataURL succeed *)
| NoContext                    (* getContext('2d') is null *)
| RasterThrows (e : JsError).  (* drawImage or toDataURL throws *)

(** What can happen to the video element and the timer after the promise
    is created. *)
Inductive Event : Type :=
| LoadedMetadata (duration : Q)
| Seeked (readyState : Z) (r : Raster)
| CanPlay (r : Raster)
| MediaError
| TimeoutFired.

Record Extractor : Type := mkExtractor {
  src : option string;           (* the src attribute of the video element *)
  currentTime : Q;
  timeout_armed : bool;          (* the 10000 ms timer is pending *)
  oncanplay_capture : bool;      (* video.oncanplay = capture *)
  promise : option (Outcome string)
}.

(** [resolve] and [reject] settle the promise once. *)
Definition settle (o : Outcome string) (x : Extractor) : Extractor :=
  {| src := src x; currentTime := currentTime x; timeout_armed := timeout_armed x;
     oncanplay_capture := oncanplay_capture x;
     promise := match promise x with Some p => Some p | None => Some o end |}.

Definition clearTimeout (x : Extractor) : Extractor :=
  {| src := src x; currentTime := currentTime x; timeout_armed := false;
     oncanplay_capture := oncanplay_capture x; promise := promise x |}.

(** [video.removeAttribute('src'); video.load()] *)
Definition release (x : Extractor) : Extractor :=
  {| src := None; currentTime := currentTime x; timeout_armed := timeout_armed x;
     oncanplay_capture := oncanplay_capture x; promise := promise x |}.

Definition capture (r : Raster) (x : Extractor) : Extractor :=
  release
    (settle (match r with
             | Painted dataUrl => Resolved dataUrl
             | NoContext => Rejected (Error "Context error")
             | RasterThrows e => Rejected e
             end)
            (clearTimeout x)).

Definition handle (x : Extractor) (ev : Event) : Extractor :=
  match ev with
  | LoadedMetadata duration =>
      {| src := src x; currentTime := Qmax 0 (duration - (1 # 10));
         timeout_armed := timeout_armed x;
         oncanplay_capture := oncanplay_capture x; promise := promise x |}
  | Seeked readyState r =>
      if 2 <=? readyState then capture r x
      else {| src := src x; currentTime := currentTime x;
              timeout_armed := timeout_armed x;
              oncanplay_capture := true; promise := promise x |}
  | CanPlay r => if oncanplay_capture x then capture r x else x
  | MediaError => settle (Rejected (Error "Video error")) (clearTimeout x)
  | TimeoutFired =>
      if timeout_armed x
      then settle (Rejected (Error "提取超时")) (clearTimeout x)
      else x
  end.

(** The element and the timer as the promise executor leaves them. *)
Definition opened (videoUrl : string) : Extractor :=
  {| src := Some videoUrl; currentTime := 0; timeout_armed := true;
     oncanplay_capture := false; promise := None |}.

Definition extractLastFrameFromVideo (videoUrl : string) (events : list Event)
    : Extractor :=
  foldl handle (opened videoUrl) events.

(** The media handle is released when the element has no source left. *)
Definition released (x : Extractor) : bool :=
  match src x with None => true | Some _ => false end.

(** The events on which [capture] cannot run. *)
Definition no_seek (ev : Event) : Prop :=
  match ev with
  | LoadedMetadata _ | MediaError | TimeoutFired => True
  | Seeked _ _ | CanPlay _ => False
  end.

(** An extractor that is through: no source, no pending timer, a settled
    promise. *)
Definition closed (x : Extractor) : Prop :=
  src x = None /\ timeout_armed x = false /\ promise x <> None.

End FrameExtractor.

(** ** ShotOrchestrator: the handlers of the App component *)

Module Orchestrator.

Inductive VideoStatus : Type :=
| VIdle | VGenerating | VCompleted | VError.
    (* 'idle' | 'generating_video' | 'completed' | 'error' *)

Inductive ImageStatus : Type :=
| IIdle | IGenerating | ICompleted | IError.
    (* 'idle' | 'generating' | 'completed' | 'error' *)

Inductive AspectRatio : Type := R16_9 | R9_16.

Inductive AppMode : Type := Storyboard | Single.

Record Scene : Type := mkScene {
  id : string;
  scriptSegment : string;
  visualPrompt : string;
  imagePrompt : option string;
  videoUrl : option string;
  styleReferenceImage : option string;
  generatedImage : option string;
  status : VideoStatus;
  errorMessage : option string;
  imageStatus : ImageStatus;
  imageErrorMessage : option string;
  aspectRatio : option AspectRatio
}.

#[global] Instance VideoStatus_eq_dec : EqDecision VideoStatus.
Proof. solve_decision. Defined.
#[global] Instance ImageStatus_eq_dec : EqDecision ImageStatus.
Proof. solve_decision. Defined.
#[global] Instance AppMode_eq_dec : EqDecision AppMode.
Proof. solve_decision. Defined.

(** [!s.generatedImage] *)
Definition slot_empty (s : Scene) : bool := negb (truthy (generatedImage s)).

(** *** The state updates passed to [setScenes] *)

(** [prev.map(s => s.id === id ? f(s) : s)] *)
Definition map_id (target : string) (f : Scene -> Scene) (prev : list Scene)
    : list Scene :=
  (fun s => if String.eqb (id s) target then f s else s) <$> prev.

(** [{ ...s, status: 'generating_video', errorMessage: undefined,
       visualPrompt: promptOverride || s.visualPrompt }] *)
Definition video_started (promptOverride : option string) (s : Scene) : Scene :=
  {| id := id s; scriptSegment := scriptSegment s;
     visualPrompt := default (visualPrompt s)
                       (or_else promptOverride (Some (visualPrompt s)));
     imagePrompt := imagePrompt s; videoUrl := videoUrl s;
     styleReferenceImage := styleReferenceImage s;
     generatedImage := generatedImage s;
     status := VGenerating; errorMessage := None;
     imageStatus := imageStatus s; imageErrorMessage := imageErrorMessage s;
     aspectRatio := aspectRatio s |}.

(** [{ ...s, status: 'completed', videoUrl, aspectRatio }] *)
Definition video_completed (url : string) (ratio : AspectRatio) (s : Scene) : Scene :=
  {| id := id s; scriptSegment := scriptSegment s; visualPrompt := visualPrompt s;
     imagePrompt := imagePrompt s; videoUrl := Some url;
     styleReferenceImage := styleReferenceImage s;
     generatedImage := generatedImage s;
     status := VCompleted; errorMessage := errorMessage s;
     imageStatus := imageStatus s; imageErrorMessage := imageErrorMessage s;
     aspectRatio := Some ratio |}.

(** [{ ...s, status: 'error', errorMessage: e.message || "未知错误" }] *)
Definition video_failed (e : JsError) (s : Scene) : Scene :=
  {| id := id s; scriptSegment := scriptSegment s; visualPrompt := visualPrompt s;
     imagePrompt := imagePrompt s; videoUrl := videoUrl s;
     styleReferenceImage := styleReferenceImage s;
     generatedImage := generatedImage s;
     status := VError;
     errorMessage := or_else (message e) (Some "未知错误");
     imageStatus := imageStatus s; imageErrorMessage := imageErrorMessage s;
     aspectRatio := aspectRatio s |}.

(** [{ ...updated[idx + 1], generatedImage: lastFrame, imageStatus: 'completed' }] *)
Definition frame_inherited (lastFrame : string) (s : Scene) : Scene :=
  {| id := id s; scriptSegment := scriptSegment s; visualPrompt := visualPrompt s;
     imagePrompt := imagePrompt s; videoUrl := videoUrl s;
     styleReferenceImage := styleReferenceImage s;
     generatedImage := Some lastFrame;
     status := status s; errorMessage := errorMessage s;
     imageStatus := ICompleted; imageErrorMessage := imageErrorMessage s;
     aspectRatio := aspectRatio s |}.

(** [{ ...s, imageStatus: 'generating', imageErrorMessage: undefined }] *)
Definition image_started (s : Scene) : Scene :=
  {| id := id s; scriptSegment := scriptSegment s; visualPrompt := visualPrompt s;
     imagePrompt := imagePrompt s; videoUrl := videoUrl s;
     styleReferenceImage := styleReferenceImage s;
     generatedImage := generatedImage s;
     status := status s; errorMessage := errorMessage s;
     imageStatus := IGenerating; imageErrorMessage := None;
     aspectRatio := aspectRatio s |}.

(** [{ ...s, generatedImage: imageUrl, imageStatus: 'completed' }] *)
Definition image_completed (imageUrl : string) (s : Scene) : Scene :=
  {| id := id s; scriptSegment := scriptSegment s; visualPrompt := visualPrompt s;
     imagePrompt := imagePrompt s; videoUrl := videoUrl s;
     styleReferenceImage := styleReferenceImage s;
     generatedImage := Some imageUrl;
     status := status s; errorMessage := errorMessage s;
     imageStatus := ICompleted; imageErrorMessage := imageErrorMessage s;
     aspectRatio := aspectRatio s |}.

(** [{ ...s, imageStatus: 'error', imageErrorMessage: e.message }] *)
Definition image_failed (e : JsError) (s : Scene) : Scene :=
  {| id := id s; scriptSegment := scriptSegment s; visualPrompt := visualPrompt s;
     imagePrompt := imagePrompt s; videoUrl := videoUrl s;
     styleReferenceImage := styleReferenceImage s;
     generatedImage := generatedImage s;
     status := status s; errorMessage := errorMessage s;
     imageStatus := IError; imageErrorMessage := message e;
     aspectRatio := aspectRatio s |}.

(** [{ ...s, visualPrompt: newVideoPrompt, imagePrompt: newImagePrompt }] *)
Definition prompt_updated (newVideoPrompt : string) (newImagePrompt : option string)
    (s : Scene) : Scene :=
  {| id := id s; scriptSegment := scriptSegment s; visualPrompt := newVideoPrompt;
     imagePrompt := newImagePrompt; videoUrl := videoUrl s;
     styleReferenceImage := styleReferenceImage s;
     generatedImage := generatedImage s;
     status := status s; errorMessage := errorMessage s;
     imageStatus := imageStatus s; imageErrorMessage := imageErrorMessage s;
     aspectRatio := aspectRatio s |}.

(** The shot of the "add" button. *)
Definition added_scene (newId : string) : Scene :=
  {| id := newId; scriptSegment := "新场景"; visualPrompt := "新画面描述";
     imagePrompt := None; videoUrl := None; styleReferenceImage := None;
     generatedImage := None; status := VIdle; errorMessage := None;
     imageStatus := IIdle; imageErrorMessage := None; aspectRatio := None |}.

(** The shot made of one generated (segment, video prompt, image prompt). *)
Definition generated_scene (newId segment video_prompt : string)
    (image_prompt reference : option string) : Scene :=
  {| id := newId; scriptSegment := segment; visualPrompt := video_prompt;
     imagePrompt := image_prompt; videoUrl := None;
     styleReferenceImage := reference;
     generatedImage := None; status := VIdle; errorMessage := None;
     imageStatus := IIdle; imageErrorMessage := None; aspectRatio := None |}.

(** [scenes.find(s => s.id === id)] and [scenes.findIndex(...)], the
    latter with [None] for -1. *)
Definition find (target : string) (scenes : list Scene) : option Scene :=
  snd <$> list_find (fun s => id s = target) scenes.

Definition findIndex (target : string) (scenes : list Scene) : option nat :=
  fst <$> list_find (fun s => id s = target) scenes.

(** The updater of the continuity step.  After the guard, [idx + 1] is a
    position of [prev], so the last branch is never taken. *)
Definition continuityWrite (target lastFrame : string) (prev : list Scene)
    : list Scene :=
  match findIndex target prev with
  | None => prev
  | Some idx =>
      if Nat.eqb idx (length prev - 1) then prev
      else match prev !! (idx + 1)%nat with
           | Some next =>
               if slot_empty next
               then <[(idx + 1)%nat := frame_inherited lastFrame next]> prev
               else prev
           | None => prev
           end
  end.

(** Every argument a handler gives to [setScenes]. *)
Inductive Update : Type :=
| StartVideo (target : string) (promptOverride : option string)
| CompleteVideo (target url : string) (ratio : AspectRatio)
| FailVideo (target : string) (e : JsError)
| ContinuityWrite (target lastFrame : string)
| StartFirstFrame (target : string)
| UpdatePrompt (target newVideoPrompt : string) (newImagePrompt : option string)
| CompleteFirstFrame (target imageUrl : string)
| FailFirstFrame (target : string) (e : JsError)
| AddScene (newId : string)
| SetScenes (scenes : list Scene).

Definition apply (u : Update) (prev : list Scene) : list Scene :=
  match u with
  | StartVideo target promptOverride => map_id target (video_started promptOverride) prev
  | CompleteVideo target url ratio => map_id target (video_completed url ratio) prev
  | FailVideo target e => map_id target (video_failed e) prev
  | ContinuityWrite target lastFrame => continuityWrite target lastFrame prev
  | StartFirstFrame target => map_id target image_started prev
  | UpdatePrompt target v i => map_id target (prompt_updated v i) prev
  | CompleteFirstFrame target imageUrl => map_id target (image_completed imageUrl) prev
  | FailFirstFrame target e => map_id target (image_failed e) prev
  | AddScene newId => prev ++ [added_scene newId]
  | SetScenes scenes => scenes
  end.

Definition handleUpdatePrompt (target newVideoPrompt : string)
    (newImagePrompt : option string) : Update :=
  UpdatePrompt target newVideoPrompt newImagePrompt.

(** *** The handlers *)

(** What a handler sees through its closure: the state of the render in
    which it was created. *)
Record Closure : Type := mkClosure {
  mode : AppMode;
  scenes : list Scene;
  selectedAspectRatio : AspectRatio;
  selectedStyle : string;
  selectedEra : string;
  selectedEthnicity : string;
  globalReferenceImage : option string
}.

(** What one call of a handler does: the updates it gives to [setScenes],
    in the order of the calls (other updates may be applied in between,
    since the handler awaits between them), and what it logs. *)
Record Effects : Type := mkEffects {
  updates : list Update;
  warned : list JsError
}.

(** [video] is how [generateVideoForScene] settles, [extraction] how
    [extractLastFrameFromVideo] settles if it is called. *)
Definition handleGenerateVideo (c : Closure) (target : string)
    (promptOverride : option string)
    (video : Outcome string) (extraction : Outcome string) : Effects :=
  let started := StartVideo target promptOverride in
  match find target (scenes c) with
  | None => mkEffects [started] []
  | Some scene =>
      match video with
      | Rejected e => mkEffects [started; FailVideo target e] []
      | Resolved url =>
          let completed := CompleteVideo target url (selectedAspectRatio c) in
          match findIndex target (scenes c) with
          | Some sceneIndex =>
              if bool_decide (mode c = Single)
                 && Nat.ltb (sceneIndex + 1) (length (scenes c))
              then
                match scenes c !! (sceneIndex + 1)%nat with
                | Some nextScene =>
                    if slot_empty nextScene then
                      match extraction with
                      | Resolved lastFrame =>
                          mkEffects [started; completed;
                                     ContinuityWrite target lastFrame] []
                      | Rejected e => mkEffects [started; completed] [e]
                      end
                    else mkEffects [started; completed] []
                | None =>
                    mkEffects [started; completed] [Error "TypeError"]
                end
              else mkEffects [started; completed] []
          | None => mkEffects [started; completed] []
          end
      end
  end.

(** [prompt] is how [generateFirstFramePrompt] settles if it is called,
    [image] how [generateImageFromPrompt] settles. *)
Definition handleGenerateFirstFrame (c : Closure) (target : string)
    (promptOverride : option string)
    (prompt : Outcome string) (image : Outcome string) : Effects :=
  let started := StartFirstFrame target in
  match find target (scenes c) with
  | None => mkEffects [started] []
  | Some scene =>
      let finish (before : list Update) :=
        match image with
        | Resolved imageUrl =>
            mkEffects (before ++ [CompleteFirstFrame target imageUrl]) []
        | Rejected e => mkEffects (before ++ [FailFirstFrame target e]) []
        end in
      if truthy (or_else promptOverride (imagePrompt scene))
      then finish [started]
      else match prompt with
           | Rejected e => mkEffects [started; FailFirstFrame target e] []
           | Resolved promptToUse =>
               finish [started;
                       handleUpdatePrompt target (visualPrompt scene)
                         (Some promptToUse)]
           end
  end.

(** *** The session: the state, the last render and the calls in flight *)

Record Session : Type := mkSession {
  current : list Scene;            (* the state behind [scenes] *)
  currentMode : AppMode;
  rendered : list Scene;           (* [scenes] as the handlers in use close over it *)
  renderedMode : AppMode;
  inflight : list (list Update);   (* per running handler, its updates to come *)
  issued : list string             (* every id [crypto.randomUUID] has given *)
}.

Definition initial : Session :=
  {| current := []; currentMode := Storyboard;
     rendered := []; renderedMode := Storyboard;
     inflight := []; issued := [] |}.

(** The closure of the handlers of the last render; the settings are the
    user's. *)
Definition closure_of (x : Session) (ratio : AspectRatio)
    (style era ethnicity : string) (reference : option string) : Closure :=
  {| mode := renderedMode x; scenes := rendered x; selectedAspectRatio := ratio;
     selectedStyle := style; selectedEra := era; selectedEthnicity := ethnicity;
     globalReferenceImage := reference |}.

(** [setScenes(u)]: updates are applied in the order of the calls. *)
Definition set_current (x : Session) (u : Update) : Session :=
  {| current := apply u (current x); currentMode := currentMode x;
     rendered := rendered x; renderedMode := renderedMode x;
     inflight := inflight x; issued := issued x |}.

Definition set_inflight (x : Session) (running : list (list Update)) : Session :=
  {| current := current x; currentMode := currentMode x;
     rendered := rendered x; renderedMode := renderedMode x;
     inflight := running; issued := issued x |}.

Definition set_issued (x : Session) (ids : list string) : Session :=
  {| current := current x; currentMode := currentMode x;
     rendered := rendered x; renderedMode := renderedMode x;
     inflight := inflight x; issued := ids |}.

(** A handler is called: its first update is given to [setScenes] before
    anything else can run, the rest are in flight. *)
Definition launch (x : Session) (us : list Update) : Session :=
  match us with
  | [] => x
  | u :: rest => set_inflight (set_current x u) (rest :: inflight x)
  end.

Definition all_idle (s : Scene) : Prop :=
  status s = VIdle /\ imageStatus s = IIdle.

Inductive step : Session -> Session -> Prop :=
| step_render x :
    step x {| current := current x; currentMode := currentMode x;
              rendered := current x; renderedMode := currentMode x;
              inflight := inflight x; issued := issued x |}
| step_generate_video x ratio style era ethnicity reference target override video extraction :
    step x (launch x (updates (handleGenerateVideo
              (closure_of x ratio style era ethnicity reference)
              target override video extraction)))
| step_generate_first_frame x ratio style era ethnicity reference target override prompt image :
    step x (launch x (updates (handleGenerateFirstFrame
              (closure_of x ratio style era ethnicity reference)
              target override prompt image)))
| step_settle x before u rest after :
    (* an awaited call of a running handler settles *)
    inflight x = before ++ (u :: rest) :: after ->
    step x (set_inflight (set_current x u) (before ++ rest :: after))
| step_update_prompt x target v i :
    step x (set_current x (handleUpdatePrompt target v i))
| step_add x newId :
    newId ∉ issued x ->
    step x (set_issued (set_current x (AddScene newId)) (newId :: issued x))
| step_new_scenes x fresh :
    (* the shots of an analysed script or of the confirmed segments *)
    Forall all_idle fresh ->
    NoDup (id <$> fresh) ->
    (forall s, s ∈ fresh -> id s ∉ issued x) ->
    step x (set_issued (set_current x (SetScenes fresh))
                       ((id <$> fresh) ++ issued x))
| step_mode_change x newMode :
    step x {| current := apply (SetScenes []) (current x); currentMode := newMode;
              rendered := rendered x; renderedMode := renderedMode x;
              inflight := inflight x; issued := issued x |}.

Inductive reachable : Session -> Prop :=
| reachable_initial : reachable initial
| reachable_step x y : reachable x -> step x y -> reachable y.

(** The moves of the two state fields: what the specification allows, and
    what the handlers do. *)
Definition video_path (a b : VideoStatus) : Prop :=
  a = b \/ (a = VIdle /\ b = VGenerating)
  \/ (a = VGenerating /\ (b = VCompleted \/ b = VError)).

Definition image_path (a b : ImageStatus) : Prop :=
  a = b \/ (a = IIdle /\ b = IGenerating)
  \/ (a = IGenerating /\ (b = ICompleted \/ b = IError)).

Definition video_move (a b : VideoStatus) : Prop :=
  a = b \/ b = VGenerating \/ (a <> VIdle /\ (b = VCompleted \/ b = VError)).

Definition image_move (a b : ImageStatus) : Prop :=
  a = b \/ b = IGenerating \/ (a <> IIdle /\ (b = ICompleted \/ b = IError)).

(** The updates a handler issues are all of the form
    [prev.map(s => s.id === target ? f(s) : s)], the continuity write
    apart. *)
Definition mapped (u : Update) : option (string * (Scene -> Scene)) :=
  match u with
  | StartVideo target promptOverride => Some (target, video_started promptOverride)
  | CompleteVideo target url ratio => Some (target, video_completed url ratio)
  | FailVideo target e => Some (target, video_failed e)
  | StartFirstFrame target => Some (target, image_started)
  | UpdatePrompt target v i => Some (target, prompt_updated v i)
  | CompleteFirstFrame target imageUrl => Some (target, image_completed imageUrl)
  | FailFirstFrame target e => Some (target, image_failed e)
  | ContinuityWrite _ _ | AddScene _ | SetScenes _ => None
  end.

Definition handler_update (u : Update) : Prop :=
  match u with
  | AddScene _ | SetScenes _ => False
  | _ => True
  end.

(** What an update of a handler does to one shot of the state it is
    applied to. *)
Definition scene_step (u : Update) (s s' : Scene) : Prop :=
  match u with
  | ContinuityWrite _ lastFrame =>
      s' = s \/ (slot_empty s = true /\ s' = frame_inherited lastFrame s)
  | _ =>
      match mapped u with
      | Some (target, f) => s' = if String.eqb (id s) target then f s else s
      | None => s' = s
      end
  end.

(** The shot whose video, or first frame, an update in flight will settle. *)
Definition settles_video (u : Update) : option string :=
  match u with
  | CompleteVideo target _ _ | FailVideo target _ => Some target
  | _ => None
  end.

Definition settles_image (u : Update) : option string :=
  match u with
  | CompleteFirstFrame target _ | FailFirstFrame target _ => Some target
  | _ => None
  end.

(** What holds of every reachable session: ids are those issued and are
    not repeated, and a shot whose generation is still to settle has left
    [idle]. *)
Record invariant (x : Session) : Prop := mkInvariant {
  current_issued : forall s, s ∈ current x -> id s ∈ issued x;
  rendered_issued : forall s, s ∈ rendered x -> id s ∈ issued x;
  current_nodup : NoDup (id <$> current x);
  inflight_handler : forall q u, q ∈ inflight x -> u ∈ q -> handler_update u;
  inflight_video : forall q u target,
    q ∈ inflight x -> u ∈ q -> settles_video u = Some target ->
    target ∈ issued x /\
    forall s, s ∈ current x -> id s = target -> status s <> VIdle;
  inflight_image : forall q u target,
    q ∈ inflight x -> u ∈ q -> settles_image u = Some target ->
    target ∈ issued x /\
    forall s, s ∈ current x -> id s = target -> imageStatus s <> IIdle
}.

(** *** Two sessions of the continuous mode

    Two fresh shots "a" and "b".  In the first session the video of "a" is
    generated and its last frame extracted; in the second the video
    generation fails and is requested again. *)
Definition two_shots : Session :=
  {| current := [added_scene "a"; added_scene "b"]; currentMode := Single;
     rendered := [added_scene "a"; added_scene "b"]; renderedMode := Single;
     inflight := []; issued := ["a"; "b"] |}.

Definition video_requested (x : Session) (video extraction : Outcome string)
    : Session :=
  launch x (updates (handleGenerateVideo (closure_of x R16_9 "" "" "" None)
                       "a" None video extraction)).

Definition video_running : Session :=
  video_requested two_shots (Resolved "blob:video") (Resolved "data:frame").

Definition video_done : Session :=
  set_inflight (set_current video_running (CompleteVideo "a" "blob:video" R16_9))
    [[ContinuityWrite "a" "data:frame"]].

Definition frame_written : Session :=
  set_inflight (set_current video_done (ContinuityWrite "a" "data:frame")) [[]].

Definition no_video_link : JsError := Error "API 未返回视频链接".

Definition video_failing : Session :=
  video_requested two_shots (Rejected no_video_link) (Rejected no_video_link).

Definition video_in_error : Session :=
  set_inflight (set_current video_failing (FailVideo "a" no_video_link)) [[]].

Definition video_retried : Session :=
  video_requested video_in_error (Resolved "blob:video") (Resolved "data:frame").

End Orchestrator.

(** ** The other services of [src/services/gemini.ts] *)

Module Services.

(** The time a run of the retry executor spends in its timers. *)
Definition total_wait {T : Type} (r : Retry.Run T) : Z :=
  foldr Z.add 0 (Retry.waits r).

(** *** [generateImageFromPrompt] *)

(** [part.inlineData] with its two fields, each possibly missing. *)
Record InlineData : Type := mkInlineData {
  mimeType : option string;
  data : option string
}.

(** One part of [response.candidates?.[0]?.content?.parts]. *)
Record Part : Type := mkPart {
  inlineData : option InlineData
}.

(** A value inside a template literal: a missing one prints as
    ["undefined"]. *)
Definition interpolated (o : option string) : string := default "undefined" o.

(** [`data:${part.inlineData.mimeType};base64,${part.inlineData.data}`] *)
Definition data_url (d : InlineData) : string :=
  "data:" +:+ interpolated (mimeType d) +:+ ";base64," +:+ interpolated (data d).

(** The [for] loop over the parts: the first part with inline data. *)
Fixpoint first_inline (parts : list Part) : option InlineData :=
  match parts with
  | [] => None
  | part :: rest =>
      match inlineData part with
      | Some d => Some d
      | None => first_inline rest
      end
  end.

(** The body given to [withRetry]; [response] is how the request settles,
    with the parts of its first candidate ([[]] when there are none). *)
Definition image_attempt (response : Outcome (list Part)) : Outcome string :=
  match response with
  | Rejected e => Rejected e
  | Resolved parts =>
      match first_inline parts with
      | Some d => Resolved (data_url d)
      | None => Rejected (Error "API 未返回图像数据")
      end
  end.

Definition generateImageFromPrompt (model : nat -> Outcome (list Part))
    : Retry.Run string :=
  Retry.withRetry_default (fun k => image_attempt (model k)).

(** *** [generateFirstFramePrompt] and [refinePromptWithAI] *)

Section Text.
(** [String.prototype.trim] *)
Variable trim : string -> string.

(** [response.text?.trim() || fallback] *)
Definition trimmed_or (text : option string) (fallback : string) : string :=
  match text with
  | Some t => if String.eqb (trim t) "" then fallback else trim t
  | None => fallback
  end.

Definition first_frame_fallback (segment style era ethnicity : string) : string :=
  "一个展现" +:+ segment +:+ "开头场景的高清电影画面，" +:+ style +:+ "风格，"
  +:+ era +:+ "背景，" +:+ ethnicity +:+ "人物".

(** [model k] is how the [k]-th request settles, with [response.text]. *)
Definition generateFirstFramePrompt (segment style era ethnicity : string)
    (model : nat -> Outcome (option string)) : Retry.Run string :=
  Retry.withRetry_default (fun k =>
    match model k with
    | Rejected e => Rejected e
    | Resolved text =>
        Resolved (trimmed_or text (first_frame_fallback segment style era ethnicity))
    end).

Definition refinePromptWithAI (originalPrompt : string)
    (model : nat -> Outcome (option string)) : Retry.Run string :=
  Retry.withRetry_default (fun k =>
    match model k with
    | Rejected e => Rejected e
    | Resolved text => Resolved (trimmed_or text originalPrompt)
    end).
End Text.

(** *** [splitScriptSmartly] *)

(** [Math.floor(24 / shotDuration)] for an integer duration; [None] is
    [Infinity], the quotient by zero. *)
Definition maxSegments (shotDuration : Z) : option Z :=
  if shotDuration =? 0 then None else Some (24 / shotDuration).

(** [segments.slice(0, end)]: a negative [end] counts from the end. *)
Definition slice_0 {A : Type} (l : list A) (last : option Z) : list A :=
  match last with
  | None => l
  | Some n =>
      if 0 <=? n then take (Z.to_nat n) l
      else take (length l - Z.to_nat (- n)) l
  end.

(** [JSON.parse(response.text || "{}")]; [None] is the SyntaxError. *)
Definition parse_or_empty_object (t : Prompts.ResponseText) : option Prompts.JSON :=
  match t with
  | Prompts.TextAbsent => Some (Prompts.JObj [])
  | Prompts.TextJson v => Some v
  | Prompts.TextMalformed => None
  end.

(** The [try] block after the request: [parsed.segments || []], the
    fallback to the whole script, the slice.  Reading [segments] off
    [null] throws, which the [catch] turns into the fallback too. *)
Definition split_attempt (script : string) (shotDuration : Z)
    (text : Prompts.ResponseText) : list Prompts.JSON :=
  match parse_or_empty_object text with
  | None | Some Prompts.JNull => [Prompts.JStr script]
  | Some parsed =>
      match Prompts.optional_field (Some parsed) "segments" with
      | Some (Prompts.JArr (first :: others)) =>
          slice_0 (first :: others) (maxSegments shotDuration)
      | _ => [Prompts.JStr script]
      end
  end.

Definition splitScriptSmartly (script : string) (shotDuration : Z)
    (model : nat -> Outcome Prompts.ResponseText) : Retry.Run (list Prompts.JSON) :=
  Retry.withRetry_default (fun k =>
    match model k with
    | Rejected e => Rejected e
    | Resolved text => Resolved (split_attempt script shotDuration text)
    end).

(** *** [analyzeScriptDeeply] and [generateScenesFromScript] *)

(** The body both give to [withRetry]: the request, then
    [JSON.parse(response.text || fallback)], returned as it is parsed.
    [syntaxError] is the message of the SyntaxError that [JSON.parse]
    throws on text that is not JSON; it has neither code nor status. *)
Definition parse_attempt (fallback : Prompts.JSON) (syntaxError : string)
    (response : Outcome Prompts.ResponseText) : Outcome Prompts.JSON :=
  match response with
  | Rejected e => Rejected e
  | Resolved Prompts.TextAbsent => Resolved fallback
  | Resolved (Prompts.TextJson v) => Resolved v
  | Resolved Prompts.TextMalformed => Rejected (Error syntaxError)
  end.

(** [JSON.parse(response.text || "{}") as ScriptAnalysis] *)
Definition analyzeScriptDeeply (syntaxError : string)
    (model : nat -> Outcome Prompts.ResponseText) : Retry.Run Prompts.JSON :=
  Retry.withRetry_default (fun k => parse_attempt (Prompts.JObj []) syntaxError (model k)).

(** [JSON.parse(response.text || "[]") as GeneratedSceneResponse[]]; the
    reference image is compressed before, which never fails. *)
Definition generateScenesFromScript (syntaxError : string)
    (model : nat -> Outcome Prompts.ResponseText) : Retry.Run Prompts.JSON :=
  Retry.withRetry_default (fun k => parse_attempt (Prompts.JArr []) syntaxError (model k)).

(** *** [generateVideoForScene] *)

(** [context?: { style?: string; era?: string }] *)
Record VideoContext : Type := mkVideoContext {
  style : option string;
  era : option string
}.

(** [v && !v.includes('默认')] *)
Definition named (v : option string) : bool :=
  match v with
  | Some text => negb (String.eqb text "") && negb (Compress.includes "默认" text)
  | None => false
  end.

Definition contextParts (context : option VideoContext) : list string :=
  match context with
  | None => []
  | Some c =>
      (if named (era c) then ["时代背景：" +:+ default "" (era c)] else [])
      ++ (if named (style c) then ["视觉风格：" +:+ default "" (style c)] else [])
  end.

(** [parts.join(separator)] *)
Fixpoint join (separator : string) (parts : list string) : string :=
  match parts with
  | [] => ""
  | [part] => part
  | part :: rest => part +:+ separator +:+ join separator rest
  end.

Definition workingPrompt (prompt : string) (context : option VideoContext) : string :=
  match contextParts context with
  | [] => prompt
  | parts => join "，" parts +:+ "。" +:+ prompt
  end.

(** What the polling reads off an operation: [operation.done] and
    [operation.response?.generatedVideos?.[0]?.video?.uri]. *)
Record Operation : Type := mkOperation {
  done : bool;
  uri : option string
}.

(** The response of [fetch(downloadLink)], with how
    [URL.createObjectURL(await videoResponse.blob())] settles. *)
Record Download : Type := mkDownload {
  ok : bool;
  statusText : string;
  objectUrl : Outcome string
}.

Record VideoRun : Type := mkVideoRun {
  video : option (Outcome string);   (* [None]: still polling *)
  queries : nat;                     (* calls of [getVideosOperation] *)
  poll_waits : list Z
}.

Section Video.
(** [operations 0] is how [generateVideos] settles, [operations (n + 1)]
    how the [n]-th [getVideosOperation] does; [download] is how the
    [fetch] settles. *)
Variable operations : nat -> Outcome Operation.
Variable download : Outcome Download.

(** After the loop: the link, the download, the object URL. *)
Definition deliver (operation : Operation) : Outcome string :=
  if truthy (uri operation) then
    match download with
    | Rejected e => Rejected e
    | Resolved response =>
        if ok response then objectUrl response
        else Rejected (Error ("视频下载失败: " +:+ statusText response))
    end
  else Rejected (Error "API 未返回视频链接").

(** The [while (!operation.done)] loop from the [n]-th operation state
    on; [rounds] bounds the iterations the model follows. *)
Fixpoint poll (rounds : nat) (n : nat) (waited : list Z) : VideoRun :=
  match operations n with
  | Rejected e => mkVideoRun (Some (Rejected e)) n waited
  | Resolved operation =>
      if done operation then mkVideoRun (Some (deliver operation)) n waited
      else match rounds with
           | O => mkVideoRun None n waited
           | S rounds' => poll rounds' (S n) (waited ++ [8000])
           end
  end.

Definition generateVideoForScene (rounds : nat) : VideoRun := poll rounds 0 [].
End Video.

End Services.

(** ** Kinds of updates *)

Module Updates.
Import Orchestrator.

(** The shot an update of a handler addresses by id. *)
Definition target_of (u : Update) : option string :=
  match u with
  | StartVideo target _ | CompleteVideo target _ _ | FailVideo target _
  | ContinuityWrite target _ | StartFirstFrame target | UpdatePrompt target _ _
  | CompleteFirstFrame target _ | FailFirstFrame target _ => Some target
  | AddScene _ | SetScenes _ => None
  end.

(** The updates of [handleGenerateVideo] on its own shot (the start, the
    completion, the failure), and those of [handleGenerateFirstFrame]: the
    start, the generated prompt it stores through [handleUpdatePrompt],
    the completion, the failure. *)
Definition video_update (u : Update) : Prop :=
  match u with
  | StartVideo _ _ | CompleteVideo _ _ _ | FailVideo _ _ => True
  | _ => False
  end.

Definition image_update (u : Update) : Prop :=
  match u with
  | StartFirstFrame _ | UpdatePrompt _ _ _ | CompleteFirstFrame _ _
  | FailFirstFrame _ _ => True
  | _ => False
  end.

End Updates.

(** Closes a [Forall] over an explicit list of updates, entry by entry. *)
Ltac shape_forall :=
  repeat (apply Forall_cons; split; [simpl; auto 6 |]); apply Forall_nil_2.

(** * Properties *)

(** ** RetryExecutor *)

Section RetryFacts.
Import Retry.
Context {T : Type}.
Variable fn : nat -> Outcome T.
Variable maxRetries baseDelay : Z.

(** A run of retried failures: from iteration [i], [k] more retryable
    failures followed by a success, all within the bound. *)
Lemma attempts_retry_then_resolve (k : nat) : forall left i lastError waited v,
  (k < left)%nat ->
  Z.of_nat (i + k) < maxRetries ->
  (forall j, (i <= j < i + k)%nat -> exists e, fn j = Rejected e /\ isRetryable e = true) ->
  fn (i + k)%nat = Resolved v ->
  settled (attempts fn maxRetries baseDelay left i lastError waited) = inr v /\
  calls (attempts fn maxRetries baseDelay left i lastError waited) = S (i + k).
Proof.
  induction k as [|k IH]; intros left i lastError waited v Hleft Hbound Hfail Hok.
  - destruct left as [|left]; [lia|]. simpl.
    rewrite Nat.add_0_r in Hok. rewrite Hok. simpl. split; [done | f_equal; lia].
  - destruct left as [|left]; [lia|]. simpl.
    destruct (Hfail i ltac:(lia)) as (e & He & Hre).
    rewrite He, Hre. simpl.
    assert ((Z.of_nat i <? maxRetries - 1) = true) as -> by (apply Z.ltb_lt; lia).
    replace (i + S k)%nat with (S i + k)%nat in * by lia.
    apply IH; [lia | done | | done].
    intros j Hj. apply Hfail. lia.
Qed.
End RetryFacts.

Section RetryMore.
Import Retry.
Context {T : Type}.
Variable fn : nat -> Outcome T.
Variable maxRetries baseDelay : Z.

(** A failure that is not retryable ends the run at once. *)
Lemma attempts_fail_fast left i lastError waited e :
  fn i = Rejected e ->
  isRetryable e = false ->
  attempts fn maxRetries baseDelay (S left) i lastError waited
  = mkRun (inl (ThrowError e)) (S i) waited.
Proof. intros He Hre. simpl. by rewrite He, Hre. Qed.

(** Every wait of a run follows a retryable failure that is not the last
    allowed attempt, and lasts what [delay] says for that failure. *)
Lemma attempts_waits left : forall i lastError waited,
  exists extra,
    waits (attempts fn maxRetries baseDelay left i lastError waited)
    = waited ++ extra /\
    forall j w, extra !! j = Some w ->
      exists e, fn (i + j)%nat = Rejected e /\ isRetryable e = true /\
                Z.of_nat (i + j) < maxRetries - 1 /\
                w = delay e baseDelay (i + j).
Proof.
  induction left as [|left IH]; intros i lastError waited; simpl.
  - exists []. split; [by rewrite app_nil_r | intros j w Hj; by destruct j].
  - destruct (fn i) as [v|e] eqn:Hfn; simpl.
    + exists []. split; [by rewrite app_nil_r | intros j w Hj; by destruct j].
    + destruct (isRetryable e) eqn:Hre; simpl.
      * destruct (Z.of_nat i <? maxRetries - 1) eqn:Hlt; simpl.
        -- destruct (IH (S i) (ThrowError e) (waited ++ [delay e baseDelay i]))
             as (extra & Hw & Hextra).
           exists (delay e baseDelay i :: extra). split.
           { rewrite Hw. by rewrite <- app_assoc. }
           intros [|j] w Hj; simpl in Hj.
           ++ inversion Hj; subst. exists e. rewrite Nat.add_0_r.
              apply Z.ltb_lt in Hlt. done.
           ++ replace (i + S j)%nat with (S i + j)%nat by lia. by apply Hextra.
        -- exists []. split; [by rewrite app_nil_r | intros j w Hj; by destruct j].
      * exists []. split; [by rewrite app_nil_r | intros j w Hj; by destruct j].
Qed.

(** The wait before attempt [j + 1] is
    [(e.code === 429 ? 5000 : baseDelay) * 2^j] for the error [e] of
    attempt [j]. *)
Lemma withRetry_wait_is_delay j w :
  waits (withRetry fn maxRetries baseDelay) !! j = Some w ->
  exists e, fn j = Rejected e /\ isRetryable e = true /\
            Z.of_nat j < maxRetries - 1 /\
            w = (if code_is e 429 then 5000 else baseDelay) * 2 ^ Z.of_nat j.
Proof.
  unfold withRetry.
  destruct (attempts_waits (Z.to_nat maxRetries) 0 ThrowUndefined [])
    as (extra & Hw & Hextra).
  rewrite Hw. simpl. intros Hj. by apply Hextra in Hj.
Qed.
End RetryMore.

(** C3, as amended.  With a bound of at least one attempt: an operation
    that fails retryably exactly [k] times, [k] below the bound, and then
    succeeds makes the executor return the success value after exactly
    [k + 1] invocations; an operation that always fails with an error that
    is not retryable is invoked exactly once and that error is thrown
    unchanged. *)
Theorem withRetry_retries_then_succeeds_or_fails_fast :
  forall (T : Type) (fn : nat -> Outcome T) (maxRetries baseDelay : Z),
    (forall (k : nat) (v : T),
        Z.of_nat k < maxRetries ->
        (forall j, (j < k)%nat ->
           exists e, fn j = Rejected e /\ Retry.isRetryable e = true) ->
        fn k = Resolved v ->
        Retry.settled (Retry.withRetry fn maxRetries baseDelay) = inr v /\
        Retry.calls (Retry.withRetry fn maxRetries baseDelay) = S k) /\
    (1 <= maxRetries ->
     (forall j, exists e, fn j = Rejected e /\ Retry.isRetryable e = false) ->
     exists e, fn 0%nat = Rejected e /\
       Retry.settled (Retry.withRetry fn maxRetries baseDelay) = inl (ThrowError e) /\
       Retry.calls (Retry.withRetry fn maxRetries baseDelay) = 1%nat).
Proof.
  intros T fn maxRetries baseDelay. split.
  - intros k v Hk Hfail Hok. unfold Retry.withRetry.
    apply (attempts_retry_then_resolve fn maxRetries baseDelay k
             (Z.to_nat maxRetries) 0 ThrowUndefined [] v); simpl; try done.
    + lia.
    + intros j Hj. apply Hfail. lia.
  - intros Hpos Hall. destruct (Hall 0%nat) as (e & He & Hre).
    exists e. split; [done|]. unfold Retry.withRetry.
    destruct (Z.to_nat maxRetries) as [|left] eqn:Hn; [lia|].
    by rewrite (attempts_fail_fast fn maxRetries baseDelay left 0 _ _ e He Hre).
Qed.

(** At the default bound: two retryable failures, then success at the
    third attempt; and a plain [Error] thrown at the first. *)
Lemma withRetry_retries_then_succeeds_or_fails_fast_witness :
  (Retry.settled (Retry.withRetry
      (Retry.fails_then [Retry.error_with_code 503; Retry.error_with_code 429] "frame") 3 2000)
   = inr "frame" /\
   Retry.calls (Retry.withRetry
      (Retry.fails_then [Retry.error_with_code 503; Retry.error_with_code 429] "frame") 3 2000)
   = 3%nat) /\
  exists e, (fun _ : nat => @Rejected string (Error "bad request")) 0%nat = Rejected e /\
    Retry.settled (Retry.withRetry (fun _ => @Rejected string (Error "bad request")) 3 2000)
    = inl (ThrowError e) /\
    Retry.calls (Retry.withRetry (fun _ => @Rejected string (Error "bad request")) 3 2000)
    = 1%nat.
Proof.
  split.
  - apply (proj1 (withRetry_retries_then_succeeds_or_fails_fast string
      (Retry.fails_then [Retry.error_with_code 503; Retry.error_with_code 429] "frame") 3 2000)
      2%nat "frame").
    + lia.
    + intros [|[|j]] Hj; [eexists; split; reflexivity .. | lia].
    + reflexivity.
  - apply (proj2 (withRetry_retries_then_succeeds_or_fails_fast string
      (fun _ => Rejected (Error "bad request")) 3 2000)).
    + lia.
    + intros j. eexists. split; reflexivity.
Defined.

(** C3, as the specification states it, fails at a bound of zero: the loop
    body never runs, so an operation that always fails with an error that
    is not retryable is never invoked, and [undefined] is thrown. *)
Lemma withRetry_zero_bound_never_invokes :
  (forall j : nat, exists e,
      (fun _ : nat => @Rejected string (Error "bad request")) j = Rejected e /\
      Retry.isRetryable e = false) /\
  Retry.calls (Retry.withRetry (fun _ => @Rejected string (Error "bad request")) 0 2000)
  <> 1%nat /\
  Retry.settled (Retry.withRetry (fun _ => @Rejected string (Error "bad request")) 0 2000)
  = inl ThrowUndefined.
Proof.
  split; [intros j; eexists; split; reflexivity|].
  split; [vm_compute; discriminate | reflexivity].
Qed.

(** C4, at the failing input.  An error that carries the status
    RESOURCE_EXHAUSTED without the numeric code 429 is retried as a
    rate-limit failure, and the wait before the second attempt is the
    default base delay, 2000 ms, not 5000 ms. *)
Theorem withRetry_resource_exhausted_waits_base_delay :
  Retry.isRetryable Retry.quota_exceeded = true /\
  Retry.waits (Retry.withRetry_default (Retry.fails_then [Retry.quota_exceeded] "video"))
  = [2000] /\
  Retry.calls (Retry.withRetry_default (Retry.fails_then [Retry.quota_exceeded] "video"))
  = 2%nat /\
  Retry.settled (Retry.withRetry_default (Retry.fails_then [Retry.quota_exceeded] "video"))
  = inr "video".
Proof. repeat split; reflexivity. Qed.

(** The sibling case: with the numeric code 429 the base is 5000 ms. *)
Lemma withRetry_code_429_waits_5000 :
  Retry.waits (Retry.withRetry_default
                 (Retry.fails_then [Retry.error_with_code 429] "video"))
  = [5000].
Proof. reflexivity. Qed.

(** ** Batch prompt generation *)

Section RetryThenReject.
Import Retry.
Context {T : Type}.
Variable fn : nat -> Outcome T.
Variable maxRetries baseDelay : Z.

(** Retried failures followed by a failure that is not retryable. *)
Lemma attempts_retry_then_reject (k : nat) : forall left i lastError waited e,
  (k < left)%nat ->
  Z.of_nat (i + k) < maxRetries ->
  (forall j, (i <= j < i + k)%nat ->
     exists e', fn j = Rejected e' /\ isRetryable e' = true) ->
  fn (i + k)%nat = Rejected e ->
  isRetryable e = false ->
  settled (attempts fn maxRetries baseDelay left i lastError waited)
  = inl (ThrowError e) /\
  calls (attempts fn maxRetries baseDelay left i lastError waited) = S (i + k).
Proof.
  induction k as [|k IH]; intros left i lastError waited e Hleft Hbound Hfail He Hre.
  - destruct left as [|left]; [lia|].
    rewrite Nat.add_0_r in He |- *.
    by rewrite (attempts_fail_fast fn maxRetries baseDelay left i _ _ e He Hre).
  - destruct left as [|left]; [lia|]. simpl.
    destruct (Hfail i ltac:(lia)) as (e' & He' & Hre').
    rewrite He', Hre'. simpl.
    assert ((Z.of_nat i <? maxRetries - 1) = true) as -> by (apply Z.ltb_lt; lia).
    replace (i + S k)%nat with (S i + k)%nat in * by lia.
    apply IH; [lia | done | | done | done].
    intros j Hj. apply Hfail. lia.
Qed.
End RetryThenReject.

Section PromptFacts.
Import Prompts.

Lemma map_segments_null seg rest index :
  map_segments JNull index (seg :: rest) = None.
Proof. reflexivity. Qed.

Lemma at_index_not_null results index :
  results <> JNull -> exists entry, at_index results index = Some entry.
Proof. destruct results; simpl; eauto. congruence. Qed.

(** On anything but [null] the map yields one entry per segment, each
    built from the segment and from what the response has at the same
    position. *)
Lemma map_segments_entries results segments : forall index,
  results <> JNull ->
  exists entries,
    map_segments results index segments = Some entries /\
    length entries = length segments /\
    script_segment <$> entries = segments /\
    forall i seg, segments !! i = Some seg ->
      exists entry, at_index results (index + i) = Some entry /\
        entries !! i = Some
          {| script_segment := seg;
             visual_prompt := or_placeholder (optional_field entry "visual_prompt");
             image_prompt := or_placeholder (optional_field entry "image_prompt") |}.
Proof.
  intros index Hnn. revert index.
  induction segments as [|seg rest IH]; intros index; simpl.
  - exists []. repeat split; done.
  - destruct (at_index_not_null results index Hnn) as (entry & Hentry).
    destruct (IH (S index)) as (tail & Htail & Hlen & Hsegs & Hat).
    rewrite Hentry, Htail. eexists. split; [done|].
    split; [simpl; by rewrite Hlen|].
    split; [rewrite fmap_cons; simpl; by rewrite Hsegs|].
    intros [|i] seg' Hi; simpl in Hi.
    + inversion Hi; subst. rewrite Nat.add_0_r. eauto.
    + replace (index + S i)%nat with (S index + i)%nat by lia. by apply Hat.
Qed.

Lemma attempt_not_retryable segments text e :
  attempt segments (Resolved text) = Rejected e -> Retry.isRetryable e = false.
Proof.
  unfold attempt. destruct (parse_or_default text) as [results|].
  - destruct (map_segments results 0 segments); intros H; by inversion H.
  - intros H; by inversion H.
Qed.
End PromptFacts.

(** C5, as amended.  When the request to the model succeeds, at once or
    after retried failures, and its text is empty, or parses to a JSON
    value other than [null], the result has exactly one entry per input
    segment, in the same order and with the input segment as
    [script_segment]; each prompt is the truthy value the response has at
    that position, and the placeholder otherwise, in particular at every
    position past the end of a response array.  When the text does not
    parse, or parses to [null] while there are segments, the call raises
    the error "生成提示词失败" instead. *)
Theorem generatePrompts_one_entry_per_segment :
  forall (segments : list string)
         (collaborator : nat -> Outcome Prompts.ResponseText)
         (k : nat) (text : Prompts.ResponseText),
    (k < 3)%nat ->
    (forall j, (j < k)%nat ->
       exists e, collaborator j = Rejected e /\ Retry.isRetryable e = true) ->
    collaborator k = Resolved text ->
    Retry.calls (Prompts.generatePromptsForContinuousSegments segments collaborator)
    = S k /\
    (forall results,
       Prompts.parse_or_default text = Some results ->
       results <> Prompts.JNull ->
       exists entries,
         Retry.settled (Prompts.generatePromptsForContinuousSegments segments collaborator)
         = inr entries /\
         length entries = length segments /\
         Prompts.script_segment <$> entries = segments /\
         (forall i seg, segments !! i = Some seg ->
            exists entry, Prompts.at_index results i = Some entry /\
              entries !! i = Some
                {| Prompts.script_segment := seg;
                   Prompts.visual_prompt :=
                     Prompts.or_placeholder (Prompts.optional_field entry "visual_prompt");
                   Prompts.image_prompt :=
                     Prompts.or_placeholder (Prompts.optional_field entry "image_prompt") |}) /\
         (forall items i seg,
            results = Prompts.JArr items -> (length items <= i)%nat ->
            segments !! i = Some seg ->
            entries !! i = Some
              {| Prompts.script_segment := seg;
                 Prompts.visual_prompt := Prompts.placeholder;
                 Prompts.image_prompt := Prompts.placeholder |})) /\
    (Prompts.parse_or_default text = None \/
     (Prompts.parse_or_default text = Some Prompts.JNull /\ segments <> []) ->
     Retry.settled (Prompts.generatePromptsForContinuousSegments segments collaborator)
     = inl (ThrowError (Error "生成提示词失败"))).
Proof.
  intros segments collaborator k text Hk Hfail Hok.
  unfold Prompts.generatePromptsForContinuousSegments, Retry.withRetry_default,
    Retry.withRetry.
  set (fn := fun j => Prompts.attempt segments (collaborator j)).
  assert (Hretry : forall j, (0 <= j < 0 + k)%nat ->
            exists e, fn j = Rejected e /\ Retry.isRetryable e = true).
  { intros j Hj. destruct (Hfail j ltac:(lia)) as (e & He & Hre).
    exists e. unfold fn. by rewrite He. }
  assert (Hcalls : Retry.calls (Retry.attempts fn 3 2000 (Z.to_nat 3) 0 ThrowUndefined [])
                   = S k).
  { destruct (fn k) as [v|e] eqn:Hfn.
    - apply (attempts_retry_then_resolve fn 3 2000 k (Z.to_nat 3) 0 _ _ v);
        [simpl; lia | simpl; lia | done | done].
    - apply (attempts_retry_then_reject fn 3 2000 k (Z.to_nat 3) 0 _ _ e);
        [simpl; lia | simpl; lia | done | done |].
      unfold fn in Hfn. rewrite Hok in Hfn.
      by apply (attempt_not_retryable segments text). }
  split; [done|]. split.
  - intros results Hparse Hnn.
    destruct (map_segments_entries results segments 0%nat Hnn)
      as (entries & Hmap & Hlen & Hsegs & Hat).
    exists entries.
    assert (Hfn : fn (0 + k)%nat = Resolved entries).
    { unfold fn. simpl. rewrite Hok. unfold Prompts.attempt. by rewrite Hparse, Hmap. }
    split.
    { apply (attempts_retry_then_resolve fn 3 2000 k (Z.to_nat 3) 0 _ _ entries);
        [simpl; lia | simpl; lia | done | done]. }
    split; [done|]. split; [done|]. split; [done|].
    intros items i seg -> Hi Hseg.
    destruct (Hat i seg Hseg) as (entry & Hentry & Hi').
    simpl in Hentry. rewrite (lookup_ge_None_2 items i Hi) in Hentry.
    inversion Hentry; subst. by rewrite Hi'.
  - intros Hbad.
    assert (Hfn : fn (0 + k)%nat = Rejected (Error "生成提示词失败")).
    { unfold fn. simpl. rewrite Hok. unfold Prompts.attempt.
      destruct Hbad as [-> | [-> Hne]]; [done|].
      destruct segments as [|seg rest]; [done|]. by rewrite map_segments_null. }
    apply (attempts_retry_then_reject fn 3 2000 k (Z.to_nat 3) 0 _ _
             (Error "生成提示词失败")); [simpl; lia | simpl; lia | done | done | done].
Qed.

(** Three segments, a first request that fails with code 503, and a
    response that has only the first entry. *)
Lemma generatePrompts_one_entry_per_segment_witness :
  exists entries,
    Retry.settled (Prompts.generatePromptsForContinuousSegments ["a"; "b"; "c"]
      (Retry.fails_then [Retry.error_with_code 503]
         (Prompts.TextJson (Prompts.JArr
            [Prompts.JObj [("visual_prompt", Prompts.JStr "v");
                           ("image_prompt", Prompts.JStr "i")]]))))
    = inr entries /\
    length entries = 3%nat /\
    Prompts.script_segment <$> entries = ["a"; "b"; "c"].
Proof.
  destruct (generatePrompts_one_entry_per_segment ["a"; "b"; "c"]
    (Retry.fails_then [Retry.error_with_code 503]
       (Prompts.TextJson (Prompts.JArr
          [Prompts.JObj [("visual_prompt", Prompts.JStr "v");
                         ("image_prompt", Prompts.JStr "i")]])))
    1%nat
    (Prompts.TextJson (Prompts.JArr
          [Prompts.JObj [("visual_prompt", Prompts.JStr "v");
                         ("image_prompt", Prompts.JStr "i")]])))
    as (_ & Hfill & _).
  - lia.
  - intros [|j] Hj; [eexists; split; reflexivity | lia].
  - reflexivity.
  - destruct (Hfill _ eq_refl ltac:(discriminate))
      as (entries & Hrun & Hlen & Hsegs & _).
    exists entries. done.
Defined.

(** C5, as the specification states it, fails on a response without a
    usable entry whose text is the JSON value [null], and on one whose
    text is not JSON: for one segment the call raises an error, it does not
    return an entry with the placeholder. *)
Lemma generatePrompts_null_or_malformed_raises :
  Retry.settled (Prompts.generatePromptsForContinuousSegments ["opening"]
                   (fun _ => Resolved (Prompts.TextJson Prompts.JNull)))
  = inl (ThrowError (Error "生成提示词失败")) /\
  Retry.settled (Prompts.generatePromptsForContinuousSegments ["opening"]
                   (fun _ => Resolved Prompts.TextMalformed))
  = inl (ThrowError (Error "生成提示词失败")).
Proof. split; reflexivity. Qed.

(** Three segments against a response with one entry, evaluated. *)
Example generatePrompts_short_response :
  Retry.settled (Prompts.generatePromptsForContinuousSegments ["a"; "b"; "c"]
    (fun _ => Resolved (Prompts.TextJson (Prompts.JArr
       [Prompts.JObj [("script_segment", Prompts.JStr "x");
                      ("visual_prompt", Prompts.JStr "v");
                      ("image_prompt", Prompts.JStr "")]]))))
  = inr [ {| Prompts.script_segment := "a";
             Prompts.visual_prompt := Prompts.JStr "v";
             Prompts.image_prompt := Prompts.placeholder |};
          {| Prompts.script_segment := "b";
             Prompts.visual_prompt := Prompts.placeholder;
             Prompts.image_prompt := Prompts.placeholder |};
          {| Prompts.script_segment := "c";
             Prompts.visual_prompt := Prompts.placeholder;
             Prompts.image_prompt := Prompts.placeholder |} ].
Proof. reflexivity. Qed.

(** ** AssetCompressor *)

Section CompressFacts.
Local Open Scope Q_scope.

(** The rounding of results to doubles, and a bound [u] on its relative
    error: [2^-53] for round-to-nearest binary64 in the normal range,
    [0] for exact arithmetic. *)
Variable fl : Q -> Q.
Variable u : Q.
Hypothesis u_nonneg : 0 <= u.
Hypothesis fl_near : forall x, 0 <= x -> x * (1 - u) <= fl x <= x * (1 + u).







End CompressFacts.



(** The same image, evaluated; a small image; a very tall one, whose
    width rounds to zero; and an image that does not decode. *)
Example compressImage_landscape :
  Compress.compressImage_default (fun x => x)
    {| Compress.decoded := Some (2000, 1000); Compress.context2d := true |}
    "data:image/png;base64,AAAA"
  = Compress.Reencoded 1024 512 (8 # 10).
Proof. reflexivity. Qed.

Example compressImage_within_bound :
  Compress.compressImage_default (fun x => x)
    {| Compress.decoded := Some (800, 600); Compress.context2d := true |}
    "data:image/png;base64,AAAA"
  = Compress.Reencoded 800 600 (8 # 10).
Proof. reflexivity. Qed.

Example compressImage_tall :
  Compress.compressImage_default (fun x => x)
    {| Compress.decoded := Some (1, 5000); Compress.context2d := true |}
    "data:image/png;base64,AAAA"
  = Compress.Reencoded 0 1024 (8 # 10).
Proof. reflexivity. Qed.

Example compressImage_not_decoded :
  Compress.compressImage_default (fun x => x)
    {| Compress.decoded := None; Compress.context2d := true |}
    "data:image/png;base64,AAAA"
  = Compress.Forwarded "AAAA" "image/png".
Proof. reflexivity. Qed.

(** ** FrameExtractor *)

Section FrameExtractorFacts.
Import FrameExtractor.

(** [capture] releases the handle however the rasterising goes. *)
Lemma capture_releases r x : released (capture r x) = true.
Proof. reflexivity. Qed.

(** The capture path: metadata, then a seek that ends with a paintable
    frame.  The promise settles as the rasterising went and the handle
    is released. *)
Lemma extract_capture_path videoUrl duration readyState r :
  (2 <= readyState)%Z ->
  let x := extractLastFrameFromVideo videoUrl
             [LoadedMetadata duration; Seeked readyState r] in
  released x = true /\
  promise x = Some (match r with
                    | Painted dataUrl => Resolved dataUrl
                    | NoContext => Rejected (Error "Context error")
                    | RasterThrows e => Rejected e
                    end).
Proof.
  intros Hrs. apply Z.leb_le in Hrs.
  cbv [extractLastFrameFromVideo foldl handle]. rewrite Hrs. by destruct r.
Qed.

(** Events other than a completed seek leave the source in place. *)
Lemma handle_no_seek_keeps_source x ev :
  no_seek ev -> src (handle x ev) = src x /\
                oncanplay_capture (handle x ev) = oncanplay_capture x.
Proof.
  destruct ev; simpl; try done.
  intros _. by destruct (timeout_armed x).
Qed.

Lemma foldl_no_seek_keeps_source events : forall x,
  Forall no_seek events -> src (foldl handle x events) = src x.
Proof.
  induction events as [|ev events IH]; intros x Hall; [done|].
  inversion Hall as [|? ? Hev Hrest]; subst. simpl.
  rewrite IH by done. by apply handle_no_seek_keeps_source.
Qed.

Lemma extract_without_seek_never_releases videoUrl events :
  Forall no_seek events ->
  released (extractLastFrameFromVideo videoUrl events) = false.
Proof.
  intros Hall. unfold extractLastFrameFromVideo, released.
  by rewrite (foldl_no_seek_keeps_source events (opened videoUrl) Hall).
Qed.
End FrameExtractorFacts.

(** C7, at the failing inputs.  When the 10 s timer fires first, and when
    the video element reports an error, the promise is rejected and the
    video element still has its source: only [capture] releases the
    handle. *)
Theorem extractLastFrame_timeout_and_error_keep_handle :
  forall videoUrl : string,
    FrameExtractor.promise
      (FrameExtractor.extractLastFrameFromVideo videoUrl [FrameExtractor.TimeoutFired])
    = Some (Rejected (Error "提取超时")) /\
    FrameExtractor.released
      (FrameExtractor.extractLastFrameFromVideo videoUrl [FrameExtractor.TimeoutFired])
    = false /\
    FrameExtractor.promise
      (FrameExtractor.extractLastFrameFromVideo videoUrl [FrameExtractor.MediaError])
    = Some (Rejected (Error "Video error")) /\
    FrameExtractor.released
      (FrameExtractor.extractLastFrameFromVideo videoUrl [FrameExtractor.MediaError])
    = false.
Proof. intros videoUrl. repeat split; reflexivity. Qed.

(** ** ShotOrchestrator *)

Section UpdateFacts.
Import Orchestrator.

Lemma map_id_lookup target f prev k :
  map_id target f prev !! k
  = (fun s => if String.eqb (id s) target then f s else s) <$> prev !! k.
Proof. unfold map_id. apply list_lookup_fmap. Qed.

Lemma map_id_length target f prev : length (map_id target f prev) = length prev.
Proof. unfold map_id. apply length_fmap. Qed.

Lemma apply_mapped u target f prev :
  mapped u = Some (target, f) -> apply u prev = map_id target f prev.
Proof. destruct u; simpl; intros H; by inversion H. Qed.

Lemma findIndex_Some target prev idx :
  findIndex target prev = Some idx <->
  exists s, prev !! idx = Some s /\ id s = target /\
    forall j y, prev !! j = Some y -> (j < idx)%nat -> id y <> target.
Proof.
  unfold findIndex. split.
  - intros H. destruct (list_find _ prev) as [[i x]|] eqn:Hfind; [|done].
    simpl in H. inversion H; subst. apply list_find_Some in Hfind. eauto.
  - intros (s & Hs & Hid & Hfirst).
    assert (Hfind : list_find (fun s => id s = target) prev = Some (idx, s))
      by (apply list_find_Some; eauto).
    by rewrite Hfind.
Qed.

Lemma findIndex_None target prev :
  findIndex target prev = None <-> forall s, s ∈ prev -> id s <> target.
Proof.
  unfold findIndex. split.
  - intros H s Hs. destruct (list_find _ prev) as [[i x]|] eqn:Hfind; [done|].
    apply list_find_None in Hfind. rewrite Forall_forall in Hfind. by apply Hfind.
  - intros H. assert (Hfind : list_find (fun s => id s = target) prev = None).
    { apply list_find_None. rewrite Forall_forall. exact H. }
    by rewrite Hfind.
Qed.

Lemma find_findIndex target prev s :
  find target prev = Some s ->
  exists idx, findIndex target prev = Some idx /\ prev !! idx = Some s /\ id s = target.
Proof.
  unfold find, findIndex. intros H.
  destruct (list_find _ prev) as [[i x]|] eqn:Hfind; [|done].
  simpl in H. inversion H; subst. apply list_find_Some in Hfind.
  destruct Hfind as (Hi & Hid & _). eauto.
Qed.

(** After the guard of the continuity write, the next position exists. *)
Lemma findIndex_next target prev idx :
  findIndex target prev = Some idx -> idx <> (length prev - 1)%nat ->
  exists next, prev !! (idx + 1)%nat = Some next.
Proof.
  intros Hidx Hlast. apply findIndex_Some in Hidx as (s & Hs & _).
  apply lookup_lt_Some in Hs.
  destruct (lookup_lt_is_Some_2 prev (idx + 1)%nat ltac:(lia)) as [next Hnext].
  eauto.
Qed.

(** The continuity write, case by case. *)
Lemma continuityWrite_cases target lastFrame prev :
  (findIndex target prev = None /\ continuityWrite target lastFrame prev = prev) \/
  (exists idx, findIndex target prev = Some idx /\ idx = (length prev - 1)%nat /\
     continuityWrite target lastFrame prev = prev) \/
  (exists idx next, findIndex target prev = Some idx /\ idx <> (length prev - 1)%nat /\
     prev !! (idx + 1)%nat = Some next /\
     continuityWrite target lastFrame prev
     = if slot_empty next
       then <[(idx + 1)%nat := frame_inherited lastFrame next]> prev
       else prev).
Proof.
  unfold continuityWrite.
  destruct (findIndex target prev) as [idx|] eqn:Hidx; [|by left].
  right. destruct (Nat.eqb idx (length prev - 1)) eqn:Hlast.
  - left. apply Nat.eqb_eq in Hlast. eauto.
  - right. apply Nat.eqb_neq in Hlast.
    destruct (findIndex_next target prev idx Hidx Hlast) as [next Hnext].
    exists idx, next. by rewrite Hnext.
Qed.

(** Every update of a handler keeps the sequence and its ids, and
    changes each shot as [scene_step] says. *)
Lemma apply_scene_step u prev k s :
  handler_update u -> prev !! k = Some s ->
  exists s', apply u prev !! k = Some s' /\ scene_step u s s'.
Proof.
  intros Hu Hk.
  destruct (mapped u) as [[target f]|] eqn:Hm.
  - rewrite (apply_mapped u target f prev Hm), map_id_lookup, Hk. simpl.
    eexists. split; [done|]. unfold scene_step. rewrite Hm.
    by destruct u.
  - destruct u; try done. simpl.
    destruct (continuityWrite_cases target lastFrame prev)
      as [[_ ->] | [(idx & _ & _ & ->) | (idx & next & _ & _ & Hnext & ->)]];
      [eauto | eauto |].
    destruct (slot_empty next) eqn:Hempty; [|eauto].
    destruct (decide (k = (idx + 1)%nat)) as [->|Hne].
    + rewrite Hnext in Hk. inversion Hk; subst.
      rewrite list_lookup_insert_eq by (by eapply lookup_lt_Some).
      eauto.
    + rewrite list_lookup_insert_ne by done. eauto.
Qed.

Lemma apply_length u prev :
  handler_update u -> length (apply u prev) = length prev.
Proof.
  intros Hu. destruct (mapped u) as [[target f]|] eqn:Hm.
  - by rewrite (apply_mapped u target f prev Hm), map_id_length.
  - destruct u; try done. simpl.
    destruct (continuityWrite_cases target lastFrame prev)
      as [[_ ->] | [(idx & _ & _ & ->) | (idx & next & _ & _ & _ & ->)]];
      [done | done |].
    destruct (slot_empty next); [by rewrite length_insert | done].
Qed.

Lemma scene_step_id u s s' : scene_step u s s' -> id s' = id s.
Proof.
  destruct u; simpl; intros H;
    try (subst; by destruct (String.eqb (id s) target));
    try (by subst).
  destruct H as [->|[_ ->]]; done.
Qed.

(** The updates of the video handler, one by one. *)
Lemma handleGenerateVideo_updates c target promptOverride video extraction u :
  u ∈ updates (handleGenerateVideo c target promptOverride video extraction) ->
  u = StartVideo target promptOverride \/
  (exists e, video = Rejected e /\ u = FailVideo target e) \/
  (exists url, video = Resolved url /\
     u = CompleteVideo target url (selectedAspectRatio c)) \/
  (exists url lastFrame idx next,
     video = Resolved url /\ extraction = Resolved lastFrame /\
     mode c = Single /\ findIndex target (scenes c) = Some idx /\
     scenes c !! (idx + 1)%nat = Some next /\ slot_empty next = true /\
     u = ContinuityWrite target lastFrame).
Proof.
  unfold handleGenerateVideo.
  destruct (find target (scenes c)) as [scene|]; simpl;
    [|rewrite list_elem_of_singleton; auto].
  destruct video as [url|e]; simpl.
  2:{ rewrite !elem_of_cons, elem_of_nil.
      intros [->|[->|[]]]; [by left | right; left; by exists e]. }
  assert (Hshort : u ∈ [StartVideo target promptOverride;
                        CompleteVideo target url (selectedAspectRatio c)] ->
            u = StartVideo target promptOverride \/
            (exists e, Resolved url = Rejected e /\ u = FailVideo target e) \/
            (exists url0, Resolved url = Resolved url0 /\
               u = CompleteVideo target url0 (selectedAspectRatio c)) \/
            (exists url0 lastFrame idx next,
               Resolved url = Resolved url0 /\ extraction = Resolved lastFrame /\
               mode c = Single /\ findIndex target (scenes c) = Some idx /\
               scenes c !! (idx + 1)%nat = Some next /\ slot_empty next = true /\
               u = ContinuityWrite target lastFrame)).
  { rewrite !elem_of_cons, elem_of_nil.
    intros [->|[->|[]]]; [by left | right; right; left; by exists url]. }
  destruct (findIndex target (scenes c)) as [idx|] eqn:Hidx; [|done].
  destruct (bool_decide (mode c = Single)) eqn:Hmode; simpl; [|done].
  apply bool_decide_eq_true in Hmode.
  destruct (Nat.ltb (idx + 1) (length (scenes c))); [|done].
  destruct (scenes c !! (idx + 1)%nat) as [next|] eqn:Hnext; [|done].
  destruct (slot_empty next) eqn:Hempty; [|done].
  destruct extraction as [lastFrame|e]; simpl; [|done].
  rewrite !elem_of_cons, elem_of_nil.
  intros [->|[->|[->|[]]]];
    [by left | right; right; left; by exists url |].
  right. right. right. exists url, lastFrame, idx, next. done.
Qed.
End UpdateFacts.

(** C10.  The continuity write looks the completed shot up by id in the
    sequence it is applied to.  If no shot has that id, or the first shot
    that has it is the last of the sequence, the sequence is returned as
    it is; otherwise the shot right after it in that sequence is the one
    written, when its slot is empty: its start frame becomes the
    extracted frame and its image state completed, its other fields stay
    as they are, and nothing else changes. *)
Theorem continuityWrite_resolves_target_at_write_time :
  forall (target lastFrame : string) (prev : list Orchestrator.Scene),
    ((forall s, s ∈ prev -> Orchestrator.id s <> target) ->
     Orchestrator.continuityWrite target lastFrame prev = prev) /\
    (forall idx s,
       prev !! idx = Some s -> Orchestrator.id s = target ->
       (forall j y, prev !! j = Some y -> (j < idx)%nat -> Orchestrator.id y <> target) ->
       (idx = (length prev - 1)%nat ->
        Orchestrator.continuityWrite target lastFrame prev = prev) /\
       (idx <> (length prev - 1)%nat ->
        exists next, prev !! (idx + 1)%nat = Some next /\
          Orchestrator.continuityWrite target lastFrame prev
          = (if Orchestrator.slot_empty next
             then <[(idx + 1)%nat := Orchestrator.frame_inherited lastFrame next]> prev
             else prev) /\
          (forall j, j <> (idx + 1)%nat ->
             Orchestrator.continuityWrite target lastFrame prev !! j = prev !! j) /\
          (Orchestrator.slot_empty next = false ->
           Orchestrator.continuityWrite target lastFrame prev = prev) /\
          (Orchestrator.slot_empty next = true ->
           exists written,
             Orchestrator.continuityWrite target lastFrame prev !! (idx + 1)%nat
             = Some written /\
             Orchestrator.generatedImage written = Some lastFrame /\
             Orchestrator.imageStatus written = Orchestrator.ICompleted /\
             Orchestrator.id written = Orchestrator.id next /\
             Orchestrator.scriptSegment written = Orchestrator.scriptSegment next /\
             Orchestrator.visualPrompt written = Orchestrator.visualPrompt next /\
             Orchestrator.imagePrompt written = Orchestrator.imagePrompt next /\
             Orchestrator.videoUrl written = Orchestrator.videoUrl next /\
             Orchestrator.styleReferenceImage written
             = Orchestrator.styleReferenceImage next /\
             Orchestrator.status written = Orchestrator.status next /\
             Orchestrator.errorMessage written = Orchestrator.errorMessage next /\
             Orchestrator.imageErrorMessage written
             = Orchestrator.imageErrorMessage next /\
             Orchestrator.aspectRatio written = Orchestrator.aspectRatio next))).
Proof.
  intros target lastFrame prev. split.
  - intros Habsent. apply findIndex_None in Habsent.
    unfold Orchestrator.continuityWrite. by rewrite Habsent.
  - intros idx s Hs Hid Hfirst.
    assert (Hidx : Orchestrator.findIndex target prev = Some idx)
      by (apply findIndex_Some; eauto).
    destruct (continuityWrite_cases target lastFrame prev)
      as [[Hnone _] | [(i & Hi & Hlast & Hsame) | (i & next & Hi & Hlast & Hnext & Hcw)]].
    + congruence.
    + rewrite Hidx in Hi. inversion Hi; subst i. split; [done | intros Hne; lia].
    + rewrite Hidx in Hi. inversion Hi; subst i. split; [intros Heq; lia |].
      intros _. exists next. split; [exact Hnext|]. split; [exact Hcw|].
      assert (Hlt : (idx + 1 < length prev)%nat) by (by eapply lookup_lt_Some).
      rewrite Hcw. split; [|split].
      * intros j Hj. destruct (Orchestrator.slot_empty next); [|done].
        by apply list_lookup_insert_ne.
      * by intros ->.
      * intros ->.
        exists (Orchestrator.frame_inherited lastFrame next).
        split; [by apply list_lookup_insert_eq|].
        do 11 (split; [reflexivity|]). reflexivity.
Qed.

(** Three shots, the completed one in the middle, the last one empty: the
    frame goes into the last one. *)
Lemma continuityWrite_resolves_target_at_write_time_witness :
  exists written,
    Orchestrator.continuityWrite "b" "frame"
      [Orchestrator.added_scene "a"; Orchestrator.added_scene "b";
       Orchestrator.added_scene "c"] !! 2%nat = Some written /\
    Orchestrator.generatedImage written = Some "frame" /\
    Orchestrator.imageStatus written = Orchestrator.ICompleted /\
    Orchestrator.id written = "c" /\
    Orchestrator.continuityWrite "b" "frame"
      [Orchestrator.added_scene "a"; Orchestrator.added_scene "b";
       Orchestrator.added_scene "c"] !! 0%nat = Some (Orchestrator.added_scene "a") /\
    Orchestrator.continuityWrite "b" "frame"
      [Orchestrator.added_scene "a"; Orchestrator.added_scene "b";
       Orchestrator.added_scene "c"] !! 1%nat = Some (Orchestrator.added_scene "b").
Proof.
  destruct (proj2 (continuityWrite_resolves_target_at_write_time "b" "frame"
    [Orchestrator.added_scene "a"; Orchestrator.added_scene "b";
     Orchestrator.added_scene "c"]) 1%nat (Orchestrator.added_scene "b")
    eq_refl eq_refl) as [_ Hwrite].
  - intros [|j] y Hy Hj; [inversion Hy; subst; discriminate | lia].
  - destruct (Hwrite ltac:(simpl; lia)) as (next & Hnext & _ & Hother & _ & Hwritten).
    inversion Hnext; subst next.
    destruct (Hwritten eq_refl)
      as (written & Hat & Himage & Hstatus & Hid & _).
    exists written. split; [exact Hat|]. split; [exact Himage|].
    split; [exact Hstatus|]. split; [exact Hid|].
    split; [exact (Hother 0%nat ltac:(lia)) | exact (Hother 1%nat ltac:(lia))].
Defined.

(** C1.  When the video of a shot has been generated: if the next shot of
    the sequence the handler checks already has a start frame, no
    continuity write is issued at all; whatever state an update of the run
    is applied to, a shot whose start frame is set there keeps it; and the
    continuity write changes a shot only if its slot is empty at that
    moment, and then writes the extracted frame into it. *)
Theorem continuity_first_writer_wins :
  forall (c : Orchestrator.Closure) (target : string)
         (promptOverride : option string) (url : string)
         (extraction : Outcome string),
    (forall idx next,
       Orchestrator.findIndex target (Orchestrator.scenes c) = Some idx ->
       Orchestrator.scenes c !! (idx + 1)%nat = Some next ->
       Orchestrator.slot_empty next = false ->
       Orchestrator.updates
         (Orchestrator.handleGenerateVideo c target promptOverride (Resolved url) extraction)
       = [Orchestrator.StartVideo target promptOverride;
          Orchestrator.CompleteVideo target url (Orchestrator.selectedAspectRatio c)]) /\
    (forall u prev k s,
       u ∈ Orchestrator.updates
             (Orchestrator.handleGenerateVideo c target promptOverride (Resolved url) extraction) ->
       prev !! k = Some s ->
       Orchestrator.slot_empty s = false ->
       exists s', Orchestrator.apply u prev !! k = Some s' /\
                  Orchestrator.generatedImage s' = Orchestrator.generatedImage s) /\
    (forall lastFrame prev k s s',
       prev !! k = Some s ->
       Orchestrator.continuityWrite target lastFrame prev !! k = Some s' ->
       s' <> s ->
       Orchestrator.slot_empty s = true /\
       s' = Orchestrator.frame_inherited lastFrame s).
Proof.
  intros c target promptOverride url extraction. split; [|split].
  - intros idx next Hidx Hnext Hfull.
    unfold Orchestrator.handleGenerateVideo.
    destruct (proj1 (findIndex_Some _ _ _) Hidx) as (s & Hs & Hid & Hfirst).
    assert (Hfind : Orchestrator.find target (Orchestrator.scenes c) = Some s).
    { unfold Orchestrator.find.
      assert (H : list_find (fun s => Orchestrator.id s = target) (Orchestrator.scenes c)
                  = Some (idx, s)) by (apply list_find_Some; eauto).
      by rewrite H. }
    rewrite Hfind, Hidx, Hnext, Hfull.
    by destruct (bool_decide _ && _).
  - intros u prev k s Hu Hk Hfull.
    assert (Hhandler : Orchestrator.handler_update u).
    { apply handleGenerateVideo_updates in Hu
        as [->|[(e & _ & ->)|[(url' & _ & ->)|(? & ? & ? & ? & _ & _ & _ & _ & _ & _ & ->)]]];
        done. }
    destruct (apply_scene_step u prev k s Hhandler Hk) as (s' & Hs' & Hstep).
    exists s'. split; [done|].
    apply handleGenerateVideo_updates in Hu
      as [->|[(e & _ & ->)|[(url' & _ & ->)|(? & lastFrame & ? & ? & _ & _ & _ & _ & _ & _ & ->)]]];
      simpl in Hstep.
    + subst. by destruct (String.eqb _ _).
    + subst. by destruct (String.eqb _ _).
    + subst. by destruct (String.eqb _ _).
    + destruct Hstep as [->|[Hempty _]]; [done | congruence].
  - intros lastFrame prev k s s' Hk Hk' Hne.
    destruct (apply_scene_step (Orchestrator.ContinuityWrite target lastFrame)
                prev k s I Hk) as (s'' & Hs'' & Hstep).
    simpl in Hs''. rewrite Hk' in Hs''. inversion Hs''; subst s''.
    simpl in Hstep. destruct Hstep as [->|[Hempty ->]]; done.
Qed.

(** Shot "b" already has a start frame when the video of "a" is done; shot
    "b" gets one while the frame of "a" is being extracted; and shot "b" is
    still empty when the frame arrives. *)
Lemma continuity_first_writer_wins_witness :
  Orchestrator.updates
    (Orchestrator.handleGenerateVideo
       {| Orchestrator.mode := Orchestrator.Single;
          Orchestrator.scenes :=
            [Orchestrator.added_scene "a";
             Orchestrator.image_completed "upload" (Orchestrator.added_scene "b")];
          Orchestrator.selectedAspectRatio := Orchestrator.R16_9;
          Orchestrator.selectedStyle := ""; Orchestrator.selectedEra := "";
          Orchestrator.selectedEthnicity := "";
          Orchestrator.globalReferenceImage := None |}
       "a" None (Resolved "blob:video") (Resolved "frame"))
  = [Orchestrator.StartVideo "a" None;
     Orchestrator.CompleteVideo "a" "blob:video" Orchestrator.R16_9] /\
  (exists s',
     Orchestrator.apply (Orchestrator.ContinuityWrite "a" "frame")
       [Orchestrator.added_scene "a";
        Orchestrator.image_completed "upload" (Orchestrator.added_scene "b")] !! 1%nat
     = Some s' /\
     Orchestrator.generatedImage s' = Some "upload") /\
  (Orchestrator.slot_empty (Orchestrator.added_scene "b") = true /\
   Orchestrator.frame_inherited "frame" (Orchestrator.added_scene "b")
   = Orchestrator.frame_inherited "frame" (Orchestrator.added_scene "b")).
Proof.
  split; [|split].
  - apply (proj1 (continuity_first_writer_wins
      {| Orchestrator.mode := Orchestrator.Single;
         Orchestrator.scenes :=
           [Orchestrator.added_scene "a";
            Orchestrator.image_completed "upload" (Orchestrator.added_scene "b")];
         Orchestrator.selectedAspectRatio := Orchestrator.R16_9;
         Orchestrator.selectedStyle := ""; Orchestrator.selectedEra := "";
         Orchestrator.selectedEthnicity := "";
         Orchestrator.globalReferenceImage := None |}
      "a" None "blob:video" (Resolved "frame")) 0%nat
      (Orchestrator.image_completed "upload" (Orchestrator.added_scene "b")));
      reflexivity.
  - apply (proj1 (proj2 (continuity_first_writer_wins
      {| Orchestrator.mode := Orchestrator.Single;
         Orchestrator.scenes :=
           [Orchestrator.added_scene "a"; Orchestrator.added_scene "b"];
         Orchestrator.selectedAspectRatio := Orchestrator.R16_9;
         Orchestrator.selectedStyle := ""; Orchestrator.selectedEra := "";
         Orchestrator.selectedEthnicity := "";
         Orchestrator.globalReferenceImage := None |}
      "a" None "blob:video" (Resolved "frame")))
      (Orchestrator.ContinuityWrite "a" "frame")
      [Orchestrator.added_scene "a";
       Orchestrator.image_completed "upload" (Orchestrator.added_scene "b")]
      1%nat (Orchestrator.image_completed "upload" (Orchestrator.added_scene "b"))).
    + apply list_elem_of_In. vm_compute. right. right. left. reflexivity.
    + reflexivity.
    + reflexivity.
  - apply (proj2 (proj2 (continuity_first_writer_wins
      {| Orchestrator.mode := Orchestrator.Single;
         Orchestrator.scenes :=
           [Orchestrator.added_scene "a"; Orchestrator.added_scene "b"];
         Orchestrator.selectedAspectRatio := Orchestrator.R16_9;
         Orchestrator.selectedStyle := ""; Orchestrator.selectedEra := "";
         Orchestrator.selectedEthnicity := "";
         Orchestrator.globalReferenceImage := None |}
      "a" None "blob:video" (Resolved "frame")))
      "frame" [Orchestrator.added_scene "a"; Orchestrator.added_scene "b"]
      1%nat (Orchestrator.added_scene "b")
      (Orchestrator.frame_inherited "frame" (Orchestrator.added_scene "b"))).
    + reflexivity.
    + reflexivity.
    + discriminate.
Defined.

Section HandlerFacts.
Import Orchestrator.

Lemma find_Some_findIndex target l idx s :
  findIndex target l = Some idx -> l !! idx = Some s -> find target l = Some s.
Proof.
  intros Hidx Hs. apply findIndex_Some in Hidx as (s0 & Hs0 & Hid & Hfirst).
  assert (s0 = s) by congruence. subst s0. unfold find.
  assert (H : list_find (fun s => id s = target) l = Some (idx, s))
    by (apply list_find_Some; eauto).
  by rewrite H.
Qed.

(** What the completion of a video does to one shot. *)
Lemma video_completed_frame target url ratio prev k s :
  prev !! k = Some s ->
  exists s', apply (CompleteVideo target url ratio) prev !! k = Some s' /\
    (id s = target -> status s' = VCompleted) /\
    (id s <> target -> s' = s) /\
    errorMessage s' = errorMessage s /\
    imageErrorMessage s' = imageErrorMessage s /\
    generatedImage s' = generatedImage s /\
    imageStatus s' = imageStatus s.
Proof.
  intros Hk. simpl. rewrite map_id_lookup, Hk. simpl. eexists. split; [done|].
  destruct (String.eqb_spec (id s) target); simpl; repeat split; congruence.
Qed.

(** What the start of a video generation does to one shot. *)
Lemma video_started_frame target promptOverride prev k s :
  prev !! k = Some s ->
  exists s', apply (StartVideo target promptOverride) prev !! k = Some s' /\
    id s' = id s /\
    (id s = target -> status s' = VGenerating /\ errorMessage s' = None) /\
    (id s <> target -> s' = s) /\
    imageErrorMessage s' = imageErrorMessage s /\
    generatedImage s' = generatedImage s /\
    imageStatus s' = imageStatus s.
Proof.
  intros Hk. simpl. rewrite map_id_lookup, Hk. simpl. eexists. split; [done|].
  destruct (String.eqb_spec (id s) target); simpl; repeat split; congruence.
Qed.
End HandlerFacts.

(** C8.  When the continuity step of a completed video runs and the frame
    extraction fails or times out: the handler only logs the error, its
    updates are the start and the completion of the video and nothing
    else; the completion, in whatever state it is applied, sets the shot to
    completed and touches no error field, no start frame and no other
    shot; and, applied to the sequence the handler checked, the two updates
    leave the completed shot with no error message and the next shot's
    slot empty. *)
Theorem extraction_failure_is_swallowed :
  forall (c : Orchestrator.Closure) (target : string)
         (promptOverride : option string) (url : string) (e : JsError)
         (idx : nat) (next : Orchestrator.Scene),
    Orchestrator.mode c = Orchestrator.Single ->
    Orchestrator.findIndex target (Orchestrator.scenes c) = Some idx ->
    Orchestrator.scenes c !! (idx + 1)%nat = Some next ->
    Orchestrator.slot_empty next = true ->
    Orchestrator.updates
      (Orchestrator.handleGenerateVideo c target promptOverride (Resolved url) (Rejected e))
    = [Orchestrator.StartVideo target promptOverride;
       Orchestrator.CompleteVideo target url (Orchestrator.selectedAspectRatio c)] /\
    Orchestrator.warned
      (Orchestrator.handleGenerateVideo c target promptOverride (Resolved url) (Rejected e))
    = [e] /\
    (forall prev k s, prev !! k = Some s ->
       exists s',
         Orchestrator.apply
           (Orchestrator.CompleteVideo target url (Orchestrator.selectedAspectRatio c))
           prev !! k = Some s' /\
         (Orchestrator.id s = target -> Orchestrator.status s' = Orchestrator.VCompleted) /\
         (Orchestrator.id s <> target -> s' = s) /\
         Orchestrator.errorMessage s' = Orchestrator.errorMessage s /\
         Orchestrator.imageErrorMessage s' = Orchestrator.imageErrorMessage s /\
         Orchestrator.generatedImage s' = Orchestrator.generatedImage s /\
         Orchestrator.imageStatus s' = Orchestrator.imageStatus s) /\
    (forall k s, Orchestrator.scenes c !! k = Some s ->
       exists s',
         foldl (fun prev u => Orchestrator.apply u prev) (Orchestrator.scenes c)
           (Orchestrator.updates
              (Orchestrator.handleGenerateVideo c target promptOverride
                 (Resolved url) (Rejected e))) !! k = Some s' /\
         (Orchestrator.id s = target ->
            Orchestrator.status s' = Orchestrator.VCompleted /\
            Orchestrator.errorMessage s' = None) /\
         (Orchestrator.id s <> target -> s' = s) /\
         Orchestrator.imageErrorMessage s' = Orchestrator.imageErrorMessage s /\
         Orchestrator.generatedImage s' = Orchestrator.generatedImage s /\
         Orchestrator.imageStatus s' = Orchestrator.imageStatus s).
Proof.
  intros c target promptOverride url e idx next Hmode Hidx Hnext Hempty.
  assert (Hlen : (idx + 1 < length (Orchestrator.scenes c))%nat)
    by (by eapply lookup_lt_Some).
  destruct (proj1 (findIndex_Some _ _ _) Hidx) as (scene & Hscene & _).
  pose proof (find_Some_findIndex _ _ _ _ Hidx Hscene) as Hfind.
  assert (Hrun : Orchestrator.handleGenerateVideo c target promptOverride
                   (Resolved url) (Rejected e)
                 = Orchestrator.mkEffects
                     [Orchestrator.StartVideo target promptOverride;
                      Orchestrator.CompleteVideo target url
                        (Orchestrator.selectedAspectRatio c)] [e]).
  { unfold Orchestrator.handleGenerateVideo.
    rewrite Hfind, Hidx, Hnext, Hempty.
    rewrite (bool_decide_eq_true_2 _ Hmode).
    by rewrite (proj2 (Nat.ltb_lt _ _) Hlen). }
  rewrite Hrun. simpl Orchestrator.updates. simpl Orchestrator.warned.
  split; [done|]. split; [done|]. split.
  - intros prev k s Hk. by apply video_completed_frame.
  - intros k s Hk. cbn [foldl].
    destruct (video_started_frame target promptOverride _ k s Hk)
      as (s1 & Hs1 & Hid1 & Htarget1 & Hother1 & Himg1 & Hgen1 & Hst1).
    destruct (video_completed_frame target url (Orchestrator.selectedAspectRatio c)
                _ k s1 Hs1)
      as (s2 & Hs2 & Htarget2 & Hother2 & Herr2 & Himg2 & Hgen2 & Hst2).
    exists s2. split; [done|]. rewrite Hid1 in Htarget2, Hother2.
    repeat split; try congruence.
    + by apply Htarget2.
    + rewrite Herr2. by apply Htarget1.
    + intros Hne. rewrite (Hother2 Hne). by apply Hother1.
Qed.

(** Two empty shots in continuous mode, and an extraction that times
    out. *)
Lemma extraction_failure_is_swallowed_witness :
  Orchestrator.updates
    (Orchestrator.handleGenerateVideo
       {| Orchestrator.mode := Orchestrator.Single;
          Orchestrator.scenes :=
            [Orchestrator.added_scene "a"; Orchestrator.added_scene "b"];
          Orchestrator.selectedAspectRatio := Orchestrator.R9_16;
          Orchestrator.selectedStyle := ""; Orchestrator.selectedEra := "";
          Orchestrator.selectedEthnicity := "";
          Orchestrator.globalReferenceImage := None |}
       "a" None (Resolved "blob:video") (Rejected (Error "提取超时")))
  = [Orchestrator.StartVideo "a" None;
     Orchestrator.CompleteVideo "a" "blob:video" Orchestrator.R9_16] /\
  Orchestrator.warned
    (Orchestrator.handleGenerateVideo
       {| Orchestrator.mode := Orchestrator.Single;
          Orchestrator.scenes :=
            [Orchestrator.added_scene "a"; Orchestrator.added_scene "b"];
          Orchestrator.selectedAspectRatio := Orchestrator.R9_16;
          Orchestrator.selectedStyle := ""; Orchestrator.selectedEra := "";
          Orchestrator.selectedEthnicity := "";
          Orchestrator.globalReferenceImage := None |}
       "a" None (Resolved "blob:video") (Rejected (Error "提取超时")))
  = [Error "提取超时"].
Proof.
  destruct (extraction_failure_is_swallowed
    {| Orchestrator.mode := Orchestrator.Single;
       Orchestrator.scenes :=
         [Orchestrator.added_scene "a"; Orchestrator.added_scene "b"];
       Orchestrator.selectedAspectRatio := Orchestrator.R9_16;
       Orchestrator.selectedStyle := ""; Orchestrator.selectedEra := "";
       Orchestrator.selectedEthnicity := "";
       Orchestrator.globalReferenceImage := None |}
    "a" None "blob:video" (Error "提取超时") 0%nat (Orchestrator.added_scene "b")
    eq_refl eq_refl eq_refl eq_refl) as (Hupdates & Hwarned & _).
  split; [exact Hupdates | exact Hwarned].
Defined.

Section FirstFrameFacts.
Import Orchestrator.

(** The updates a failing first-frame run issues before the failure
    only start the generation or persist a generated prompt. *)
Lemma first_frame_failure_updates c target promptOverride prompt image e scene :
  find target (scenes c) = Some scene ->
  (truthy (or_else promptOverride (imagePrompt scene)) = false /\ prompt = Rejected e) \/
  (image = Rejected e /\
   (truthy (or_else promptOverride (imagePrompt scene)) = true \/
    exists p, prompt = Resolved p)) ->
  updates (handleGenerateFirstFrame c target promptOverride prompt image)
  = [StartFirstFrame target; FailFirstFrame target e] \/
  exists p,
    updates (handleGenerateFirstFrame c target promptOverride prompt image)
    = [StartFirstFrame target;
       UpdatePrompt target (visualPrompt scene) (Some p);
       FailFirstFrame target e].
Proof.
  intros Hfind Hfail. unfold handleGenerateFirstFrame. rewrite Hfind.
  destruct Hfail as [[Hno ->] | [-> [Hyes | [p ->]]]].
  - rewrite Hno. by left.
  - rewrite Hyes. by left.
  - destruct (truthy (or_else promptOverride (imagePrompt scene))); [by left|].
    right. by exists p.
Qed.
End FirstFrameFacts.

(** C9, as amended.  When a first-frame request fails, because the image
    generation fails or because the prompt generation it needed fails:
    the last update of the run records the message of that error and sets
    [imageStatus] to error on the shot with the requested id, and leaves
    every other field of that shot and every other shot as they are in the
    state it is applied to; no update of the run changes the start frame
    of any shot; and over the whole run, applied in a row to any state,
    every other shot and every other field of the shot stay as they are,
    but for the two prompts in one case: when the run had to generate the
    first-frame prompt and did, it has stored it before the image
    generation failed, so the image prompt of the shot is the generated
    one and its video prompt the one the handler saw at its last render;
    when the prompt was at hand or its generation failed, the prompts
    stay as they are too. *)
Theorem first_frame_failure_records_error :
  forall (c : Orchestrator.Closure) (target : string)
         (promptOverride : option string) (prompt image : Outcome string)
         (e : JsError) (scene : Orchestrator.Scene),
    Orchestrator.find target (Orchestrator.scenes c) = Some scene ->
    (truthy (or_else promptOverride (Orchestrator.imagePrompt scene)) = false /\
     prompt = Rejected e) \/
    (image = Rejected e /\
     (truthy (or_else promptOverride (Orchestrator.imagePrompt scene)) = true \/
      exists p, prompt = Resolved p)) ->
    (exists before,
       Orchestrator.updates
         (Orchestrator.handleGenerateFirstFrame c target promptOverride prompt image)
       = before ++ [Orchestrator.FailFirstFrame target e]) /\
    (forall prev k s, prev !! k = Some s ->
       exists s',
         Orchestrator.apply (Orchestrator.FailFirstFrame target e) prev !! k = Some s' /\
         (Orchestrator.id s <> target -> s' = s) /\
         (Orchestrator.id s = target ->
            Orchestrator.imageStatus s' = Orchestrator.IError /\
            Orchestrator.imageErrorMessage s' = message e) /\
         Orchestrator.id s' = Orchestrator.id s /\
         Orchestrator.scriptSegment s' = Orchestrator.scriptSegment s /\
         Orchestrator.visualPrompt s' = Orchestrator.visualPrompt s /\
         Orchestrator.imagePrompt s' = Orchestrator.imagePrompt s /\
         Orchestrator.videoUrl s' = Orchestrator.videoUrl s /\
         Orchestrator.styleReferenceImage s' = Orchestrator.styleReferenceImage s /\
         Orchestrator.generatedImage s' = Orchestrator.generatedImage s /\
         Orchestrator.status s' = Orchestrator.status s /\
         Orchestrator.errorMessage s' = Orchestrator.errorMessage s /\
         Orchestrator.aspectRatio s' = Orchestrator.aspectRatio s) /\
    (forall u prev k s,
       u ∈ Orchestrator.updates
             (Orchestrator.handleGenerateFirstFrame c target promptOverride prompt image) ->
       prev !! k = Some s ->
       exists s', Orchestrator.apply u prev !! k = Some s' /\
                  Orchestrator.generatedImage s' = Orchestrator.generatedImage s) /\
    (forall prev k s, prev !! k = Some s ->
       exists s',
         foldl (fun l u => Orchestrator.apply u l) prev
           (Orchestrator.updates
              (Orchestrator.handleGenerateFirstFrame c target promptOverride prompt image))
           !! k = Some s' /\
         (Orchestrator.id s <> target -> s' = s) /\
         (Orchestrator.id s = target ->
            Orchestrator.imageStatus s' = Orchestrator.IError /\
            Orchestrator.imageErrorMessage s' = message e) /\
         Orchestrator.id s' = Orchestrator.id s /\
         Orchestrator.scriptSegment s' = Orchestrator.scriptSegment s /\
         Orchestrator.videoUrl s' = Orchestrator.videoUrl s /\
         Orchestrator.styleReferenceImage s' = Orchestrator.styleReferenceImage s /\
         Orchestrator.generatedImage s' = Orchestrator.generatedImage s /\
         Orchestrator.status s' = Orchestrator.status s /\
         Orchestrator.errorMessage s' = Orchestrator.errorMessage s /\
         Orchestrator.aspectRatio s' = Orchestrator.aspectRatio s /\
         (truthy (or_else promptOverride (Orchestrator.imagePrompt scene)) = true \/
          (exists e', prompt = Rejected e') ->
          Orchestrator.visualPrompt s' = Orchestrator.visualPrompt s /\
          Orchestrator.imagePrompt s' = Orchestrator.imagePrompt s) /\
         (forall p,
            Orchestrator.id s = target ->
            truthy (or_else promptOverride (Orchestrator.imagePrompt scene)) = false ->
            prompt = Resolved p ->
            Orchestrator.visualPrompt s' = Orchestrator.visualPrompt scene /\
            Orchestrator.imagePrompt s' = Some p)).
Proof.
  intros c target promptOverride prompt image e scene Hfind Hfail.
  pose proof (first_frame_failure_updates c target promptOverride prompt image e
                scene Hfind Hfail) as Hupdates.
  split; [|split; [|split]].
  - destruct Hupdates as [-> | [p ->]].
    + by exists [Orchestrator.StartFirstFrame target].
    + by exists [Orchestrator.StartFirstFrame target;
                 Orchestrator.UpdatePrompt target (Orchestrator.visualPrompt scene) (Some p)].
  - intros prev k s Hk. simpl. rewrite map_id_lookup, Hk. simpl.
    eexists. split; [done|].
    destruct (String.eqb_spec (Orchestrator.id s) target); simpl;
      repeat split; congruence.
  - intros u prev k s Hu Hk.
    assert (Hcases : u = Orchestrator.StartFirstFrame target \/
                     u = Orchestrator.FailFirstFrame target e \/
                     exists p, u = Orchestrator.UpdatePrompt target
                                     (Orchestrator.visualPrompt scene) (Some p)).
    { destruct Hupdates as [Heq | [p Heq]]; rewrite Heq in Hu;
        rewrite !elem_of_cons, elem_of_nil in Hu.
      - destruct Hu as [->|[->|[]]]; auto.
      - destruct Hu as [->|[->|[->|[]]]]; eauto. }
    destruct Hcases as [-> | [-> | [p ->]]]; simpl;
      rewrite map_id_lookup, Hk; simpl; eexists; (split; [done|]);
      by destruct (String.eqb (Orchestrator.id s) target).
  - intros prev k s Hk.
    destruct Hupdates as [Heq | [p Heq]].
    + assert (Hstored : forall p,
                truthy (or_else promptOverride (Orchestrator.imagePrompt scene))
                = false -> prompt = Resolved p -> False).
      { intros p Hno Hp. unfold Orchestrator.handleGenerateFirstFrame in Heq.
        rewrite Hfind, Hno, Hp in Heq. by destruct image. }
      rewrite Heq. cbn [foldl Orchestrator.apply]. rewrite !map_id_lookup, Hk. simpl.
      eexists. split; [done|].
      destruct (String.eqb (Orchestrator.id s) target) eqn:Hb; simpl;
        rewrite ?Hb; simpl;
        [apply String.eqb_eq in Hb | apply String.eqb_neq in Hb];
        (split; [intros; congruence|]); (split; [intros; done|]);
        do 8 (split; [reflexivity|]);
        (split; [by intros _ | intros p _ Hno Hp; destruct (Hstored p Hno Hp)]).
    + rewrite Heq. cbn [foldl Orchestrator.apply]. rewrite !map_id_lookup, Hk. simpl.
      eexists. split; [done|].
      assert (Hlazy : truthy (or_else promptOverride (Orchestrator.imagePrompt scene))
                      = false /\ prompt = Resolved p).
      { unfold Orchestrator.handleGenerateFirstFrame in Heq. rewrite Hfind in Heq.
        destruct (truthy (or_else promptOverride (Orchestrator.imagePrompt scene)));
          [by destruct image|].
        destruct prompt as [p'|e']; [|done].
        destruct image; simpl in Heq; inversion Heq; done. }
      destruct Hlazy as [Hno Hprompt].
      destruct (String.eqb (Orchestrator.id s) target) eqn:Hb; simpl;
        rewrite ?Hb; simpl; rewrite ?Hb; simpl;
        [apply String.eqb_eq in Hb | apply String.eqb_neq in Hb];
        (split; [intros; congruence|]); (split; [intros; done|]);
        do 8 (split; [reflexivity|]);
        (split; [intros [Hyes|[e' He']]; congruence|]);
        intros p0 Hid0 _ Hp0; [|congruence].
      rewrite Hprompt in Hp0. inversion Hp0. by subst p0.
Qed.

(** A shot with a start frame and a prompt, whose regeneration fails. *)
Lemma first_frame_failure_records_error_witness :
  exists s',
    Orchestrator.apply (Orchestrator.FailFirstFrame "a" (Error "API 未返回图像数据"))
      [Orchestrator.image_completed "data:old" (Orchestrator.added_scene "a")] !! 0%nat
    = Some s' /\
    Orchestrator.imageStatus s' = Orchestrator.IError /\
    Orchestrator.imageErrorMessage s' = Some "API 未返回图像数据" /\
    Orchestrator.generatedImage s' = Some "data:old".
Proof.
  destruct (proj1 (proj2 (first_frame_failure_records_error
    {| Orchestrator.mode := Orchestrator.Single;
       Orchestrator.scenes :=
         [Orchestrator.image_completed "data:old" (Orchestrator.added_scene "a")];
       Orchestrator.selectedAspectRatio := Orchestrator.R16_9;
       Orchestrator.selectedStyle := ""; Orchestrator.selectedEra := "";
       Orchestrator.selectedEthnicity := "";
       Orchestrator.globalReferenceImage := None |}
    "a" (Some "a castle at dawn") (Resolved "unused")
    (Rejected (Error "API 未返回图像数据")) (Error "API 未返回图像数据")
    (Orchestrator.image_completed "data:old" (Orchestrator.added_scene "a"))
    eq_refl (or_intror (conj eq_refl (or_introl eq_refl)))))
    [Orchestrator.image_completed "data:old" (Orchestrator.added_scene "a")]
    0%nat (Orchestrator.image_completed "data:old" (Orchestrator.added_scene "a"))
    eq_refl)
    as (s' & Hs' & _ & Htarget & _ & _ & _ & _ & _ & _ & Himage & _).
  exists s'. destruct (Htarget eq_refl) as [Hstatus Hmessage].
  split; [exact Hs'|]. split; [exact Hstatus|]. split; [exact Hmessage | exact Himage].
Defined.

(** C9, as the specification states it, fails on a request that had to
    generate the first-frame prompt before the image generation failed:
    the shot ends in image state error with the message of the error, and
    its image prompt, empty before, is the generated prompt. *)
Lemma first_frame_failure_stores_generated_prompt :
  Orchestrator.imagePrompt (Orchestrator.added_scene "a") = None /\
  exists s',
    foldl (fun l u => Orchestrator.apply u l) [Orchestrator.added_scene "a"]
      (Orchestrator.updates
         (Orchestrator.handleGenerateFirstFrame
            {| Orchestrator.mode := Orchestrator.Single;
               Orchestrator.scenes := [Orchestrator.added_scene "a"];
               Orchestrator.selectedAspectRatio := Orchestrator.R16_9;
               Orchestrator.selectedStyle := ""; Orchestrator.selectedEra := "";
               Orchestrator.selectedEthnicity := "";
               Orchestrator.globalReferenceImage := None |}
            "a" None (Resolved "a street at dawn")
            (Rejected (Error "API 未返回图像数据")))) !! 0%nat = Some s' /\
    Orchestrator.imageStatus s' = Orchestrator.IError /\
    Orchestrator.imageErrorMessage s' = Some "API 未返回图像数据" /\
    Orchestrator.imagePrompt s' = Some "a street at dawn".
Proof.
  split; [reflexivity|]. eexists. split; [reflexivity|].
  split; [reflexivity|]. split; reflexivity.
Qed.

(** ** The session: what is reachable *)

Section SessionFacts.
Import Orchestrator.

Lemma nodup_fmap_inj {A B : Type} (f : A -> B) (l : list A) x y :
  NoDup (f <$> l) -> x ∈ l -> y ∈ l -> f x = f y -> x = y.
Proof.
  intros Hnd Hx Hy Hf.
  apply list_elem_of_lookup in Hx as [i Hi]. apply list_elem_of_lookup in Hy as [j Hj].
  assert (Hi' : (f <$> l) !! i = Some (f x)) by (by rewrite list_lookup_fmap, Hi).
  assert (Hj' : (f <$> l) !! j = Some (f x)) by (by rewrite list_lookup_fmap, Hj, Hf).
  pose proof (NoDup_lookup _ _ _ _ Hnd Hi' Hj') as Hij. subst j. congruence.
Qed.

(** An update of a handler keeps the ids, position by position. *)
Lemma apply_ids u prev :
  handler_update u -> id <$> apply u prev = id <$> prev.
Proof.
  intros Hu. apply list_eq. intros k. rewrite !list_lookup_fmap.
  destruct (prev !! k) as [s|] eqn:Hk.
  - destruct (apply_scene_step u prev k s Hu Hk) as (s' & -> & Hstep).
    simpl. f_equal. by eapply scene_step_id.
  - apply lookup_ge_None in Hk.
    rewrite (proj2 (lookup_ge_None _ _)); [done|].
    by rewrite apply_length.
Qed.

Lemma apply_member u prev s' :
  handler_update u -> s' ∈ apply u prev ->
  exists s, s ∈ prev /\ scene_step u s s'.
Proof.
  intros Hu Hs'. apply list_elem_of_lookup in Hs' as [k Hk].
  assert (Hlt : (k < length prev)%nat).
  { apply lookup_lt_Some in Hk. by rewrite apply_length in Hk. }
  destruct (lookup_lt_is_Some_2 prev k Hlt) as [s Hs].
  destruct (apply_scene_step u prev k s Hu Hs) as (s'' & Hs'' & Hstep).
  exists s. split; [by eapply list_elem_of_lookup_2|]. congruence.
Qed.

(** With ids that are not repeated, the shot with a given id after an
    update is the updated shot with that id. *)
Lemma apply_same_id u prev s s' :
  NoDup (id <$> prev) -> handler_update u ->
  s ∈ prev -> s' ∈ apply u prev -> id s = id s' -> scene_step u s s'.
Proof.
  intros Hnd Hu Hs Hs' Hid.
  destruct (apply_member u prev s' Hu Hs') as (s0 & Hs0 & Hstep).
  assert (id s0 = id s) by (rewrite Hid; symmetry; by eapply scene_step_id).
  by rewrite <- (nodup_fmap_inj id prev s0 s Hnd Hs0 Hs).
Qed.

(** How one update moves the two state fields of a shot. *)
Lemma scene_step_status u s s' :
  handler_update u -> scene_step u s s' ->
  status s' = status s \/ status s' = VGenerating \/
  (settles_video u = Some (id s) /\ (status s' = VCompleted \/ status s' = VError)).
Proof.
  destruct u; simpl; try done; intros _ H;
    try (subst; destruct (String.eqb_spec (id s) target); simpl; subst;
         by eauto 6).
  destruct H as [->|[_ ->]]; auto.
Qed.

Lemma scene_step_imageStatus u s s' :
  handler_update u -> scene_step u s s' ->
  imageStatus s' = imageStatus s \/ imageStatus s' = IGenerating \/
  (settles_image u = Some (id s) /\
   (imageStatus s' = ICompleted \/ imageStatus s' = IError)) \/
  (slot_empty s = true /\ imageStatus s' = ICompleted /\
   exists lastFrame, s' = frame_inherited lastFrame s).
Proof.
  destruct u; simpl; try done; intros _ H;
    try (subst; destruct (String.eqb_spec (id s) target); simpl; subst;
         by eauto 6).
  destruct H as [->|[Hempty ->]]; [auto|].
  right. right. right. eauto.
Qed.

(** No update brings a state back to idle. *)
Lemma scene_step_leaves_idle u s s' :
  handler_update u -> scene_step u s s' ->
  (status s <> VIdle -> status s' <> VIdle) /\
  (imageStatus s <> IIdle -> imageStatus s' <> IIdle).
Proof.
  intros Hu Hstep.
  destruct (scene_step_status u s s' Hu Hstep) as [->|[->|[_ [->| ->]]]];
  destruct (scene_step_imageStatus u s s' Hu Hstep)
    as [->|[->|[[_ [->| ->]]|(_ & -> & _)]]]; done.
Qed.
End SessionFacts.

Section InvariantFacts.
Import Orchestrator.

Lemma initial_invariant : invariant initial.
Proof.
  split; simpl; try (intros; by apply NoDup_nil_2);
    intros *; rewrite elem_of_nil; done.
Qed.

(** An update of a handler applied to the state, with the calls in
    flight replaced by [running]. *)
Lemma handler_update_invariant x u running :
  invariant x -> handler_update u ->
  (forall q v, q ∈ running -> v ∈ q -> handler_update v) ->
  (forall q v target, q ∈ running -> v ∈ q -> settles_video v = Some target ->
     target ∈ issued x /\
     forall s', s' ∈ apply u (current x) -> id s' = target -> status s' <> VIdle) ->
  (forall q v target, q ∈ running -> v ∈ q -> settles_image v = Some target ->
     target ∈ issued x /\
     forall s', s' ∈ apply u (current x) -> id s' = target -> imageStatus s' <> IIdle) ->
  invariant (set_inflight (set_current x u) running).
Proof.
  intros Hinv Hu Hhandler Hvideo Himage. split; simpl.
  - intros s' Hs'. destruct (apply_member u _ s' Hu Hs') as (s & Hs & Hstep).
    rewrite (scene_step_id u s s' Hstep). by apply (current_issued x Hinv).
  - apply (rendered_issued x Hinv).
  - rewrite apply_ids by done. apply (current_nodup x Hinv).
  - exact Hhandler.
  - exact Hvideo.
  - exact Himage.
Qed.

(** A state that has left idle stays out of it under an update. *)
Lemma apply_leaves_idle u prev target :
  handler_update u ->
  ((forall s, s ∈ prev -> id s = target -> status s <> VIdle) ->
   forall s', s' ∈ apply u prev -> id s' = target -> status s' <> VIdle) /\
  ((forall s, s ∈ prev -> id s = target -> imageStatus s <> IIdle) ->
   forall s', s' ∈ apply u prev -> id s' = target -> imageStatus s' <> IIdle).
Proof.
  intros Hu. split; intros Hprev s' Hs' Hid;
    destruct (apply_member u prev s' Hu Hs') as (s & Hs & Hstep);
    pose proof (scene_step_id u s s' Hstep) as Hsame;
    apply (scene_step_leaves_idle u s s' Hu Hstep);
    apply Hprev; congruence.
Qed.

(** The updates of the two handlers: the start, then updates on the same
    shot, which are there only if the handler found the shot. *)
Lemma handleGenerateVideo_shape c target promptOverride video extraction :
  exists rest,
    updates (handleGenerateVideo c target promptOverride video extraction)
    = StartVideo target promptOverride :: rest /\
    (forall v, v ∈ rest ->
       handler_update v /\ settles_image v = None /\
       (settles_video v = None \/ settles_video v = Some target) /\
       exists scene, find target (scenes c) = Some scene).
Proof.
  unfold handleGenerateVideo.
  destruct (find target (scenes c)) as [scene|] eqn:Hfind.
  2:{ exists []. split; [done|]. intros v Hv. by apply elem_of_nil in Hv. }
  assert (Hgood : forall l,
    Forall (fun v => handler_update v /\ settles_image v = None /\
              (settles_video v = None \/ settles_video v = Some target)) l ->
    forall v, v ∈ l ->
      handler_update v /\ settles_image v = None /\
      (settles_video v = None \/ settles_video v = Some target) /\
      exists scene0 : Scene, Some scene = Some scene0).
  { intros l Hl v Hv. rewrite Forall_forall in Hl.
    destruct (Hl v Hv) as (? & ? & ?). eauto 6. }
  destruct video as [url|e]; simpl.
  2:{ eexists. split; [done|]. apply Hgood; shape_forall. }
  destruct (findIndex target (scenes c)) as [idx|]; simpl.
  2:{ eexists. split; [done|]. apply Hgood; shape_forall. }
  destruct (bool_decide (mode c = Single) && Nat.ltb (idx + 1) (length (scenes c))).
  2:{ eexists. split; [done|]. apply Hgood; shape_forall. }
  destruct (scenes c !! (idx + 1)%nat) as [next|].
  2:{ eexists. split; [done|]. apply Hgood; shape_forall. }
  destruct (slot_empty next).
  2:{ eexists. split; [done|]. apply Hgood; shape_forall. }
  destruct extraction as [lastFrame|e];
    (eexists; split; [done|]; apply Hgood; shape_forall).
Qed.

Lemma handleGenerateFirstFrame_shape c target promptOverride prompt image :
  exists rest,
    updates (handleGenerateFirstFrame c target promptOverride prompt image)
    = StartFirstFrame target :: rest /\
    (forall v, v ∈ rest ->
       handler_update v /\ settles_video v = None /\
       (settles_image v = None \/ settles_image v = Some target) /\
       exists scene, find target (scenes c) = Some scene).
Proof.
  unfold handleGenerateFirstFrame.
  destruct (find target (scenes c)) as [scene|] eqn:Hfind.
  2:{ exists []. split; [done|]. intros v Hv. by apply elem_of_nil in Hv. }
  assert (Hgood : forall l,
    Forall (fun v => handler_update v /\ settles_video v = None /\
              (settles_image v = None \/ settles_image v = Some target)) l ->
    forall v, v ∈ l ->
      handler_update v /\ settles_video v = None /\
      (settles_image v = None \/ settles_image v = Some target) /\
      exists scene0 : Scene, Some scene = Some scene0).
  { intros l Hl v Hv. rewrite Forall_forall in Hl.
    destruct (Hl v Hv) as (? & ? & ?). eauto 6. }
  destruct (truthy (or_else promptOverride (imagePrompt scene))).
  - destruct image as [imageUrl|e]; simpl;
      (eexists; split; [done|]; apply Hgood; shape_forall).
  - destruct prompt as [p|e]; simpl.
    + destruct image as [imageUrl|e]; simpl;
        (eexists; split; [done|]; apply Hgood; shape_forall).
    + eexists. split; [done|]. apply Hgood; shape_forall.
Qed.

Lemma find_member target l scene :
  find target l = Some scene -> scene ∈ l /\ id scene = target.
Proof.
  intros H. destruct (find_findIndex target l scene H) as (idx & _ & Hidx & Hid).
  split; [by eapply list_elem_of_lookup_2 | done].
Qed.

Lemma map_id_member target f prev s' :
  s' ∈ map_id target f prev -> id s' = target ->
  (forall s, id (f s) = id s) ->
  exists s, s ∈ prev /\ id s = target /\ s' = f s.
Proof.
  unfold map_id. intros Hs' Hid Hf.
  apply list_elem_of_fmap in Hs' as (s & -> & Hs).
  destruct (String.eqb_spec (id s) target) as [Heq|Hne].
  - eauto.
  - contradiction.
Qed.
End InvariantFacts.

Section StepFacts.
Import Orchestrator.

(** The calls in flight shrink: every update still to come was to come
    before. *)
Lemma shrink_invariant x u running :
  invariant x -> handler_update u ->
  (forall q v, q ∈ running -> v ∈ q -> exists q0, q0 ∈ inflight x /\ v ∈ q0) ->
  invariant (set_inflight (set_current x u) running).
Proof.
  intros Hinv Hu Hold. apply handler_update_invariant; [done | done | | |].
  - intros q v Hq Hv. destruct (Hold q v Hq Hv) as (q0 & Hq0 & Hv0).
    by apply (inflight_handler x Hinv q0 v).
  - intros q v target Hq Hv Hsettles.
    destruct (Hold q v Hq Hv) as (q0 & Hq0 & Hv0).
    destruct (inflight_video x Hinv q0 v target Hq0 Hv0 Hsettles) as [Hissued Hleft].
    split; [done|]. by apply (apply_leaves_idle u (current x) target Hu).
  - intros q v target Hq Hv Hsettles.
    destruct (Hold q v Hq Hv) as (q0 & Hq0 & Hv0).
    destruct (inflight_image x Hinv q0 v target Hq0 Hv0 Hsettles) as [Hissued Hleft].
    split; [done|]. by apply (apply_leaves_idle u (current x) target Hu).
Qed.

(** A handler is called. *)
Lemma launch_video_invariant x c target promptOverride video extraction :
  invariant x -> scenes c = rendered x ->
  invariant (launch x (updates
    (handleGenerateVideo c target promptOverride video extraction))).
Proof.
  intros Hinv Hc.
  destruct (handleGenerateVideo_shape c target promptOverride video extraction)
    as (rest & -> & Hrest).
  simpl. apply handler_update_invariant; [done | done | | |].
  - intros q v Hq Hv. apply elem_of_cons in Hq as [->|Hq].
    + by apply Hrest.
    + by apply (inflight_handler x Hinv q v).
  - intros q v t Hq Hv Hsettles. apply elem_of_cons in Hq as [->|Hq].
    + destruct (Hrest v Hv) as (_ & _ & Hvideo & scene & Hfind).
      assert (t = target) by (destruct Hvideo; congruence). subst t.
      rewrite Hc in Hfind. apply find_member in Hfind as [Hmember Hid].
      split; [rewrite <- Hid; by apply (rendered_issued x Hinv)|].
      intros s' Hs' Hid'. simpl in Hs'.
      destruct (map_id_member target _ _ s' Hs' Hid' ltac:(done))
        as (s & _ & _ & ->). done.
    + destruct (inflight_video x Hinv q v t Hq Hv Hsettles) as [Hissued Hleft].
      split; [done|].
      by apply (apply_leaves_idle (StartVideo target promptOverride) (current x) t).
  - intros q v t Hq Hv Hsettles. apply elem_of_cons in Hq as [->|Hq].
    + destruct (Hrest v Hv) as (_ & Hnone & _). congruence.
    + destruct (inflight_image x Hinv q v t Hq Hv Hsettles) as [Hissued Hleft].
      split; [done|].
      by apply (apply_leaves_idle (StartVideo target promptOverride) (current x) t).
Qed.

Lemma launch_first_frame_invariant x c target promptOverride prompt image :
  invariant x -> scenes c = rendered x ->
  invariant (launch x (updates
    (handleGenerateFirstFrame c target promptOverride prompt image))).
Proof.
  intros Hinv Hc.
  destruct (handleGenerateFirstFrame_shape c target promptOverride prompt image)
    as (rest & -> & Hrest).
  simpl. apply handler_update_invariant; [done | done | | |].
  - intros q v Hq Hv. apply elem_of_cons in Hq as [->|Hq].
    + by apply Hrest.
    + by apply (inflight_handler x Hinv q v).
  - intros q v t Hq Hv Hsettles. apply elem_of_cons in Hq as [->|Hq].
    + destruct (Hrest v Hv) as (_ & Hnone & _). congruence.
    + destruct (inflight_video x Hinv q v t Hq Hv Hsettles) as [Hissued Hleft].
      split; [done|].
      by apply (apply_leaves_idle (StartFirstFrame target) (current x) t).
  - intros q v t Hq Hv Hsettles. apply elem_of_cons in Hq as [->|Hq].
    + destruct (Hrest v Hv) as (_ & _ & Himage & scene & Hfind).
      assert (t = target) by (destruct Himage; congruence). subst t.
      rewrite Hc in Hfind. apply find_member in Hfind as [Hmember Hid].
      split; [rewrite <- Hid; by apply (rendered_issued x Hinv)|].
      intros s' Hs' Hid'. simpl in Hs'.
      destruct (map_id_member target _ _ s' Hs' Hid' ltac:(done))
        as (s & _ & _ & ->). done.
    + destruct (inflight_image x Hinv q v t Hq Hv Hsettles) as [Hissued Hleft].
      split; [done|].
      by apply (apply_leaves_idle (StartFirstFrame target) (current x) t).
Qed.

(** Shots with ids that were never issued join or replace the state. *)
Lemma fresh_scenes_invariant x kept fresh :
  invariant x -> kept = current x \/ kept = [] ->
  NoDup (id <$> fresh) ->
  (forall s, s ∈ fresh -> id s ∉ issued x) ->
  invariant {| current := kept ++ fresh; currentMode := currentMode x;
               rendered := rendered x; renderedMode := renderedMode x;
               inflight := inflight x;
               issued := (id <$> fresh) ++ issued x |}.
Proof.
  intros Hinv Hkept Hnd Hfresh.
  assert (Hkept_in : forall s, s ∈ kept -> s ∈ current x).
  { intros s Hs. destruct Hkept as [->| ->]; [done | by apply elem_of_nil in Hs]. }
  assert (Hkept_nd : NoDup (id <$> kept)).
  { destruct Hkept as [->| ->]; [apply (current_nodup x Hinv) | apply NoDup_nil_2]. }
  split; simpl.
  - intros s Hs. apply elem_of_app. apply elem_of_app in Hs as [Hs|Hs].
    + right. apply (current_issued x Hinv). by apply Hkept_in.
    + left. apply list_elem_of_fmap. eauto.
  - intros s Hs. apply elem_of_app. right. by apply (rendered_issued x Hinv).
  - rewrite fmap_app. apply NoDup_app. split; [done|]. split; [|done].
    intros i Hi Hi'. apply list_elem_of_fmap in Hi as (s & -> & Hs).
    apply list_elem_of_fmap in Hi' as (s' & Heq & Hs').
    apply (Hfresh s' Hs'). rewrite <- Heq.
    apply (current_issued x Hinv). by apply Hkept_in.
  - apply (inflight_handler x Hinv).
  - intros q v target Hq Hv Hsettles.
    destruct (inflight_video x Hinv q v target Hq Hv Hsettles) as [Hissued Hleft].
    split; [apply elem_of_app; by right|].
    intros s Hs Hid. apply elem_of_app in Hs as [Hs|Hs].
    + apply Hleft; [by apply Hkept_in | done].
    + exfalso. apply (Hfresh s Hs). by rewrite Hid.
  - intros q v target Hq Hv Hsettles.
    destruct (inflight_image x Hinv q v target Hq Hv Hsettles) as [Hissued Hleft].
    split; [apply elem_of_app; by right|].
    intros s Hs Hid. apply elem_of_app in Hs as [Hs|Hs].
    + apply Hleft; [by apply Hkept_in | done].
    + exfalso. apply (Hfresh s Hs). by rewrite Hid.
Qed.

Lemma step_invariant x y : invariant x -> step x y -> invariant y.
Proof.
  intros Hinv Hstep. destruct Hstep.
  - destruct Hinv. split; simpl; auto.
  - by apply launch_video_invariant.
  - by apply launch_first_frame_invariant.
  - assert (Hq : (u :: rest) ∈ inflight x).
    { rewrite H. apply elem_of_app. right. apply elem_of_cons. by left. }
    apply shrink_invariant; [done | | ].
    + apply (inflight_handler x Hinv (u :: rest) u Hq). apply elem_of_cons. by left.
    + intros q v Hq' Hv. apply elem_of_app in Hq' as [Hq'|Hq'].
      * exists q. split; [|done]. rewrite H. apply elem_of_app. by left.
      * apply elem_of_cons in Hq' as [->|Hq'].
        -- exists (u :: rest). split; [done|]. apply elem_of_cons. by right.
        -- exists q. split; [|done]. rewrite H. apply elem_of_app. right.
           apply elem_of_cons. by right.
  - change (invariant (set_inflight
              (set_current x (handleUpdatePrompt target v i)) (inflight x))).
    apply shrink_invariant; [done | done | eauto].
  - pose proof (fresh_scenes_invariant x (current x) [added_scene newId] Hinv
                  (or_introl eq_refl)) as Hadd.
    apply Hadd; [apply NoDup_singleton|].
    intros s Hs. apply list_elem_of_singleton in Hs. by subst s.
  - pose proof (fresh_scenes_invariant x [] fresh Hinv (or_intror eq_refl)) as Hnew.
    by apply Hnew.
  - pose proof (fresh_scenes_invariant x [] [] Hinv (or_intror eq_refl)) as Hnone.
    destruct Hnone; [apply NoDup_nil_2 | intros s Hs; by apply elem_of_nil in Hs |].
    split; simpl in *; auto.
Qed.

Lemma reachable_invariant x : reachable x -> invariant x.
Proof.
  induction 1 as [|x y _ IH Hstep]; [apply initial_invariant|].
  by eapply step_invariant.
Qed.
End StepFacts.

Section MoveFacts.
Import Orchestrator.

(** One update applied to a state with the invariant: how the shot with
    a given id moves.  Completion and failure come after the start of
    the same call, so they find the state out of idle. *)
Lemma update_moves x u s s' :
  invariant x -> handler_update u ->
  (forall target, settles_video u = Some target ->
     forall s0, s0 ∈ current x -> id s0 = target -> status s0 <> VIdle) ->
  (forall target, settles_image u = Some target ->
     forall s0, s0 ∈ current x -> id s0 = target -> imageStatus s0 <> IIdle) ->
  s ∈ current x -> s' ∈ apply u (current x) -> id s = id s' ->
  video_move (status s) (status s') /\
  (image_move (imageStatus s) (imageStatus s') \/
   (slot_empty s = true /\ imageStatus s' = ICompleted /\
    exists lastFrame, s' = frame_inherited lastFrame s)).
Proof.
  intros Hinv Hu Hvideo Himage Hs Hs' Hid.
  pose proof (apply_same_id u (current x) s s' (current_nodup x Hinv) Hu Hs Hs' Hid)
    as Hstep.
  split.
  - destruct (scene_step_status u s s' Hu Hstep) as [->|[->|[Hsettles Hend]]].
    + by left.
    + right. by left.
    + right. right. split; [|done]. by apply (Hvideo (id s)).
  - destruct (scene_step_imageStatus u s s' Hu Hstep)
      as [->|[->|[[Hsettles Hend]|Hinherit]]].
    + left. by left.
    + left. right. by left.
    + left. right. right. split; [|done]. by apply (Himage (id s)).
    + by right.
Qed.

Lemma same_state_moves (l : list Scene) s s' :
  NoDup (id <$> l) -> s ∈ l -> s' ∈ l -> id s = id s' ->
  video_move (status s) (status s') /\
  (image_move (imageStatus s) (imageStatus s') \/
   (slot_empty s = true /\ imageStatus s' = ICompleted /\
    exists lastFrame, s' = frame_inherited lastFrame s)).
Proof.
  intros Hnd Hs Hs' Hid.
  rewrite (nodup_fmap_inj id l s s' Hnd Hs Hs' Hid).
  split; [by left | left; by left].
Qed.
End MoveFacts.

(** How the states of a shot move in one step from a reachable
    session. *)
Lemma step_moves :
  forall x y : Orchestrator.Session,
    Orchestrator.reachable x -> Orchestrator.step x y ->
    forall s s' : Orchestrator.Scene,
      s ∈ Orchestrator.current x -> s' ∈ Orchestrator.current y ->
      Orchestrator.id s = Orchestrator.id s' ->
      Orchestrator.video_move (Orchestrator.status s) (Orchestrator.status s') /\
      (Orchestrator.image_move (Orchestrator.imageStatus s) (Orchestrator.imageStatus s') \/
       (Orchestrator.slot_empty s = true /\
        Orchestrator.imageStatus s' = Orchestrator.ICompleted /\
        exists lastFrame, s' = Orchestrator.frame_inherited lastFrame s)).
Proof.
  intros x y Hreach Hstep s s' Hs Hs' Hid.
  pose proof (reachable_invariant x Hreach) as Hinv.
  destruct Hstep; simpl in Hs'.
  - by apply (same_state_moves (Orchestrator.current x) s s'
                (Orchestrator.current_nodup x Hinv)).
  - destruct (handleGenerateVideo_shape
                (Orchestrator.closure_of x ratio style era ethnicity reference)
                target override video extraction) as (rest & Heq & _).
    rewrite Heq in Hs'. simpl in Hs'.
    by apply (update_moves x (Orchestrator.StartVideo target override) s s').
  - destruct (handleGenerateFirstFrame_shape
                (Orchestrator.closure_of x ratio style era ethnicity reference)
                target override prompt image) as (rest & Heq & _).
    rewrite Heq in Hs'. simpl in Hs'.
    by apply (update_moves x (Orchestrator.StartFirstFrame target) s s').
  - assert (Hq : (u :: rest) ∈ Orchestrator.inflight x).
    { rewrite H. apply elem_of_app. right. apply elem_of_cons. by left. }
    assert (Hu : u ∈ u :: rest) by (apply elem_of_cons; by left).
    apply (update_moves x u s s'); try done.
    + by apply (Orchestrator.inflight_handler x Hinv (u :: rest) u).
    + intros t Ht. by apply (Orchestrator.inflight_video x Hinv (u :: rest) u t).
    + intros t Ht. by apply (Orchestrator.inflight_image x Hinv (u :: rest) u t).
  - by apply (update_moves x (Orchestrator.handleUpdatePrompt target v i) s s').
  - apply elem_of_app in Hs' as [Hs'|Hs'].
    + by apply (same_state_moves (Orchestrator.current x) s s'
                  (Orchestrator.current_nodup x Hinv)).
    + apply list_elem_of_singleton in Hs'. subst s'. simpl in Hid. exfalso.
      apply H. rewrite <- Hid. by apply (Orchestrator.current_issued x Hinv).
  - exfalso. apply (H1 s' Hs'). rewrite <- Hid.
    by apply (Orchestrator.current_issued x Hinv).
  - by apply elem_of_nil in Hs'.
Qed.

(** C2, as amended.  In every step from a reachable session, a shot that
    is in the sequence before and after has, for each of the two states,
    one of the four values, and: the state is unchanged, or it becomes
    generating (from any state, so also again after completed or error),
    or it becomes completed or error from a state other than idle; in
    addition the image state becomes completed, from any state, when the
    continuity write puts a frame into the empty slot of the shot.  No
    state goes back to idle, and none leaves idle for error, nor the
    video state for completed. *)
Theorem states_never_return_to_idle :
  forall x y : Orchestrator.Session,
    Orchestrator.reachable x -> Orchestrator.step x y ->
    forall s s' : Orchestrator.Scene,
      s ∈ Orchestrator.current x -> s' ∈ Orchestrator.current y ->
      Orchestrator.id s = Orchestrator.id s' ->
      Orchestrator.status s' ∈ [Orchestrator.VIdle; Orchestrator.VGenerating;
                                Orchestrator.VCompleted; Orchestrator.VError] /\
      Orchestrator.imageStatus s' ∈ [Orchestrator.IIdle; Orchestrator.IGenerating;
                                     Orchestrator.ICompleted; Orchestrator.IError] /\
      Orchestrator.video_move (Orchestrator.status s) (Orchestrator.status s') /\
      (Orchestrator.image_move (Orchestrator.imageStatus s) (Orchestrator.imageStatus s') \/
       (Orchestrator.slot_empty s = true /\
        Orchestrator.imageStatus s' = Orchestrator.ICompleted /\
        exists lastFrame, s' = Orchestrator.frame_inherited lastFrame s)).
Proof.
  intros x y Hreach Hstep s s' Hs Hs' Hid.
  split; [destruct (Orchestrator.status s'); rewrite !elem_of_cons; auto 6|].
  split; [destruct (Orchestrator.imageStatus s'); rewrite !elem_of_cons; auto 6|].
  by apply (step_moves x y).
Qed.

Section Traces.
Import Orchestrator.

(** The shots made from a generated list, and the added shot, start idle,
    as [step_new_scenes] and [step_add] take them. *)
Lemma generated_scene_all_idle newId segment video_prompt image_prompt reference :
  all_idle (generated_scene newId segment video_prompt image_prompt reference).
Proof. by split. Qed.

Lemma two_shots_reachable : reachable two_shots.
Proof.
  pose (x1 := {| current := apply (SetScenes []) (current initial);
                 currentMode := Single;
                 rendered := rendered initial; renderedMode := renderedMode initial;
                 inflight := inflight initial; issued := issued initial |}).
  assert (R1 : reachable x1).
  { eapply reachable_step; [apply reachable_initial|].
    apply (step_mode_change initial Single). }
  pose (x2 := set_issued
                (set_current x1 (SetScenes [added_scene "a"; added_scene "b"]))
                ((id <$> [added_scene "a"; added_scene "b"]) ++ issued x1)).
  assert (R2 : reachable x2).
  { eapply reachable_step; [exact R1|].
    apply (step_new_scenes x1 [added_scene "a"; added_scene "b"]).
    - by repeat constructor.
    - simpl. apply NoDup_cons. split; [|apply NoDup_singleton].
      intros H. apply list_elem_of_singleton in H. discriminate.
    - intros s _. simpl. apply not_elem_of_nil. }
  eapply reachable_step; [exact R2|]. apply (step_render x2).
Qed.

Lemma video_done_reachable : reachable video_done.
Proof.
  eapply reachable_step.
  - eapply reachable_step; [apply two_shots_reachable|].
    apply (step_generate_video two_shots R16_9 "" "" "" None "a" None
             (Resolved "blob:video") (Resolved "data:frame")).
  - apply (step_settle video_running [] (CompleteVideo "a" "blob:video" R16_9)
             [ContinuityWrite "a" "data:frame"] []).
    reflexivity.
Qed.

Lemma frame_written_step : step video_done frame_written.
Proof.
  apply (step_settle video_done [] (ContinuityWrite "a" "data:frame") [] []).
  reflexivity.
Qed.

Lemma video_in_error_reachable : reachable video_in_error.
Proof.
  eapply reachable_step.
  - eapply reachable_step; [apply two_shots_reachable|].
    apply (step_generate_video two_shots R16_9 "" "" "" None "a" None
             (Rejected no_video_link) (Rejected no_video_link)).
  - apply (step_settle video_failing [] (FailVideo "a" no_video_link) [] []).
    reflexivity.
Qed.

Lemma video_retried_step : step video_in_error video_retried.
Proof.
  apply (step_generate_video video_in_error R16_9 "" "" "" None "a" None
           (Resolved "blob:video") (Resolved "data:frame")).
Qed.
End Traces.

(** The second shot when the video of the first is done, and after the
    frame has been written: its image state goes from idle to completed,
    as the amended C2 allows for an inherited frame. *)
Lemma states_never_return_to_idle_witness :
  Orchestrator.VIdle ∈ [Orchestrator.VIdle; Orchestrator.VGenerating;
                        Orchestrator.VCompleted; Orchestrator.VError] /\
  Orchestrator.ICompleted ∈ [Orchestrator.IIdle; Orchestrator.IGenerating;
                             Orchestrator.ICompleted; Orchestrator.IError] /\
  Orchestrator.video_move Orchestrator.VIdle Orchestrator.VIdle /\
  (Orchestrator.image_move Orchestrator.IIdle Orchestrator.ICompleted \/
   (Orchestrator.slot_empty (Orchestrator.added_scene "b") = true /\
    Orchestrator.imageStatus
      (Orchestrator.frame_inherited "data:frame" (Orchestrator.added_scene "b"))
    = Orchestrator.ICompleted /\
    exists lastFrame,
      Orchestrator.frame_inherited "data:frame" (Orchestrator.added_scene "b")
      = Orchestrator.frame_inherited lastFrame (Orchestrator.added_scene "b"))).
Proof.
  apply (states_never_return_to_idle Orchestrator.video_done Orchestrator.frame_written
           video_done_reachable frame_written_step
           (Orchestrator.added_scene "b")
           (Orchestrator.frame_inherited "data:frame" (Orchestrator.added_scene "b"))).
  - apply list_elem_of_In. vm_compute. right. left. reflexivity.
  - apply list_elem_of_In. vm_compute. right. left. reflexivity.
  - reflexivity.
Defined.

(** C2, as the specification states it, fails twice on reachable
    sessions: a video request made again after a failure moves the video
    state from error to generating, and the continuity write moves the
    image state of the next shot from idle to completed. *)
Lemma retry_and_continuity_leave_the_path :
  (exists s s',
     Orchestrator.reachable Orchestrator.video_in_error /\
     Orchestrator.step Orchestrator.video_in_error Orchestrator.video_retried /\
     s ∈ Orchestrator.current Orchestrator.video_in_error /\
     s' ∈ Orchestrator.current Orchestrator.video_retried /\
     Orchestrator.id s = Orchestrator.id s' /\
     Orchestrator.status s = Orchestrator.VError /\
     Orchestrator.status s' = Orchestrator.VGenerating /\
     ~ Orchestrator.video_path (Orchestrator.status s) (Orchestrator.status s')) /\
  (exists s s',
     Orchestrator.reachable Orchestrator.video_done /\
     Orchestrator.step Orchestrator.video_done Orchestrator.frame_written /\
     s ∈ Orchestrator.current Orchestrator.video_done /\
     s' ∈ Orchestrator.current Orchestrator.frame_written /\
     Orchestrator.id s = Orchestrator.id s' /\
     Orchestrator.imageStatus s = Orchestrator.IIdle /\
     Orchestrator.imageStatus s' = Orchestrator.ICompleted /\
     ~ Orchestrator.image_path (Orchestrator.imageStatus s)
         (Orchestrator.imageStatus s')).
Proof.
  split.
  - exists (Orchestrator.video_failed Orchestrator.no_video_link
              (Orchestrator.video_started None (Orchestrator.added_scene "a"))),
           (Orchestrator.video_started None
              (Orchestrator.video_failed Orchestrator.no_video_link
                 (Orchestrator.video_started None (Orchestrator.added_scene "a")))).
    split; [apply video_in_error_reachable|]. split; [apply video_retried_step|].
    split; [apply list_elem_of_In; vm_compute; left; reflexivity|].
    split; [apply list_elem_of_In; vm_compute; left; reflexivity|].
    split; [reflexivity|]. split; [reflexivity|]. split; [reflexivity|].
    simpl. intros [H|[[H _]|[H _]]]; discriminate.
  - exists (Orchestrator.added_scene "b"),
           (Orchestrator.frame_inherited "data:frame" (Orchestrator.added_scene "b")).
    split; [apply video_done_reachable|]. split; [apply frame_written_step|].
    split; [apply list_elem_of_In; vm_compute; right; left; reflexivity|].
    split; [apply list_elem_of_In; vm_compute; right; left; reflexivity|].
    split; [reflexivity|]. split; [reflexivity|]. split; [reflexivity|].
    simpl. intros [H|[[_ H]|[H _]]]; discriminate.
Qed.


(** * Further properties *)

(** ** RetryExecutor: bounds, exhaustion and what a run returns *)

Section RetryRuns.
Import Retry.
Context {T : Type}.
Variable fn : nat -> Outcome T.
Variable maxRetries baseDelay : Z.

(** A run of the loop entered at iteration [i] with [left >= 1] iterations
    to go, [i + left] being the bound: where it stops and what it found
    there. *)
Lemma attempts_run left : forall i lastError waited,
  (1 <= left)%nat ->
  Z.of_nat (i + left) = maxRetries ->
  let r := attempts fn maxRetries baseDelay left i lastError waited in
  (i < calls r <= i + left)%nat /\
  length (waits r) = (length waited + (calls r - 1 - i))%nat /\
  (forall j, (i <= j < calls r - 1)%nat ->
     exists e, fn j = Rejected e /\ isRetryable e = true) /\
  match settled r with
  | inr v => fn (calls r - 1)%nat = Resolved v
  | inl (ThrowError e) =>
      fn (calls r - 1)%nat = Rejected e /\
      (isRetryable e = false \/ calls r = (i + left)%nat)
  | inl ThrowUndefined => False
  end.
Proof.
  induction left as [|left IH]; intros i lastError waited Hleft Hbound; [lia|].
  cbn [attempts].
  destruct (fn i) as [v|e] eqn:Hfn.
  - cbn. rewrite ?Nat.sub_0_r.
    split; [lia|]. split; [lia|]. split; [intros j Hj; lia | done].
  - destruct (isRetryable e) eqn:Hre; cbn [andb].
    + destruct (Z.of_nat i <? maxRetries - 1) eqn:Hlt.
      * apply Z.ltb_lt in Hlt.
        destruct (IH (S i) (ThrowError e) (waited ++ [delay e baseDelay i])
                    ltac:(lia) ltac:(lia)) as (Hcalls & Hwaits & Hearlier & Hend).
        cbn zeta in *.
        set (r := attempts fn maxRetries baseDelay left (S i) (ThrowError e)
                    (waited ++ [delay e baseDelay i])) in *.
        split; [lia|]. split.
        { rewrite Hwaits, length_app. simpl. lia. }
        split.
        { intros j Hj. destruct (decide (j = i)) as [->|Hne]; [eauto|].
          apply Hearlier. lia. }
        destruct (settled r) as [[e'|]|v]; try done.
        destruct Hend as [Hlast Hwhy]. split; [done|].
        destruct Hwhy as [Hno|Hall]; [by left | right; lia].
      * apply Z.ltb_ge in Hlt. cbn. rewrite ?Nat.sub_0_r.
        split; [lia|]. split; [lia|]. split; [intros j Hj; lia|].
        split; [done | right; lia].
    + cbn. rewrite ?Nat.sub_0_r.
      split; [lia|]. split; [lia|]. split; [intros j Hj; lia|].
      split; [done | by left].
Qed.
End RetryRuns.

(** X1.  When every allowed attempt fails with a retryable error, the
    operation is invoked exactly [maxRetries] times, with a wait of
    [(e.code === 429 ? 5000 : baseDelay) * 2^j] after each attempt [j] but
    the last, and the error of the last attempt is thrown: a retryable
    error at the last allowed attempt is not retried. *)
Theorem withRetry_exhausts_the_bound :
  forall (T : Type) (fn : nat -> Outcome T) (maxRetries baseDelay : Z),
    1 <= maxRetries ->
    (forall j, Z.of_nat j < maxRetries ->
       exists e, fn j = Rejected e /\ Retry.isRetryable e = true) ->
    Retry.calls (Retry.withRetry fn maxRetries baseDelay) = Z.to_nat maxRetries /\
    (exists e, fn (Z.to_nat maxRetries - 1)%nat = Rejected e /\
       Retry.settled (Retry.withRetry fn maxRetries baseDelay) = inl (ThrowError e)) /\
    length (Retry.waits (Retry.withRetry fn maxRetries baseDelay))
    = (Z.to_nat maxRetries - 1)%nat /\
    (forall j, (j < Z.to_nat maxRetries - 1)%nat ->
       exists e, fn j = Rejected e /\
         Retry.waits (Retry.withRetry fn maxRetries baseDelay) !! j
         = Some (Retry.delay e baseDelay j)).
Proof.
  intros T fn maxRetries baseDelay Hpos Hall.
  destruct (attempts_run fn maxRetries baseDelay (Z.to_nat maxRetries) 0
              ThrowUndefined [] ltac:(lia) ltac:(lia))
    as (Hcalls & Hwaits & Hearlier & Hend).
  cbn zeta in *. fold (Retry.withRetry fn maxRetries baseDelay) in *.
  set (r := Retry.withRetry fn maxRetries baseDelay) in *.
  assert (Hn : Retry.calls r = Z.to_nat maxRetries).
  { destruct (Retry.settled r) as [[e|]|v]; [| done |].
    - destruct Hend as [Hlast [Hno|Hfull]]; [|lia].
      destruct (Hall (Retry.calls r - 1)%nat ltac:(lia)) as (e' & He' & Hre').
      congruence.
    - destruct (Hall (Retry.calls r - 1)%nat ltac:(lia)) as (e' & He' & _).
      congruence. }
  split; [done|]. split.
  { destruct (Retry.settled r) as [[e|]|v]; [| done |].
    - destruct Hend as [Hlast _]. rewrite Hn in Hlast. eauto.
    - destruct (Hall (Retry.calls r - 1)%nat ltac:(lia)) as (e' & He' & _).
      congruence. }
  split; [simpl in Hwaits; lia|].
  intros j Hj.
  destruct (lookup_lt_is_Some_2 (Retry.waits r) j ltac:(simpl in Hwaits; lia))
    as [w Hw].
  destruct (withRetry_wait_is_delay fn maxRetries baseDelay j w Hw)
    as (e & He & _ & _ & ->).
  exists e. split; [done|]. exact Hw.
Qed.

(** Three failures with code 503 under the defaults: three calls, waits of
    2000 and 4000 ms. *)
Lemma withRetry_exhausts_the_bound_witness :
  Retry.calls (Retry.withRetry
    (fun _ => @Rejected string (Retry.error_with_code 503)) 3 2000) = 3%nat /\
  Retry.waits (Retry.withRetry
    (fun _ => @Rejected string (Retry.error_with_code 503)) 3 2000) = [2000; 4000].
Proof.
  destruct (withRetry_exhausts_the_bound string
    (fun _ => Rejected (Retry.error_with_code 503)) 3 2000 ltac:(lia))
    as (Hcalls & _ & _ & _).
  - intros j _. eexists. split; reflexivity.
  - split; [exact Hcalls | reflexivity].
Defined.

(** The count of invocations and of waits under the defaults. *)
Lemma withRetry_invocations_bounded_aux (T : Type) (fn : nat -> Outcome T) :
  (Retry.calls (Retry.withRetry fn 3 2000) <= 3)%nat /\
  length (Retry.waits (Retry.withRetry fn 3 2000))
  = (Retry.calls (Retry.withRetry fn 3 2000) - 1)%nat.
Proof.
  destruct (attempts_run fn 3 2000 (Z.to_nat 3) 0 ThrowUndefined []
              ltac:(simpl; lia) ltac:(simpl; lia)) as (Hcalls & Hwaits & _).
  cbn zeta in *. fold (Retry.withRetry fn 3 2000) in *.
  simpl in Hwaits, Hcalls. lia.
Qed.

(** X2.  Whatever the operation does, it is invoked at most [maxRetries]
    times, and the executor waits exactly once between two consecutive
    invocations: the number of waits is the number of invocations minus
    one. *)
Theorem withRetry_invocations_bounded :
  forall (T : Type) (fn : nat -> Outcome T) (maxRetries baseDelay : Z),
    (Retry.calls (Retry.withRetry fn maxRetries baseDelay) <= Z.to_nat maxRetries)%nat /\
    length (Retry.waits (Retry.withRetry fn maxRetries baseDelay))
    = (Retry.calls (Retry.withRetry fn maxRetries baseDelay) - 1)%nat.
Proof.
  intros T fn maxRetries baseDelay.
  destruct (Z.to_nat maxRetries) as [|n] eqn:Hn.
  - unfold Retry.withRetry. rewrite Hn. simpl. lia.
  - destruct (attempts_run fn maxRetries baseDelay (Z.to_nat maxRetries) 0
                ThrowUndefined [] ltac:(lia) ltac:(lia))
      as (Hcalls & Hwaits & _).
    cbn zeta in *. fold (Retry.withRetry fn maxRetries baseDelay) in *.
    simpl in Hwaits. lia.
Qed.

(** Under the defaults, a returned value was resolved by some
    invocation. *)
Lemma withRetry_returns_last_invocation_aux (T : Type) (fn : nat -> Outcome T) (v : T) :
  Retry.settled (Retry.withRetry fn 3 2000) = inr v -> exists j, fn j = Resolved v.
Proof.
  intros Hv.
  destruct (attempts_run fn 3 2000 (Z.to_nat 3) 0 ThrowUndefined []
              ltac:(simpl; lia) ltac:(simpl; lia)) as (_ & _ & _ & Hend).
  cbn zeta in Hend. fold (Retry.withRetry fn 3 2000) in Hend.
  rewrite Hv in Hend. eauto.
Qed.

(** X3.  With a bound of at least one attempt, what the executor returns
    is what the last invocation produced: a returned value is the value
    the last invocation resolved to, after retryable failures only; a
    thrown error is the very error of the last invocation, which either
    is not retryable or is the error of the last allowed attempt. *)
Theorem withRetry_returns_last_invocation :
  forall (T : Type) (fn : nat -> Outcome T) (maxRetries baseDelay : Z),
    1 <= maxRetries ->
    (forall j, (j < Retry.calls (Retry.withRetry fn maxRetries baseDelay) - 1)%nat ->
       exists e, fn j = Rejected e /\ Retry.isRetryable e = true) /\
    (forall v,
       Retry.settled (Retry.withRetry fn maxRetries baseDelay) = inr v ->
       fn (Retry.calls (Retry.withRetry fn maxRetries baseDelay) - 1)%nat = Resolved v) /\
    (forall thrown,
       Retry.settled (Retry.withRetry fn maxRetries baseDelay) = inl thrown ->
       exists e, thrown = ThrowError e /\
         fn (Retry.calls (Retry.withRetry fn maxRetries baseDelay) - 1)%nat = Rejected e /\
         (Retry.isRetryable e = false \/
          Retry.calls (Retry.withRetry fn maxRetries baseDelay) = Z.to_nat maxRetries)).
Proof.
  intros T fn maxRetries baseDelay Hpos.
  destruct (attempts_run fn maxRetries baseDelay (Z.to_nat maxRetries) 0
              ThrowUndefined [] ltac:(lia) ltac:(lia))
    as (Hcalls & Hwaits & Hearlier & Hend).
  cbn zeta in *. fold (Retry.withRetry fn maxRetries baseDelay) in *.
  set (r := Retry.withRetry fn maxRetries baseDelay) in *.
  split; [intros j Hj; apply Hearlier; lia|]. split.
  - intros v Hv. by rewrite Hv in Hend.
  - intros thrown Hthrown. rewrite Hthrown in Hend.
    destruct thrown as [e|]; [|done]. exists e. destruct Hend as [Hlast Hwhy].
    split; [done|]. split; [done|]. destruct Hwhy; [by left | right; lia].
Qed.

(** A failure with code 500, then success: the value of the second
    invocation is returned. *)
Lemma withRetry_returns_last_invocation_witness :
  Retry.fails_then [Retry.error_with_code 500] "ok"
    (Retry.calls (Retry.withRetry
       (Retry.fails_then [Retry.error_with_code 500] "ok") 3 2000) - 1)%nat
  = Resolved "ok".
Proof.
  apply (proj1 (proj2 (withRetry_returns_last_invocation string
    (Retry.fails_then [Retry.error_with_code 500] "ok") 3 2000 ltac:(lia)))).
  reflexivity.
Defined.

(** X4.  With the defaults (three attempts, base delay 2000 ms) the
    executor spends at most 15000 ms in its timers, whatever the operation
    does. *)
Theorem withRetry_default_waits_at_most_15s :
  forall (T : Type) (fn : nat -> Outcome T),
    0 <= Services.total_wait (Retry.withRetry_default fn) <= 15000.
Proof.
  intros T fn. unfold Services.total_wait, Retry.withRetry_default.
  destruct (withRetry_invocations_bounded_aux T fn) as [Hcalls Hlen].
  pose proof (withRetry_wait_is_delay fn 3 2000) as Hdelay.
  assert (Hbound : forall j w,
            Retry.waits (Retry.withRetry fn 3 2000) !! j = Some w ->
            0 <= w <= 5000 * 2 ^ Z.of_nat j).
  { intros j w Hw. destruct (Hdelay j w Hw) as (e & _ & _ & _ & ->).
    assert (0 < 2 ^ Z.of_nat j) by (apply Z.pow_pos_nonneg; lia).
    destruct (Retry.code_is e 429); nia. }
  destruct (Retry.waits (Retry.withRetry fn 3 2000)) as [|w0 [|w1 [|w2 ws]]];
    simpl in *.
  - lia.
  - pose proof (Hbound 0%nat w0 eq_refl). simpl in *. lia.
  - pose proof (Hbound 0%nat w0 eq_refl). pose proof (Hbound 1%nat w1 eq_refl).
    simpl in *. lia.
  - lia.
Qed.

(** ** Batch prompt generation: the prompts of the entries *)

Section PromptValues.
Import Prompts.

Lemma or_placeholder_truthy v : truthyJ (or_placeholder v) = true.
Proof.
  unfold or_placeholder. destruct v as [v|]; [|done].
  by destruct (truthyJ v) eqn:Hv.
Qed.

Lemma map_segments_truthy results segments : forall index entries,
  map_segments results index segments = Some entries ->
  Forall (fun entry => truthyJ (visual_prompt entry) = true /\
                       truthyJ (image_prompt entry) = true) entries.
Proof.
  induction segments as [|seg rest IH]; intros index entries; simpl.
  - intros H. inversion H. constructor.
  - destruct (at_index results index) as [entry|]; [|done].
    destruct (map_segments results (S index) rest) as [tail|] eqn:Htail; [|done].
    intros H. inversion H; subst. constructor.
    + simpl. split; apply or_placeholder_truthy.
    + by eapply IH.
Qed.
End PromptValues.

(** X5.  Whenever batch prompt generation returns, every entry has a
    truthy video prompt and a truthy image prompt (a non-empty string,
    when it is a string): no entry is returned without a prompt value. *)
Theorem generatePrompts_entries_have_prompts :
  forall (segments : list string)
         (collaborator : nat -> Outcome Prompts.ResponseText)
         (entries : list Prompts.GeneratedSceneResponse),
    Retry.settled (Prompts.generatePromptsForContinuousSegments segments collaborator)
    = inr entries ->
    forall entry, entry ∈ entries ->
      Prompts.truthyJ (Prompts.visual_prompt entry) = true /\
      Prompts.truthyJ (Prompts.image_prompt entry) = true /\
      Prompts.visual_prompt entry <> Prompts.JStr "" /\
      Prompts.image_prompt entry <> Prompts.JStr "".
Proof.
  intros segments collaborator entries Hrun entry Hentry.
  unfold Prompts.generatePromptsForContinuousSegments, Retry.withRetry_default in Hrun.
  destruct (withRetry_returns_last_invocation_aux _
              (fun k => Prompts.attempt segments (collaborator k)) entries Hrun)
    as [j Hj].
  unfold Prompts.attempt in Hj.
  destruct (collaborator j) as [text|e]; [|done].
  destruct (Prompts.parse_or_default text) as [results|]; [|done].
  destruct (Prompts.map_segments results 0 segments) as [es|] eqn:Hmap; [|done].
  inversion Hj; subst es.
  pose proof (map_segments_truthy results segments 0%nat entries Hmap) as Hall.
  rewrite Forall_forall in Hall. destruct (Hall entry Hentry) as [Hv Hi].
  repeat split; try done.
  - intros Heq. by rewrite Heq in Hv.
  - intros Heq. by rewrite Heq in Hi.
Qed.

(** A response whose only entry has an empty image prompt. *)
Lemma generatePrompts_entries_have_prompts_witness :
  Prompts.truthyJ (Prompts.image_prompt
    {| Prompts.script_segment := "a";
       Prompts.visual_prompt := Prompts.JStr "v";
       Prompts.image_prompt := Prompts.placeholder |}) = true.
Proof.
  apply (generatePrompts_entries_have_prompts ["a"]
    (fun _ => Resolved (Prompts.TextJson (Prompts.JArr
       [Prompts.JObj [("visual_prompt", Prompts.JStr "v");
                      ("image_prompt", Prompts.JStr "")]])))
    [ {| Prompts.script_segment := "a";
         Prompts.visual_prompt := Prompts.JStr "v";
         Prompts.image_prompt := Prompts.placeholder |} ]
    eq_refl).
  apply list_elem_of_In. left. reflexivity.
Defined.

(** ** The other services *)

Section ServiceFacts.
Import Services.

(** The loop finds the first part with inline data. *)
Lemma first_inline_Some parts : forall i part d,
  parts !! i = Some part -> inlineData part = Some d ->
  (forall j p, (j < i)%nat -> parts !! j = Some p -> inlineData p = None) ->
  first_inline parts = Some d.
Proof.
  induction parts as [|p0 rest IH]; intros i part d Hi Hd Hfirst; [done|].
  destruct i as [|i]; simpl in *.
  - inversion Hi; subst. by rewrite Hd.
  - rewrite (Hfirst 0%nat p0 ltac:(lia) eq_refl).
    apply (IH i part d Hi Hd). intros j p Hj Hp.
    apply (Hfirst (S j) p ltac:(lia) Hp).
Qed.

Lemma first_inline_None parts :
  (forall p, p ∈ parts -> inlineData p = None) -> first_inline parts = None.
Proof.
  induction parts as [|p0 rest IH]; intros Hall; [done|]. simpl.
  rewrite (Hall p0 ltac:(apply elem_of_cons; by left)).
  apply IH. intros p Hp. apply Hall. apply elem_of_cons. by right.
Qed.
End ServiceFacts.

(** X6.  When the request succeeds, at once or after retried failures,
    image generation returns the data URL made of the first part of the
    response that carries inline data; when no part carries any it throws
    "API 未返回图像数据", and that error is not retried: the request that
    got this response is the last one. *)
Theorem generateImage_first_inline_part :
  forall (model : nat -> Outcome (list Services.Part)) (k : nat)
         (parts : list Services.Part),
    (k < 3)%nat ->
    (forall j, (j < k)%nat ->
       exists e, model j = Rejected e /\ Retry.isRetryable e = true) ->
    model k = Resolved parts ->
    Retry.calls (Services.generateImageFromPrompt model) = S k /\
    (forall i part d,
       parts !! i = Some part -> Services.inlineData part = Some d ->
       (forall j p, (j < i)%nat -> parts !! j = Some p ->
          Services.inlineData p = None) ->
       Retry.settled (Services.generateImageFromPrompt model)
       = inr ("data:" +:+ Services.interpolated (Services.mimeType d)
              +:+ ";base64," +:+ Services.interpolated (Services.data d))) /\
    ((forall p, p ∈ parts -> Services.inlineData p = None) ->
     Retry.settled (Services.generateImageFromPrompt model)
     = inl (ThrowError (Error "API 未返回图像数据"))).
Proof.
  intros model k parts Hk Hfail Hok.
  unfold Services.generateImageFromPrompt, Retry.withRetry_default, Retry.withRetry.
  set (fn := fun j => Services.image_attempt (model j)).
  assert (Hretry : forall j, (0 <= j < 0 + k)%nat ->
            exists e, fn j = Rejected e /\ Retry.isRetryable e = true).
  { intros j Hj. destruct (Hfail j ltac:(lia)) as (e & He & Hre).
    exists e. unfold fn. by rewrite He. }
  assert (Hcases : (exists d, Services.first_inline parts = Some d /\
                      fn (0 + k)%nat = Resolved (Services.data_url d)) \/
                   (Services.first_inline parts = None /\
                    fn (0 + k)%nat = Rejected (Error "API 未返回图像数据"))).
  { unfold fn. simpl. rewrite Hok. simpl.
    destruct (Services.first_inline parts) as [d|]; [left; eauto | by right]. }
  split; [|split].
  - destruct Hcases as [(d & _ & Hfn) | [_ Hfn]].
    + apply (attempts_retry_then_resolve fn 3 2000 k (Z.to_nat 3) 0
               ThrowUndefined [] (Services.data_url d));
        [simpl; lia | simpl; lia | done | done].
    + apply (attempts_retry_then_reject fn 3 2000 k (Z.to_nat 3) 0
               ThrowUndefined [] (Error "API 未返回图像数据"));
        [simpl; lia | simpl; lia | done | done | done].
  - intros i part d Hi Hd Hfirst.
    pose proof (first_inline_Some parts i part d Hi Hd Hfirst) as Hfound.
    destruct Hcases as [(d' & Hd' & Hfn) | [Hnone _]]; [|congruence].
    assert (d' = d) by congruence. subst d'.
    apply (attempts_retry_then_resolve fn 3 2000 k (Z.to_nat 3) 0
             ThrowUndefined [] (Services.data_url d));
      [simpl; lia | simpl; lia | done | done].
  - intros Hnone. pose proof (first_inline_None parts Hnone) as Hnot.
    destruct Hcases as [(d & Hd & _) | [_ Hfn]]; [congruence|].
    apply (attempts_retry_then_reject fn 3 2000 k (Z.to_nat 3) 0
             ThrowUndefined [] (Error "API 未返回图像数据"));
      [simpl; lia | simpl; lia | done | done | done].
Qed.

(** A response with a text part and then a PNG. *)
Lemma generateImage_first_inline_part_witness :
  Retry.settled (Services.generateImageFromPrompt
    (fun _ => Resolved
       [ {| Services.inlineData := None |};
         {| Services.inlineData :=
              Some {| Services.mimeType := Some "image/png";
                      Services.data := Some "AAAA" |} |} ]))
  = inr "data:image/png;base64,AAAA".
Proof.
  apply (proj1 (proj2 (generateImage_first_inline_part
    (fun _ => Resolved
       [ {| Services.inlineData := None |};
         {| Services.inlineData :=
              Some {| Services.mimeType := Some "image/png";
                      Services.data := Some "AAAA" |} |} ])
    0%nat
    [ {| Services.inlineData := None |};
      {| Services.inlineData :=
           Some {| Services.mimeType := Some "image/png";
                   Services.data := Some "AAAA" |} |} ]
    ltac:(lia) ltac:(intros j Hj; lia) eq_refl))
    1%nat
    {| Services.inlineData :=
         Some {| Services.mimeType := Some "image/png";
                 Services.data := Some "AAAA" |} |}
    {| Services.mimeType := Some "image/png"; Services.data := Some "AAAA" |}
    eq_refl eq_refl).
  intros [|j] p Hj Hp; [by inversion Hp | lia].
Defined.

Section TextRuns.
Context {T : Type}.
Variable fn : nat -> Outcome T.

(** Under the defaults: retried failures, then a value. *)
Lemma withRetry_default_resolves (k : nat) (v : T) :
  (k < 3)%nat ->
  (forall j, (j < k)%nat -> exists e, fn j = Rejected e /\ Retry.isRetryable e = true) ->
  fn k = Resolved v ->
  Retry.settled (Retry.withRetry_default fn) = inr v /\
  Retry.calls (Retry.withRetry_default fn) = S k.
Proof.
  intros Hk Hfail Hok. unfold Retry.withRetry_default, Retry.withRetry.
  apply (attempts_retry_then_resolve fn 3 2000 k (Z.to_nat 3) 0 ThrowUndefined [] v);
    [simpl; lia | simpl; lia | intros j Hj; apply Hfail; lia | exact Hok].
Qed.
End TextRuns.

(** X7.  What the two text services return is made of the text of the
    response that came back, at once or after retried failures: when the
    trimmed text is not empty, both return the trimmed text; when the
    response has no text or only white space, the first-frame prompt is
    the fallback sentence built from the segment, the style, the era and
    the ethnicity, and the refined prompt is the original prompt.  So a
    first-frame prompt that is returned is never the empty string,
    whatever the responses were, and a refined prompt is empty only if
    the response gave no text and the original prompt was empty. *)
Theorem generated_prompts_are_not_empty :
  forall (trim : string -> string)
         (segment style era ethnicity originalPrompt : string)
         (model : nat -> Outcome (option string)),
    (forall p,
       Retry.settled (Services.generateFirstFramePrompt trim segment style era
                        ethnicity model) = inr p -> p <> "") /\
    (forall (k : nat) (text : option string),
       (k < 3)%nat ->
       (forall j, (j < k)%nat ->
          exists e, model j = Rejected e /\ Retry.isRetryable e = true) ->
       model k = Resolved text ->
       Retry.calls (Services.generateFirstFramePrompt trim segment style era
                      ethnicity model) = S k /\
       Retry.calls (Services.refinePromptWithAI trim originalPrompt model) = S k /\
       (forall t, text = Some t -> trim t <> "" ->
          Retry.settled (Services.generateFirstFramePrompt trim segment style era
                           ethnicity model) = inr (trim t) /\
          Retry.settled (Services.refinePromptWithAI trim originalPrompt model)
          = inr (trim t)) /\
       (text = None \/ (exists t, text = Some t /\ trim t = "") ->
          Retry.settled (Services.generateFirstFramePrompt trim segment style era
                           ethnicity model)
          = inr ("一个展现" +:+ segment +:+ "开头场景的高清电影画面，" +:+ style
                 +:+ "风格，" +:+ era +:+ "背景，" +:+ ethnicity +:+ "人物") /\
          Retry.settled (Services.refinePromptWithAI trim originalPrompt model)
          = inr originalPrompt) /\
       (Retry.settled (Services.refinePromptWithAI trim originalPrompt model) = inr "" ->
          originalPrompt = "" /\
          (text = None \/ exists t, text = Some t /\ trim t = ""))).
Proof.
  intros trim segment style era ethnicity originalPrompt model. split.
  - intros p Hrun.
    unfold Services.generateFirstFramePrompt, Retry.withRetry_default in Hrun.
    apply withRetry_returns_last_invocation_aux in Hrun as [j Hj].
    destruct (model j) as [text|e]; [|done]. inversion Hj as [Hp]. clear Hj.
    unfold Services.trimmed_or.
    destruct text as [t|]; [destruct (String.eqb_spec (trim t) "")|]; try done.
  - intros k text Hk Hfail Hok.
    assert (Hretry : forall fallback j, (j < k)%nat ->
              exists e, match model j with
                        | Rejected e => Rejected e
                        | Resolved text => Resolved (Services.trimmed_or trim text fallback)
                        end = Rejected e /\ Retry.isRetryable e = true).
    { intros fallback j Hj. destruct (Hfail j Hj) as (e & He & Hre).
      exists e. by rewrite He. }
    destruct (withRetry_default_resolves
                (fun j => match model j with
                          | Rejected e => Rejected e
                          | Resolved text =>
                              Resolved (Services.trimmed_or trim text
                                (Services.first_frame_fallback segment style era ethnicity))
                          end) k
                (Services.trimmed_or trim text
                   (Services.first_frame_fallback segment style era ethnicity))
                Hk (Hretry _) ltac:(cbv beta; by rewrite Hok)) as [Hfirst Hfirst_calls].
    destruct (withRetry_default_resolves
                (fun j => match model j with
                          | Rejected e => Rejected e
                          | Resolved text =>
                              Resolved (Services.trimmed_or trim text originalPrompt)
                          end) k
                (Services.trimmed_or trim text originalPrompt)
                Hk (Hretry _) ltac:(cbv beta; by rewrite Hok)) as [Hrefined Hrefined_calls].
    fold (Services.generateFirstFramePrompt trim segment style era ethnicity model)
      in Hfirst, Hfirst_calls.
    fold (Services.refinePromptWithAI trim originalPrompt model)
      in Hrefined, Hrefined_calls.
    split; [exact Hfirst_calls|]. split; [exact Hrefined_calls|].
    rewrite Hfirst, Hrefined. unfold Services.trimmed_or. split; [|split].
    + intros t -> Hne. by rewrite (proj2 (String.eqb_neq _ _) Hne).
    + intros [->|(t & -> & Hblank)]; [done|]. by rewrite Hblank.
    + destruct text as [t|].
      * destruct (String.eqb_spec (trim t) "") as [Hblank|Hne].
        -- intros Hempty. inversion Hempty. split; [done | right; eauto].
        -- intros Hempty. inversion Hempty. done.
      * intros Hempty. inversion Hempty. split; [done | by left].
Qed.

(** A response whose text is given after one 503, with a trim that
    changes nothing. *)
Lemma generated_prompts_are_not_empty_witness :
  Retry.settled (Services.refinePromptWithAI (fun t => t) "a castle"
    (Retry.fails_then [Retry.error_with_code 503] (Some "a castle at dawn")))
  = inr "a castle at dawn".
Proof.
  apply (proj2 (proj1 (proj2 (proj2 (proj2 (generated_prompts_are_not_empty
    (fun t => t) "a" "b" "c" "d" "a castle"
    (Retry.fails_then [Retry.error_with_code 503] (Some "a castle at dawn")))
    1%nat (Some "a castle at dawn") ltac:(lia)
    ltac:(intros [|j] Hj; [eexists; split; reflexivity | lia])
    eq_refl))) "a castle at dawn" eq_refl ltac:(discriminate))).
Defined.

Section SplitFacts.
Import Services.

Lemma slice_0_bound {A : Type} (l : list A) (n : Z) :
  1 <= n -> l <> [] ->
  slice_0 l (Some n) = take (Z.to_nat n) l /\
  (1 <= length (slice_0 l (Some n)) <= Z.to_nat n)%nat.
Proof.
  intros Hn Hl. unfold slice_0.
  assert ((0 <=? n) = true) as -> by (apply Z.leb_le; lia).
  split; [done|]. rewrite length_take.
  destruct l as [|x l]; [done|]. simpl. lia.
Qed.

(** What the [try] block returns for a duration between 1 and 24. *)
Lemma split_attempt_cases script shotDuration text :
  1 <= shotDuration <= 24 ->
  split_attempt script shotDuration text = [Prompts.JStr script] \/
  exists fields all,
    text = Prompts.TextJson (Prompts.JObj fields) /\
    Prompts.own_property "segments" fields = Some (Prompts.JArr all) /\
    all <> [] /\
    split_attempt script shotDuration text = take (Z.to_nat (24 / shotDuration)) all.
Proof.
  intros Hd. unfold split_attempt.
  destruct text as [|parsed|]; simpl; [by left | | by left].
  destruct parsed as [|b|q|str|items|fields]; simpl; try by left.
  destruct (Prompts.own_property "segments" fields) as [[|b|q|str|[|first others]|fs]|]
    eqn:Hprop; try by left.
  right. exists fields, (first :: others).
  split; [done|]. split; [done|]. split; [done|].
  unfold maxSegments.
  assert ((shotDuration =? 0) = false) as -> by (apply Z.eqb_neq; lia).
  apply slice_0_bound; [|done].
  apply Z.div_le_lower_bound; lia.
Qed.
End SplitFacts.

(** X8.  For a shot duration between 1 and 24 seconds, and a request that
    succeeds at once or after retried failures, the splitter never raises
    and returns at least one and at most [floor(24 / shotDuration)]
    segments: either the whole script as the only segment (also when the
    response text is missing, is [null] or does not parse), or the first
    [floor(24 / shotDuration)] entries of the response's non-empty
    [segments] array, in their order. *)
Theorem splitScript_bounded_and_never_empty :
  forall (script : string) (shotDuration : Z)
         (model : nat -> Outcome Prompts.ResponseText) (k : nat)
         (text : Prompts.ResponseText),
    1 <= shotDuration <= 24 ->
    (k < 3)%nat ->
    (forall j, (j < k)%nat ->
       exists e, model j = Rejected e /\ Retry.isRetryable e = true) ->
    model k = Resolved text ->
    exists segments,
      Retry.settled (Services.splitScriptSmartly script shotDuration model)
      = inr segments /\
      Retry.calls (Services.splitScriptSmartly script shotDuration model) = S k /\
      (1 <= length segments)%nat /\
      Z.of_nat (length segments) <= 24 / shotDuration /\
      (segments = [Prompts.JStr script] \/
       exists fields all,
         text = Prompts.TextJson (Prompts.JObj fields) /\
         Prompts.own_property "segments" fields = Some (Prompts.JArr all) /\
         segments = take (Z.to_nat (24 / shotDuration)) all) /\
      (text = Prompts.TextAbsent \/ text = Prompts.TextMalformed \/
       text = Prompts.TextJson Prompts.JNull ->
       segments = [Prompts.JStr script]).
Proof.
  intros script shotDuration model k text Hd Hk Hfail Hok.
  exists (Services.split_attempt script shotDuration text).
  unfold Services.splitScriptSmartly, Retry.withRetry_default, Retry.withRetry.
  set (fn := fun j => match model j with
                      | Rejected e => Rejected e
                      | Resolved t => Resolved (Services.split_attempt script shotDuration t)
                      end).
  assert (Hretry : forall j, (0 <= j < 0 + k)%nat ->
            exists e, fn j = Rejected e /\ Retry.isRetryable e = true).
  { intros j Hj. destruct (Hfail j ltac:(lia)) as (e & He & Hre).
    exists e. unfold fn. by rewrite He. }
  assert (Hfn : fn (0 + k)%nat
                = Resolved (Services.split_attempt script shotDuration text)).
  { unfold fn. simpl. by rewrite Hok. }
  destruct (attempts_retry_then_resolve fn 3 2000 k (Z.to_nat 3) 0 ThrowUndefined []
              (Services.split_attempt script shotDuration text)
              ltac:(simpl; lia) ltac:(simpl; lia) Hretry Hfn) as [Hsettled Hcalls].
  split; [done|]. split; [done|].
  assert (Hquot : 1 <= 24 / shotDuration) by (apply Z.div_le_lower_bound; lia).
  destruct (split_attempt_cases script shotDuration text Hd)
    as [Hwhole | (fields & all & Htext & Hprop & Hne & Hsome)].
  - rewrite Hwhole. simpl. split; [lia|]. split; [lia|]. split; [by left | done].
  - rewrite Hsome, length_take.
    assert (1 <= length all)%nat by (destruct all; [done | simpl; lia]).
    split; [lia|]. split; [lia|]. split; [right; eauto|].
    intros [->|[->| Hnull]]; [done | done |]. rewrite Htext in Hnull. done.
Qed.

(** Eight seconds per shot and a response with four segments: three are
    kept. *)
Lemma splitScript_bounded_and_never_empty_witness :
  exists segments,
    Retry.settled (Services.splitScriptSmartly "script" 8
      (fun _ => Resolved (Prompts.TextJson (Prompts.JObj
         [("segments", Prompts.JArr [Prompts.JStr "a"; Prompts.JStr "b";
                                     Prompts.JStr "c"; Prompts.JStr "d"])]))))
    = inr segments /\
    Z.of_nat (length segments) <= 24 / 8.
Proof.
  destruct (splitScript_bounded_and_never_empty "script" 8
    (fun _ => Resolved (Prompts.TextJson (Prompts.JObj
       [("segments", Prompts.JArr [Prompts.JStr "a"; Prompts.JStr "b";
                                   Prompts.JStr "c"; Prompts.JStr "d"])])))
    0%nat _ ltac:(lia) ltac:(lia) ltac:(intros j Hj; lia) eq_refl)
    as (segments & Hrun & _ & _ & Hmax & _).
  exists segments. split; [exact Hrun | exact Hmax].
Defined.

Section VideoFacts.
Import Services.
Variable operations : nat -> Outcome Operation.
Variable download : Outcome Download.

(** The loop goes through the operation states that are not done, one
    wait of 8000 ms each. *)
Lemma poll_pending k : forall rounds n waited,
  (k <= rounds)%nat ->
  (forall j, (n <= j < n + k)%nat ->
     exists operation, operations j = Resolved operation /\ done operation = false) ->
  poll operations download rounds n waited
  = poll operations download (rounds - k) (n + k) (waited ++ replicate k 8000).
Proof.
  induction k as [|k IH]; intros rounds n waited Hrounds Hpending.
  - by rewrite Nat.sub_0_r, Nat.add_0_r, app_nil_r.
  - destruct rounds as [|rounds]; [lia|].
    destruct (Hpending n ltac:(lia)) as (operation & Hop & Hdone).
    cbn [poll]. rewrite Hop, Hdone.
    rewrite (IH rounds (S n) (waited ++ [8000]) ltac:(lia)).
    + replace (S n + k)%nat with (n + S k)%nat by lia.
      replace (S rounds - S k)%nat with (rounds - k)%nat by lia.
      by rewrite <- app_assoc.
    + intros j Hj. apply Hpending. lia.
Qed.
End VideoFacts.

(** X9.  If the video operation is first reported done at its [k]-th state
    (after [k] refreshes), then video generation, followed for at least
    [k] rounds, settles after exactly [k] waits of 8000 ms and [k]
    refreshes: it throws "API 未返回视频链接" without downloading when the
    finished operation has no link, throws "视频下载失败: " with the status
    text when the download is not ok, and otherwise settles as the object
    URL of the downloaded video does. *)
Theorem generateVideo_polls_until_done :
  forall (operations : nat -> Outcome Services.Operation)
         (download : Outcome Services.Download)
         (k rounds : nat) (finished : Services.Operation),
    (forall j, (j < k)%nat ->
       exists operation, operations j = Resolved operation /\
                         Services.done operation = false) ->
    operations k = Resolved finished ->
    Services.done finished = true ->
    (k <= rounds)%nat ->
    Services.queries (Services.generateVideoForScene operations download rounds) = k /\
    Services.poll_waits (Services.generateVideoForScene operations download rounds)
    = replicate k 8000 /\
    (truthy (Services.uri finished) = false ->
     Services.video (Services.generateVideoForScene operations download rounds)
     = Some (Rejected (Error "API 未返回视频链接"))) /\
    (forall response,
       truthy (Services.uri finished) = true -> download = Resolved response ->
       Services.video (Services.generateVideoForScene operations download rounds)
       = Some (if Services.ok response then Services.objectUrl response
               else Rejected (Error ("视频下载失败: " +:+ Services.statusText response)))) /\
    (forall e,
       truthy (Services.uri finished) = true -> download = Rejected e ->
       Services.video (Services.generateVideoForScene operations download rounds)
       = Some (Rejected e)).
Proof.
  intros operations download k rounds finished Hpending Hk Hdone Hrounds.
  unfold Services.generateVideoForScene.
  rewrite (poll_pending operations download k rounds 0 [] Hrounds)
    by (intros j Hj; apply Hpending; lia).
  simpl. destruct (rounds - k)%nat; cbn [Services.poll]; rewrite Hk, Hdone; simpl;
    (split; [done|]; split; [done|]; unfold Services.deliver;
     split; [by intros ->|]; split; [by intros response -> -> | by intros e -> ->]).
Qed.

(** Done at the second refresh, with a link and a download that is ok. *)
Lemma generateVideo_polls_until_done_witness :
  Services.poll_waits (Services.generateVideoForScene
    (fun n => Resolved {| Services.done := Nat.leb 2 n;
                          Services.uri := Some "https://video" |})
    (Resolved {| Services.ok := true; Services.statusText := "OK";
                 Services.objectUrl := Resolved "blob:video" |}) 5)
  = [8000; 8000].
Proof.
  apply (proj1 (proj2 (generateVideo_polls_until_done
    (fun n => Resolved {| Services.done := Nat.leb 2 n;
                          Services.uri := Some "https://video" |})
    (Resolved {| Services.ok := true; Services.statusText := "OK";
                 Services.objectUrl := Resolved "blob:video" |})
    2%nat 5%nat
    {| Services.done := true; Services.uri := Some "https://video" |}
    ltac:(intros [|[|j]] Hj; [eexists; split; reflexivity .. | lia])
    eq_refl eq_refl ltac:(lia)))).
Defined.

(** X10.  The polling has no bound of its own: while the operation is
    never reported done (and no refresh fails), video generation does not
    settle, however many rounds are followed; after [rounds] rounds it has
    waited [rounds] times 8000 ms and is still polling. *)
Theorem generateVideo_never_done_never_settles :
  forall (operations : nat -> Outcome Services.Operation)
         (download : Outcome Services.Download),
    (forall j, exists operation,
        operations j = Resolved operation /\ Services.done operation = false) ->
    forall rounds,
      Services.video (Services.generateVideoForScene operations download rounds) = None /\
      Services.queries (Services.generateVideoForScene operations download rounds)
      = rounds /\
      Services.poll_waits (Services.generateVideoForScene operations download rounds)
      = replicate rounds 8000.
Proof.
  intros operations download Hpending rounds.
  unfold Services.generateVideoForScene.
  rewrite (poll_pending operations download rounds rounds 0 [] ltac:(lia))
    by (intros j _; apply Hpending).
  rewrite Nat.sub_diag. simpl.
  destruct (Hpending rounds) as (operation & Hop & Hdone).
  by rewrite Hop, Hdone.
Qed.

(** An operation that stays pending, followed for four rounds. *)
Lemma generateVideo_never_done_never_settles_witness :
  Services.video (Services.generateVideoForScene
    (fun _ => Resolved {| Services.done := false; Services.uri := None |})
    (Rejected (Error "unused")) 4) = None.
Proof.
  apply (generateVideo_never_done_never_settles
    (fun _ => Resolved {| Services.done := false; Services.uri := None |})
    (Rejected (Error "unused"))
    ltac:(intros j; eexists; split; reflexivity) 4%nat).
Defined.

(** ** FrameExtractor: settling once, releasing for good *)

Section ExtractorRuns.
Import FrameExtractor.

Lemma handle_keeps_promise x ev o :
  promise x = Some o -> promise (handle x ev) = Some o.
Proof.
  intros Hp. destruct ev as [d|rs r|r| |]; simpl.
  - done.
  - destruct (2 <=? rs)%Z; simpl; [by rewrite Hp | done].
  - destruct (oncanplay_capture x); simpl; [by rewrite Hp | done].
  - by rewrite Hp.
  - destruct (timeout_armed x); simpl; [by rewrite Hp | done].
Qed.

Lemma foldl_keeps_promise events : forall x o,
  promise x = Some o -> promise (foldl handle x events) = Some o.
Proof.
  induction events as [|ev events IH]; intros x o Hp; [done|].
  simpl. apply IH. by apply handle_keeps_promise.
Qed.

Lemma handle_keeps_closed x ev : closed x -> closed (handle x ev).
Proof.
  intros (Hsrc & Htimer & Hp).
  destruct (promise x) as [o|] eqn:Ho; [|done].
  pose proof (handle_keeps_promise x ev o Ho) as Hkept.
  unfold closed. rewrite Hkept.
  destruct ev as [d|rs r|r| |]; simpl.
  - done.
  - by destruct (2 <=? rs)%Z.
  - by destruct (oncanplay_capture x).
  - done.
  - by rewrite Htimer.
Qed.

Lemma handle_released_closed x ev :
  src x <> None -> src (handle x ev) = None -> closed (handle x ev).
Proof.
  intros Hopen Hreleased. unfold closed.
  destruct ev as [d|rs r|r| |]; simpl in *; try done.
  - destruct (2 <=? rs)%Z; simpl in *; [|done].
    repeat split. by destruct (promise x).
  - destruct (oncanplay_capture x); simpl in *; [|done].
    repeat split. by destruct (promise x).
  - by destruct (timeout_armed x).
Qed.

Lemma foldl_released_closed events : forall x,
  (src x = None -> closed x) ->
  src (foldl handle x events) = None -> closed (foldl handle x events).
Proof.
  induction events as [|ev events IH]; intros x Hx; [done|].
  simpl. apply IH. intros Hreleased.
  destruct (src x) as [source|] eqn:Hsrc.
  - apply handle_released_closed; [by rewrite Hsrc | done].
  - by apply handle_keeps_closed, Hx.
Qed.

Lemma foldl_keeps_closed events : forall x,
  closed x -> closed (foldl handle x events).
Proof.
  induction events as [|ev events IH]; intros x Hx; [done|].
  simpl. by apply IH, handle_keeps_closed.
Qed.
End ExtractorRuns.

(** X11.  The promise of the frame extractor settles at most once: once it
    is resolved or rejected, no later event of the video element or of the
    timer changes how it settled. *)
Theorem extractLastFrame_settles_once :
  forall (videoUrl : string) (events later : list FrameExtractor.Event)
         (o : Outcome string),
    FrameExtractor.promise (FrameExtractor.extractLastFrameFromVideo videoUrl events)
    = Some o ->
    FrameExtractor.promise
      (FrameExtractor.extractLastFrameFromVideo videoUrl (events ++ later))
    = Some o.
Proof.
  intros videoUrl events later o Hsettled.
  unfold FrameExtractor.extractLastFrameFromVideo in *.
  rewrite foldl_app. by apply foldl_keeps_promise.
Qed.

(** A timeout, then a seek that completes all the same: the rejection
    stands. *)
Lemma extractLastFrame_settles_once_witness :
  FrameExtractor.promise
    (FrameExtractor.extractLastFrameFromVideo "blob:video"
       ([FrameExtractor.TimeoutFired]
        ++ [FrameExtractor.Seeked 4 (FrameExtractor.Painted "data:frame")]))
  = Some (Rejected (Error "提取超时")).
Proof.
  apply (extractLastFrame_settles_once "blob:video" [FrameExtractor.TimeoutFired]
           [FrameExtractor.Seeked 4 (FrameExtractor.Painted "data:frame")]
           (Rejected (Error "提取超时"))).
  reflexivity.
Defined.

(** X12.  Whenever the media handle is released, the promise is settled
    and the timer is no longer pending; and from then on every event
    leaves the handle released. *)
Theorem extractLastFrame_release_is_final :
  forall (videoUrl : string) (events later : list FrameExtractor.Event),
    FrameExtractor.released
      (FrameExtractor.extractLastFrameFromVideo videoUrl events) = true ->
    FrameExtractor.promise
      (FrameExtractor.extractLastFrameFromVideo videoUrl events) <> None /\
    FrameExtractor.timeout_armed
      (FrameExtractor.extractLastFrameFromVideo videoUrl events) = false /\
    FrameExtractor.released
      (FrameExtractor.extractLastFrameFromVideo videoUrl (events ++ later)) = true.
Proof.
  intros videoUrl events later Hreleased.
  unfold FrameExtractor.extractLastFrameFromVideo, FrameExtractor.released in *.
  assert (Hclosed : FrameExtractor.closed
            (foldl FrameExtractor.handle (FrameExtractor.opened videoUrl) events)).
  { apply foldl_released_closed; [done|].
    by destruct (FrameExtractor.src (foldl FrameExtractor.handle _ events)). }
  destruct Hclosed as (Hsrc & Htimer & Hp).
  split; [done|]. split; [done|].
  rewrite foldl_app.
  destruct (foldl_keeps_closed later
              (foldl FrameExtractor.handle (FrameExtractor.opened videoUrl) events)
              (conj Hsrc (conj Htimer Hp))) as (Hlater & _).
  by rewrite Hlater.
Qed.

(** A capture, then a timer event and an error event. *)
Lemma extractLastFrame_release_is_final_witness :
  FrameExtractor.released
    (FrameExtractor.extractLastFrameFromVideo "blob:video"
       ([FrameExtractor.LoadedMetadata 8;
         FrameExtractor.Seeked 4 (FrameExtractor.Painted "data:frame")]
        ++ [FrameExtractor.TimeoutFired; FrameExtractor.MediaError]))
  = true.
Proof.
  apply (extractLastFrame_release_is_final "blob:video"
           [FrameExtractor.LoadedMetadata 8;
            FrameExtractor.Seeked 4 (FrameExtractor.Painted "data:frame")]
           [FrameExtractor.TimeoutFired; FrameExtractor.MediaError]).
  reflexivity.
Defined.

(** X13.  After a timeout the video element stays wired: if its seek
    completes later with a paintable frame, [capture] runs and releases
    the handle, while the promise stays rejected with the timeout. *)
Theorem extractLastFrame_late_capture_releases :
  forall (videoUrl : string) (duration : Q) (readyState : Z)
         (r : FrameExtractor.Raster),
    (2 <= readyState)%Z ->
    FrameExtractor.released
      (FrameExtractor.extractLastFrameFromVideo videoUrl
         [FrameExtractor.TimeoutFired; FrameExtractor.LoadedMetadata duration;
          FrameExtractor.Seeked readyState r]) = true /\
    FrameExtractor.promise
      (FrameExtractor.extractLastFrameFromVideo videoUrl
         [FrameExtractor.TimeoutFired; FrameExtractor.LoadedMetadata duration;
          FrameExtractor.Seeked readyState r])
    = Some (Rejected (Error "提取超时")).
Proof.
  intros videoUrl duration readyState r Hrs. apply Z.leb_le in Hrs.
  cbv [FrameExtractor.extractLastFrameFromVideo foldl FrameExtractor.handle].
  rewrite Hrs. by destruct r.
Qed.

Lemma extractLastFrame_late_capture_releases_witness :
  FrameExtractor.released
    (FrameExtractor.extractLastFrameFromVideo "blob:video"
       [FrameExtractor.TimeoutFired; FrameExtractor.LoadedMetadata 8;
        FrameExtractor.Seeked 4 (FrameExtractor.Painted "data:frame")]) = true.
Proof.
  apply (proj1 (extractLastFrame_late_capture_releases "blob:video" 8 4
                  (FrameExtractor.Painted "data:frame") ltac:(lia))).
Defined.

(** X14.  A seek that completes before a frame is paintable
    ([readyState < 2]) settles nothing by itself: the capture is put off
    to the next [canplay] event, which settles the promise as the
    rasterising goes and releases the handle; a [canplay] event that comes
    before any completed seek does nothing. *)
Theorem extractLastFrame_waits_for_canplay :
  forall (videoUrl : string) (duration : Q) (readyState : Z)
         (early r : FrameExtractor.Raster),
    (readyState < 2)%Z ->
    FrameExtractor.promise
      (FrameExtractor.extractLastFrameFromVideo videoUrl
         [FrameExtractor.CanPlay early; FrameExtractor.LoadedMetadata duration;
          FrameExtractor.Seeked readyState early]) = None /\
    FrameExtractor.released
      (FrameExtractor.extractLastFrameFromVideo videoUrl
         [FrameExtractor.CanPlay early; FrameExtractor.LoadedMetadata duration;
          FrameExtractor.Seeked readyState early]) = false /\
    FrameExtractor.promise
      (FrameExtractor.extractLastFrameFromVideo videoUrl
         [FrameExtractor.CanPlay early; FrameExtractor.LoadedMetadata duration;
          FrameExtractor.Seeked readyState early; FrameExtractor.CanPlay r])
    = Some (match r with
            | FrameExtractor.Painted dataUrl => Resolved dataUrl
            | FrameExtractor.NoContext => Rejected (Error "Context error")
            | FrameExtractor.RasterThrows e => Rejected e
            end) /\
    FrameExtractor.released
      (FrameExtractor.extractLastFrameFromVideo videoUrl
         [FrameExtractor.CanPlay early; FrameExtractor.LoadedMetadata duration;
          FrameExtractor.Seeked readyState early; FrameExtractor.CanPlay r]) = true.
Proof.
  intros videoUrl duration readyState early r Hrs.
  assert (Hlow : (2 <=? readyState)%Z = false) by (apply Z.leb_gt; lia).
  cbv [FrameExtractor.extractLastFrameFromVideo foldl FrameExtractor.handle
       FrameExtractor.opened FrameExtractor.oncanplay_capture].
  rewrite Hlow. by destruct r.
Qed.

Lemma extractLastFrame_waits_for_canplay_witness :
  FrameExtractor.promise
    (FrameExtractor.extractLastFrameFromVideo "blob:video"
       [FrameExtractor.CanPlay FrameExtractor.NoContext;
        FrameExtractor.LoadedMetadata 8;
        FrameExtractor.Seeked 1 FrameExtractor.NoContext;
        FrameExtractor.CanPlay (FrameExtractor.Painted "data:frame")])
  = Some (Resolved "data:frame").
Proof.
  apply (proj1 (proj2 (proj2 (extractLastFrame_waits_for_canplay "blob:video" 8 1
    FrameExtractor.NoContext (FrameExtractor.Painted "data:frame") ltac:(lia))))).
Defined.

(** ** ShotOrchestrator: how the updates compose *)

Section ComposeFacts.
Import Orchestrator.

(** [findIndex] only looks at the ids. *)
Lemma findIndex_ids target (l l' : list Scene) :
  id <$> l = id <$> l' -> findIndex target l = findIndex target l'.
Proof.
  revert l'. induction l as [|s l IH]; intros [|s' l'] Hids; try done.
  simpl in Hids. inversion Hids as [[Hid Hrest]].
  unfold findIndex in *. simpl. rewrite <- Hid.
  destruct (decide (id s = target)); [done|].
  specialize (IH l' Hrest).
  destruct (list_find (fun s => id s = target) l) as [[i x]|];
    destruct (list_find (fun s => id s = target) l') as [[i' x']|];
    simpl in *; congruence.
Qed.

Lemma findIndex_apply u target prev :
  handler_update u -> findIndex target (apply u prev) = findIndex target prev.
Proof. intros Hu. apply findIndex_ids. by apply apply_ids. Qed.

(** The continuity write, position by position. *)
Lemma continuityWrite_lookup target lastFrame prev j :
  continuityWrite target lastFrame prev !! j
  = match findIndex target prev with
    | Some idx =>
        if decide (j = (idx + 1)%nat)
        then (fun s => if slot_empty s then frame_inherited lastFrame s else s)
               <$> prev !! j
        else prev !! j
    | None => prev !! j
    end.
Proof.
  destruct (continuityWrite_cases target lastFrame prev)
    as [[Hnone ->] | [(idx & Hidx & Hlast & ->) | (idx & next & Hidx & Hlast & Hnext & ->)]].
  - by rewrite Hnone.
  - rewrite Hidx. destruct (decide (j = (idx + 1)%nat)) as [->|]; [|done].
    apply findIndex_Some in Hidx as (s & Hs & _). apply lookup_lt_Some in Hs.
    rewrite (proj2 (lookup_ge_None prev (idx + 1)%nat)); [done | lia].
  - rewrite Hidx. destruct (decide (j = (idx + 1)%nat)) as [->|Hne].
    + rewrite Hnext. simpl. destruct (slot_empty next); [|done].
      apply list_lookup_insert_eq. by eapply lookup_lt_Some.
    + destruct (slot_empty next); [|done]. by apply list_lookup_insert_ne.
Qed.

(** The functions the handlers map over the shots keep the id. *)
Lemma mapped_keeps_id u target f :
  mapped u = Some (target, f) -> forall s, id (f s) = id s.
Proof. destruct u; simpl; intros H; inversion H; subst; done. Qed.

Lemma map_id_lookup_target target f prev k s :
  prev !! k = Some s -> id s = target -> map_id target f prev !! k = Some (f s).
Proof.
  intros Hk Hid. rewrite map_id_lookup, Hk. cbn [fmap option_fmap option_map].
  by rewrite (proj2 (String.eqb_eq _ _) Hid).
Qed.

Lemma map_id_lookup_other target f prev k s :
  prev !! k = Some s -> id s <> target -> map_id target f prev !! k = Some s.
Proof.
  intros Hk Hid. rewrite map_id_lookup, Hk. cbn [fmap option_fmap option_map].
  by rewrite (proj2 (String.eqb_neq _ _) Hid).
Qed.

Lemma map_id_absent target f prev :
  (forall s, s ∈ prev -> id s <> target) -> map_id target f prev = prev.
Proof.
  intros Habsent. unfold map_id. apply list_eq. intros k.
  rewrite list_lookup_fmap. destruct (prev !! k) as [s|] eqn:Hk; [|done].
  simpl. f_equal.
  destruct (String.eqb_spec (id s) target) as [Heq|]; [|done].
  exfalso. apply (Habsent s); [by eapply list_elem_of_lookup_2 | done].
Qed.

Lemma map_id_commute t1 f t2 g prev :
  (forall s, id (f s) = id s) -> (forall s, id (g s) = id s) ->
  (forall s, id s = t1 -> id s = t2 -> f (g s) = g (f s)) ->
  map_id t1 f (map_id t2 g prev) = map_id t2 g (map_id t1 f prev).
Proof.
  intros Hf Hg Hsame. unfold map_id. rewrite <- !list_fmap_compose.
  apply list_fmap_ext. intros k s _. simpl.
  destruct (String.eqb (id s) t1) eqn:E1; destruct (String.eqb (id s) t2) eqn:E2;
    simpl; rewrite ?Hf, ?Hg, ?E1, ?E2; try done.
  apply Hsame; by apply String.eqb_eq.
Qed.
End ComposeFacts.

(** X15.  The continuity step that succeeds.  In continuous mode, when the
    shot after the completed one has an empty slot in the sequence the
    handler checks and the extraction resolves, the handler issues the
    start, the completion and the continuity write and logs nothing; and,
    applied in a row to that sequence, they leave the completed shot with
    state completed and its video URL, and the next shot with the
    extracted frame as start frame, image state completed, and its id,
    prompts and segment as they were. *)
Theorem continuity_writes_extracted_frame :
  forall (c : Orchestrator.Closure) (target : string)
         (promptOverride : option string) (url lastFrame : string)
         (idx : nat) (scene next : Orchestrator.Scene),
    Orchestrator.mode c = Orchestrator.Single ->
    Orchestrator.findIndex target (Orchestrator.scenes c) = Some idx ->
    Orchestrator.scenes c !! idx = Some scene ->
    Orchestrator.scenes c !! (idx + 1)%nat = Some next ->
    Orchestrator.id next <> target ->
    Orchestrator.slot_empty next = true ->
    Orchestrator.handleGenerateVideo c target promptOverride
      (Resolved url) (Resolved lastFrame)
    = Orchestrator.mkEffects
        [Orchestrator.StartVideo target promptOverride;
         Orchestrator.CompleteVideo target url (Orchestrator.selectedAspectRatio c);
         Orchestrator.ContinuityWrite target lastFrame] [] /\
    exists completed inherited,
      foldl (fun l u => Orchestrator.apply u l) (Orchestrator.scenes c)
        (Orchestrator.updates (Orchestrator.handleGenerateVideo c target promptOverride
           (Resolved url) (Resolved lastFrame))) !! idx = Some completed /\
      Orchestrator.status completed = Orchestrator.VCompleted /\
      Orchestrator.videoUrl completed = Some url /\
      Orchestrator.generatedImage completed = Orchestrator.generatedImage scene /\
      foldl (fun l u => Orchestrator.apply u l) (Orchestrator.scenes c)
        (Orchestrator.updates (Orchestrator.handleGenerateVideo c target promptOverride
           (Resolved url) (Resolved lastFrame))) !! (idx + 1)%nat
      = Some inherited /\
      inherited = Orchestrator.frame_inherited lastFrame next /\
      Orchestrator.generatedImage inherited = Some lastFrame /\
      Orchestrator.imageStatus inherited = Orchestrator.ICompleted /\
      Orchestrator.id inherited = Orchestrator.id next /\
      Orchestrator.scriptSegment inherited = Orchestrator.scriptSegment next /\
      Orchestrator.visualPrompt inherited = Orchestrator.visualPrompt next /\
      Orchestrator.imagePrompt inherited = Orchestrator.imagePrompt next /\
      Orchestrator.status inherited = Orchestrator.status next /\
      Orchestrator.videoUrl inherited = Orchestrator.videoUrl next.
Proof.
  intros c target promptOverride url lastFrame idx scene next
    Hmode Hidx Hscene Hnext Hother Hempty.
  assert (Hlen : (idx + 1 < length (Orchestrator.scenes c))%nat)
    by (by eapply lookup_lt_Some).
  pose proof (find_Some_findIndex _ _ _ _ Hidx Hscene) as Hfind.
  assert (Hrun : Orchestrator.handleGenerateVideo c target promptOverride
                   (Resolved url) (Resolved lastFrame)
                 = Orchestrator.mkEffects
                     [Orchestrator.StartVideo target promptOverride;
                      Orchestrator.CompleteVideo target url
                        (Orchestrator.selectedAspectRatio c);
                      Orchestrator.ContinuityWrite target lastFrame] []).
  { unfold Orchestrator.handleGenerateVideo.
    rewrite Hfind, Hidx, Hnext, Hempty, (bool_decide_eq_true_2 _ Hmode).
    by rewrite (proj2 (Nat.ltb_lt _ _) Hlen). }
  split; [done|]. rewrite Hrun. cbn [Orchestrator.updates foldl].
  set (started := Orchestrator.apply (Orchestrator.StartVideo target promptOverride)
                    (Orchestrator.scenes c)).
  set (completed := Orchestrator.apply
                      (Orchestrator.CompleteVideo target url
                         (Orchestrator.selectedAspectRatio c)) started).
  assert (Hid : Orchestrator.id scene = target).
  { apply findIndex_Some in Hidx as (s0 & Hs0 & Hid0 & _). congruence. }
  assert (Hindex : Orchestrator.findIndex target completed = Some idx).
  { unfold completed, started. by rewrite !findIndex_apply. }
  assert (Hdone : completed !! idx
                  = Some (Orchestrator.video_completed url
                            (Orchestrator.selectedAspectRatio c)
                            (Orchestrator.video_started promptOverride scene))).
  { unfold completed, started. cbn [Orchestrator.apply].
    apply map_id_lookup_target; [|exact Hid].
    by apply map_id_lookup_target. }
  assert (Hkept : completed !! (idx + 1)%nat = Some next).
  { unfold completed, started. cbn [Orchestrator.apply].
    apply map_id_lookup_other; [|exact Hother].
    by apply map_id_lookup_other. }
  exists (Orchestrator.video_completed url (Orchestrator.selectedAspectRatio c)
            (Orchestrator.video_started promptOverride scene)),
    (Orchestrator.frame_inherited lastFrame next).
  cbn [Orchestrator.apply].
  rewrite !continuityWrite_lookup, Hindex.
  destruct (decide (idx = (idx + 1)%nat)); [lia|].
  destruct (decide ((idx + 1)%nat = (idx + 1)%nat)); [|done].
  rewrite Hdone, Hkept. cbn [fmap option_fmap option_map]. rewrite Hempty.
  do 13 (split; [reflexivity|]). reflexivity.
Qed.

(** Two empty shots; the frame of "a" goes into "b". *)
Lemma continuity_writes_extracted_frame_witness :
  Orchestrator.handleGenerateVideo
    {| Orchestrator.mode := Orchestrator.Single;
       Orchestrator.scenes :=
         [Orchestrator.added_scene "a"; Orchestrator.added_scene "b"];
       Orchestrator.selectedAspectRatio := Orchestrator.R16_9;
       Orchestrator.selectedStyle := ""; Orchestrator.selectedEra := "";
       Orchestrator.selectedEthnicity := "";
       Orchestrator.globalReferenceImage := None |}
    "a" None (Resolved "blob:video") (Resolved "data:frame")
  = Orchestrator.mkEffects
      [Orchestrator.StartVideo "a" None;
       Orchestrator.CompleteVideo "a" "blob:video" Orchestrator.R16_9;
       Orchestrator.ContinuityWrite "a" "data:frame"] [] /\
  exists inherited,
    foldl (fun l u => Orchestrator.apply u l)
      [Orchestrator.added_scene "a"; Orchestrator.added_scene "b"]
      [Orchestrator.StartVideo "a" None;
       Orchestrator.CompleteVideo "a" "blob:video" Orchestrator.R16_9;
       Orchestrator.ContinuityWrite "a" "data:frame"] !! 1%nat = Some inherited /\
    Orchestrator.generatedImage inherited = Some "data:frame" /\
    Orchestrator.imageStatus inherited = Orchestrator.ICompleted /\
    Orchestrator.id inherited = "b".
Proof.
  destruct (continuity_writes_extracted_frame
    {| Orchestrator.mode := Orchestrator.Single;
       Orchestrator.scenes :=
         [Orchestrator.added_scene "a"; Orchestrator.added_scene "b"];
       Orchestrator.selectedAspectRatio := Orchestrator.R16_9;
       Orchestrator.selectedStyle := ""; Orchestrator.selectedEra := "";
       Orchestrator.selectedEthnicity := "";
       Orchestrator.globalReferenceImage := None |}
    "a" None "blob:video" "data:frame" 0%nat
    (Orchestrator.added_scene "a") (Orchestrator.added_scene "b")
    eq_refl eq_refl eq_refl eq_refl ltac:(discriminate) eq_refl)
    as (Hrun & completed & inherited & _ & _ & _ & _ & Hat & _ & Himage & Hstatus
        & Hid & _).
  split; [exact Hrun|]. rewrite Hrun in Hat.
  exists inherited. split; [exact Hat|]. split; [exact Himage|].
  split; [exact Hstatus | exact Hid].
Defined.

(** X16.  Outside the continuous mode, and for the last shot of the
    sequence the handler checks, a completed video never propagates: no
    continuity write is issued, whatever the extraction would give, and
    nothing is logged. *)
Theorem no_continuity_outside_continuous_mode :
  forall (c : Orchestrator.Closure) (target : string)
         (promptOverride : option string)
         (video extraction : Outcome string),
    Orchestrator.mode c <> Orchestrator.Single \/
    (forall idx, Orchestrator.findIndex target (Orchestrator.scenes c) = Some idx ->
       idx = (length (Orchestrator.scenes c) - 1)%nat) ->
    (forall u,
       u ∈ Orchestrator.updates
             (Orchestrator.handleGenerateVideo c target promptOverride video extraction) ->
       forall lastFrame, u <> Orchestrator.ContinuityWrite target lastFrame) /\
    Orchestrator.warned
      (Orchestrator.handleGenerateVideo c target promptOverride video extraction) = [].
Proof.
  intros c target promptOverride video extraction Hwhy. split.
  - intros u Hu lastFrame ->.
    apply handleGenerateVideo_updates in Hu
      as [Hu|[(e & _ & Hu)|[(url & _ & Hu)|(url & f & idx & next & _ & _ & Hmode & Hidx & Hnext & _)]]];
      try done.
    destruct Hwhy as [Hno|Hlast]; [done|].
    apply lookup_lt_Some in Hnext. specialize (Hlast idx Hidx). lia.
  - unfold Orchestrator.handleGenerateVideo.
    destruct (Orchestrator.find target (Orchestrator.scenes c)); [|reflexivity].
    destruct video as [url|e]; [|reflexivity].
    destruct (Orchestrator.findIndex target (Orchestrator.scenes c)) as [idx|] eqn:Hidx;
      [|reflexivity].
    destruct (bool_decide (Orchestrator.mode c = Orchestrator.Single)) eqn:Hmode;
      cbn [andb]; [|reflexivity].
    destruct (Nat.ltb (idx + 1) (length (Orchestrator.scenes c))) eqn:Hlt;
      [|reflexivity].
    exfalso. apply bool_decide_eq_true in Hmode. apply Nat.ltb_lt in Hlt.
    destruct Hwhy as [Hno|Hlast]; [done|]. specialize (Hlast idx eq_refl). lia.
Qed.

(** The same two shots in storyboard mode. *)
Lemma no_continuity_outside_continuous_mode_witness :
  Orchestrator.warned
    (Orchestrator.handleGenerateVideo
       {| Orchestrator.mode := Orchestrator.Storyboard;
          Orchestrator.scenes :=
            [Orchestrator.added_scene "a"; Orchestrator.added_scene "b"];
          Orchestrator.selectedAspectRatio := Orchestrator.R16_9;
          Orchestrator.selectedStyle := ""; Orchestrator.selectedEra := "";
          Orchestrator.selectedEthnicity := "";
          Orchestrator.globalReferenceImage := None |}
       "a" None (Resolved "blob:video") (Resolved "data:frame")) = [].
Proof.
  destruct (no_continuity_outside_continuous_mode
    {| Orchestrator.mode := Orchestrator.Storyboard;
       Orchestrator.scenes :=
         [Orchestrator.added_scene "a"; Orchestrator.added_scene "b"];
       Orchestrator.selectedAspectRatio := Orchestrator.R16_9;
       Orchestrator.selectedStyle := ""; Orchestrator.selectedEra := "";
       Orchestrator.selectedEthnicity := "";
       Orchestrator.globalReferenceImage := None |}
    "a" None (Resolved "blob:video") (Resolved "data:frame")) as [_ Hwarned].
  - left. discriminate.
  - exact Hwarned.
Defined.



(** X18.  The updates of the video handler on its shot (start,
    completion, failure) and those of the first-frame handler (start,
    stored prompt, completion, failure) give the same sequence in either
    order, also when both address the same shot, with one exception: the
    start of a video with a prompt override and the storing of a
    generated first-frame prompt both write the video prompt of the shot.
    These two commute when the override is empty or is the video prompt
    that is stored; otherwise, on a sequence that holds the shot, the
    order matters: the write applied last decides the video prompt. *)
Theorem video_and_image_updates_commute :
  forall (u1 u2 : Orchestrator.Update) (prev : list Orchestrator.Scene),
    Updates.video_update u1 -> Updates.image_update u2 ->
    ((forall target promptOverride v i,
        u1 = Orchestrator.StartVideo target promptOverride ->
        u2 = Orchestrator.UpdatePrompt target v i ->
        truthy promptOverride = false \/ promptOverride = Some v) ->
     Orchestrator.apply u1 (Orchestrator.apply u2 prev)
     = Orchestrator.apply u2 (Orchestrator.apply u1 prev)) /\
    (forall target p v i k s,
       u1 = Orchestrator.StartVideo target (Some p) ->
       u2 = Orchestrator.UpdatePrompt target v i ->
       p <> "" -> p <> v ->
       prev !! k = Some s -> Orchestrator.id s = target ->
       (exists s1, Orchestrator.apply u1 (Orchestrator.apply u2 prev) !! k = Some s1 /\
                   Orchestrator.visualPrompt s1 = p) /\
       (exists s2, Orchestrator.apply u2 (Orchestrator.apply u1 prev) !! k = Some s2 /\
                   Orchestrator.visualPrompt s2 = v) /\
       Orchestrator.apply u1 (Orchestrator.apply u2 prev)
       <> Orchestrator.apply u2 (Orchestrator.apply u1 prev)).
Proof.
  intros u1 u2 prev H1 H2. split.
  - intros Hcond.
    destruct u1; try done; destruct u2; try done; cbn [Orchestrator.apply];
      apply map_id_commute; try done.
    intros s Ht1 Ht2. assert (Hsame : target0 = target) by congruence.
    destruct (Hcond target promptOverride newVideoPrompt newImagePrompt eq_refl
                ltac:(by rewrite Hsame)) as [Hfalsy | ->].
    + unfold Orchestrator.video_started, Orchestrator.prompt_updated, or_else.
      rewrite Hfalsy. reflexivity.
    + unfold Orchestrator.video_started, Orchestrator.prompt_updated, or_else.
      destruct (truthy (Some newVideoPrompt)); reflexivity.
  - intros target p v i k s -> -> Hp Hne Hk Hid. cbn [Orchestrator.apply].
    assert (Htruthy : truthy (Some p) = true).
    { cbn [truthy]. by rewrite (proj2 (String.eqb_neq _ _) Hp). }
    assert (Hfirst : Orchestrator.map_id target (Orchestrator.video_started (Some p))
                       (Orchestrator.map_id target (Orchestrator.prompt_updated v i) prev)
                     !! k
                     = Some (Orchestrator.video_started (Some p)
                               (Orchestrator.prompt_updated v i s))).
    { apply map_id_lookup_target; [|exact Hid]. by apply map_id_lookup_target. }
    assert (Hsecond : Orchestrator.map_id target (Orchestrator.prompt_updated v i)
                        (Orchestrator.map_id target (Orchestrator.video_started (Some p)) prev)
                      !! k
                      = Some (Orchestrator.prompt_updated v i
                                (Orchestrator.video_started (Some p) s))).
    { apply map_id_lookup_target; [|exact Hid]. by apply map_id_lookup_target. }
    assert (Hp1 : Orchestrator.visualPrompt
                    (Orchestrator.video_started (Some p)
                       (Orchestrator.prompt_updated v i s)) = p).
    { unfold Orchestrator.video_started, or_else. rewrite Htruthy. reflexivity. }
    split; [eauto|]. split; [eauto|].
    intros Heq. rewrite Heq, Hsecond in Hfirst.
    assert (Hrec : Orchestrator.prompt_updated v i
                     (Orchestrator.video_started (Some p) s)
                   = Orchestrator.video_started (Some p)
                       (Orchestrator.prompt_updated v i s)) by congruence.
    apply (f_equal Orchestrator.visualPrompt) in Hrec. rewrite Hp1 in Hrec.
    cbn [Orchestrator.visualPrompt Orchestrator.prompt_updated] in Hrec. congruence.
Qed.

Lemma video_and_image_updates_commute_witness :
  Orchestrator.apply (Orchestrator.StartVideo "a" (Some "a chase"))
    (Orchestrator.apply (Orchestrator.UpdatePrompt "a" "a walk" (Some "a street"))
       [Orchestrator.added_scene "a"])
  <> Orchestrator.apply (Orchestrator.UpdatePrompt "a" "a walk" (Some "a street"))
       (Orchestrator.apply (Orchestrator.StartVideo "a" (Some "a chase"))
          [Orchestrator.added_scene "a"]).
Proof.
  apply (proj2 (proj2 (proj2 (video_and_image_updates_commute
    (Orchestrator.StartVideo "a" (Some "a chase"))
    (Orchestrator.UpdatePrompt "a" "a walk" (Some "a street"))
    [Orchestrator.added_scene "a"] I I)
    "a" "a chase" "a walk" (Some "a street") 0%nat (Orchestrator.added_scene "a")
    eq_refl eq_refl ltac:(discriminate) ltac:(discriminate) eq_refl eq_refl))).
Defined.

(** X19.  Handlers of different shots do not interfere: two updates of
    the form [prev.map(s => s.id === id ? ... : s)] that address
    different ids give the same sequence in either order. *)
Theorem updates_of_different_shots_commute :
  forall (u1 u2 : Orchestrator.Update) (t1 t2 : string)
         (prev : list Orchestrator.Scene),
    is_Some (Orchestrator.mapped u1) -> is_Some (Orchestrator.mapped u2) ->
    Updates.target_of u1 = Some t1 -> Updates.target_of u2 = Some t2 ->
    t1 <> t2 ->
    Orchestrator.apply u1 (Orchestrator.apply u2 prev)
    = Orchestrator.apply u2 (Orchestrator.apply u1 prev).
Proof.
  intros u1 u2 t1 t2 prev [[a f] Hf] [[b g] Hg] Ht1 Ht2 Hne.
  assert (Ha : a = t1) by (destruct u1; simpl in *; congruence).
  assert (Hb : b = t2) by (destruct u2; simpl in *; congruence).
  subst a b.
  rewrite (apply_mapped u1 t1 f _ Hf), (apply_mapped u2 t2 g _ Hg),
    (apply_mapped u1 t1 f _ Hf), (apply_mapped u2 t2 g _ Hg).
  apply map_id_commute.
  - by eapply mapped_keeps_id.
  - by eapply mapped_keeps_id.
  - intros s H1 H2. congruence.
Qed.

Lemma updates_of_different_shots_commute_witness :
  Orchestrator.apply (Orchestrator.FailVideo "a" (Error "failed"))
    (Orchestrator.apply (Orchestrator.StartVideo "b" None)
       [Orchestrator.added_scene "a"; Orchestrator.added_scene "b"])
  = Orchestrator.apply (Orchestrator.StartVideo "b" None)
      (Orchestrator.apply (Orchestrator.FailVideo "a" (Error "failed"))
         [Orchestrator.added_scene "a"; Orchestrator.added_scene "b"]).
Proof.
  apply (updates_of_different_shots_commute
    (Orchestrator.FailVideo "a" (Error "failed")) (Orchestrator.StartVideo "b" None)
    "a" "b" [Orchestrator.added_scene "a"; Orchestrator.added_scene "b"]
    (mk_is_Some _ _ eq_refl) (mk_is_Some _ _ eq_refl) eq_refl eq_refl).
  discriminate.
Defined.

(** X20.  A result that arrives for a shot that is no longer in the
    sequence (after a mode change, or after the shots have been replaced)
    changes nothing: every update of a handler leaves a sequence without
    its target as it is. *)
Theorem updates_for_missing_shot_do_nothing :
  forall (u : Orchestrator.Update) (target : string)
         (prev : list Orchestrator.Scene),
    Updates.target_of u = Some target ->
    (forall s, s ∈ prev -> Orchestrator.id s <> target) ->
    Orchestrator.apply u prev = prev.
Proof.
  intros u target prev Htarget Habsent.
  destruct u; simpl in Htarget; try done; inversion Htarget; subst;
    cbn [Orchestrator.apply]; try (by apply map_id_absent).
  unfold Orchestrator.continuityWrite.
  by rewrite (proj2 (findIndex_None target prev) Habsent).
Qed.

(** The completion of the video of "a", once "a" has been replaced. *)
Lemma updates_for_missing_shot_do_nothing_witness :
  Orchestrator.apply (Orchestrator.CompleteVideo "a" "blob:video" Orchestrator.R16_9)
    [Orchestrator.added_scene "c"]
  = [Orchestrator.added_scene "c"].
Proof.
  apply (updates_for_missing_shot_do_nothing
    (Orchestrator.CompleteVideo "a" "blob:video" Orchestrator.R16_9) "a"
    [Orchestrator.added_scene "c"] eq_refl).
  intros s Hs. apply list_elem_of_singleton in Hs. subst s. discriminate.
Defined.

(** ** ShotOrchestrator: what holds in every reachable session *)

(** X21.  No handler adds, removes, reorders or renames a shot: every
    update that the video handler or the first-frame handler issues, and
    the prompt edit, keeps the ids of the sequence it is applied to,
    position by position, whatever that sequence is; so its length stays
    and ids that are pairwise distinct stay so. *)
Theorem handler_updates_keep_the_ids :
  forall (c : Orchestrator.Closure) (target : string)
         (promptOverride : option string)
         (video extraction prompt image : Outcome string)
         (u : Orchestrator.Update) (prev : list Orchestrator.Scene),
    u ∈ Orchestrator.updates
          (Orchestrator.handleGenerateVideo c target promptOverride video extraction) \/
    u ∈ Orchestrator.updates
          (Orchestrator.handleGenerateFirstFrame c target promptOverride prompt image) \/
    (exists v i, u = Orchestrator.handleUpdatePrompt target v i) ->
    Orchestrator.id <$> Orchestrator.apply u prev = Orchestrator.id <$> prev /\
    length (Orchestrator.apply u prev) = length prev /\
    (NoDup (Orchestrator.id <$> prev) ->
     NoDup (Orchestrator.id <$> Orchestrator.apply u prev)).
Proof.
  intros c target promptOverride video extraction prompt image u prev Hu.
  assert (Hhandler : Orchestrator.handler_update u).
  { destruct Hu as [Hu|[Hu|(v & i & ->)]]; [| |done].
    - destruct (handleGenerateVideo_shape c target promptOverride video extraction)
        as (rest & Heq & Hrest).
      rewrite Heq in Hu. apply elem_of_cons in Hu as [->|Hu]; [done|].
      by apply Hrest.
    - destruct (handleGenerateFirstFrame_shape c target promptOverride prompt image)
        as (rest & Heq & Hrest).
      rewrite Heq in Hu. apply elem_of_cons in Hu as [->|Hu]; [done|].
      by apply Hrest. }
  pose proof (apply_ids u prev Hhandler) as Hids.
  split; [exact Hids|]. split; [by apply apply_length|].
  by rewrite Hids.
Qed.

(** The continuity write of "a" keeps the ids of three shots. *)
Lemma handler_updates_keep_the_ids_witness :
  Orchestrator.id <$>
    Orchestrator.apply (Orchestrator.ContinuityWrite "a" "data:frame")
      [Orchestrator.added_scene "c"; Orchestrator.added_scene "a";
       Orchestrator.added_scene "b"]
  = ["c"; "a"; "b"].
Proof.
  destruct (handler_updates_keep_the_ids
    {| Orchestrator.mode := Orchestrator.Single;
       Orchestrator.scenes :=
         [Orchestrator.added_scene "a"; Orchestrator.added_scene "b"];
       Orchestrator.selectedAspectRatio := Orchestrator.R16_9;
       Orchestrator.selectedStyle := ""; Orchestrator.selectedEra := "";
       Orchestrator.selectedEthnicity := "";
       Orchestrator.globalReferenceImage := None |}
    "a" None (Resolved "blob:video") (Resolved "data:frame")
    (Resolved "unused") (Resolved "unused")
    (Orchestrator.ContinuityWrite "a" "data:frame")
    [Orchestrator.added_scene "c"; Orchestrator.added_scene "a";
     Orchestrator.added_scene "b"]) as [Hids _].
  - left. apply list_elem_of_In. vm_compute. right. right. left. reflexivity.
  - exact Hids.
Defined.

(** X22.  In every reachable session, a shot whose video generation has
    still to settle is not in video state idle, and a shot whose
    first-frame generation has still to settle is not in image state
    idle. *)
Theorem pending_generation_is_never_idle :
  forall x : Orchestrator.Session,
    Orchestrator.reachable x ->
    forall (q : list Orchestrator.Update) (u : Orchestrator.Update)
           (s : Orchestrator.Scene),
      q ∈ Orchestrator.inflight x -> u ∈ q -> s ∈ Orchestrator.current x ->
      (Orchestrator.settles_video u = Some (Orchestrator.id s) ->
       Orchestrator.status s <> Orchestrator.VIdle) /\
      (Orchestrator.settles_image u = Some (Orchestrator.id s) ->
       Orchestrator.imageStatus s <> Orchestrator.IIdle).
Proof.
  intros x Hx q u s Hq Hu Hs.
  destruct (reachable_invariant x Hx) as [_ _ _ _ Hvideo Himage].
  split; intros Hsettles.
  - by apply (proj2 (Hvideo q u (Orchestrator.id s) Hq Hu Hsettles) s Hs).
  - by apply (proj2 (Himage q u (Orchestrator.id s) Hq Hu Hsettles) s Hs).
Qed.

(** The first shot while its video is being generated. *)
Lemma pending_generation_is_never_idle_witness :
  Orchestrator.status
    (Orchestrator.video_started None (Orchestrator.added_scene "a"))
  <> Orchestrator.VIdle.
Proof.
  assert (Hrun : Orchestrator.reachable Orchestrator.video_running).
  { eapply Orchestrator.reachable_step; [apply two_shots_reachable|].
    apply (Orchestrator.step_generate_video Orchestrator.two_shots
             Orchestrator.R16_9 "" "" "" None "a" None
             (Resolved "blob:video") (Resolved "data:frame")). }
  apply (proj1 (pending_generation_is_never_idle Orchestrator.video_running Hrun
    [Orchestrator.CompleteVideo "a" "blob:video" Orchestrator.R16_9;
     Orchestrator.ContinuityWrite "a" "data:frame"]
    (Orchestrator.CompleteVideo "a" "blob:video" Orchestrator.R16_9)
    (Orchestrator.video_started None (Orchestrator.added_scene "a"))
    ltac:(apply list_elem_of_In; vm_compute; left; reflexivity)
    ltac:(apply list_elem_of_In; vm_compute; left; reflexivity)
    ltac:(apply list_elem_of_In; vm_compute; left; reflexivity))).
  reflexivity.
Defined.

(** ** ShotOrchestrator: what a run leaves in the shot *)

(** X23.  When the video generation of a shot fails, the handler issues
    the start and the failure and nothing else, whatever the mode; and
    applied in a row to a sequence that holds the shot, they leave it in
    state error with a message that is never empty (the message of the
    error, or "未知错误" when the error has none), and with the video URL,
    the start frame and the image state it had. *)
Theorem video_failure_records_message :
  forall (c : Orchestrator.Closure) (target : string)
         (promptOverride : option string) (e : JsError)
         (extraction : Outcome string) (scene : Orchestrator.Scene)
         (prev : list Orchestrator.Scene) (k : nat) (s : Orchestrator.Scene),
    Orchestrator.find target (Orchestrator.scenes c) = Some scene ->
    prev !! k = Some s -> Orchestrator.id s = target ->
    Orchestrator.handleGenerateVideo c target promptOverride (Rejected e) extraction
    = Orchestrator.mkEffects
        [Orchestrator.StartVideo target promptOverride;
         Orchestrator.FailVideo target e] [] /\
    exists failed m,
      foldl (fun l u => Orchestrator.apply u l) prev
        (Orchestrator.updates
           (Orchestrator.handleGenerateVideo c target promptOverride
              (Rejected e) extraction)) !! k = Some failed /\
      Orchestrator.status failed = Orchestrator.VError /\
      Orchestrator.errorMessage failed = Some m /\ m <> "" /\
      (truthy (message e) = true -> message e = Some m) /\
      (truthy (message e) = false -> m = "未知错误") /\
      Orchestrator.videoUrl failed = Orchestrator.videoUrl s /\
      Orchestrator.generatedImage failed = Orchestrator.generatedImage s /\
      Orchestrator.imageStatus failed = Orchestrator.imageStatus s.
Proof.
  intros c target promptOverride e extraction scene prev k s Hfind Hk Hid.
  assert (Hrun : Orchestrator.handleGenerateVideo c target promptOverride
                   (Rejected e) extraction
                 = Orchestrator.mkEffects
                     [Orchestrator.StartVideo target promptOverride;
                      Orchestrator.FailVideo target e] []).
  { unfold Orchestrator.handleGenerateVideo. by rewrite Hfind. }
  split; [exact Hrun|]. rewrite Hrun.
  cbn [Orchestrator.updates foldl Orchestrator.apply].
  exists (Orchestrator.video_failed e (Orchestrator.video_started promptOverride s)),
    (default "未知错误" (or_else (message e) (Some "未知错误"))).
  split.
  { apply map_id_lookup_target; [|exact Hid]. by apply map_id_lookup_target. }
  split; [reflexivity|].
  cbn [Orchestrator.errorMessage Orchestrator.video_failed].
  unfold or_else. destruct (truthy (message e)) eqn:Htruthy.
  - destruct (message e) as [m|] eqn:Hm; [|done].
    cbn [default from_option]. split; [reflexivity|]. split.
    + intros Hempty. cbn [id] in Hempty. rewrite Hempty in Htruthy. discriminate.
    + repeat split; done.
  - cbn [default from_option]. repeat split; done.
Qed.

Lemma video_failure_records_message_witness :
  Orchestrator.handleGenerateVideo
    {| Orchestrator.mode := Orchestrator.Single;
       Orchestrator.scenes :=
         [Orchestrator.added_scene "a"; Orchestrator.added_scene "b"];
       Orchestrator.selectedAspectRatio := Orchestrator.R16_9;
       Orchestrator.selectedStyle := ""; Orchestrator.selectedEra := "";
       Orchestrator.selectedEthnicity := "";
       Orchestrator.globalReferenceImage := None |}
    "a" None (Rejected Orchestrator.no_video_link) (Resolved "data:frame")
  = Orchestrator.mkEffects
      [Orchestrator.StartVideo "a" None;
       Orchestrator.FailVideo "a" Orchestrator.no_video_link] [].
Proof.
  apply (proj1 (video_failure_records_message
    {| Orchestrator.mode := Orchestrator.Single;
       Orchestrator.scenes :=
         [Orchestrator.added_scene "a"; Orchestrator.added_scene "b"];
       Orchestrator.selectedAspectRatio := Orchestrator.R16_9;
       Orchestrator.selectedStyle := ""; Orchestrator.selectedEra := "";
       Orchestrator.selectedEthnicity := "";
       Orchestrator.globalReferenceImage := None |}
    "a" None Orchestrator.no_video_link (Resolved "data:frame")
    (Orchestrator.added_scene "a")
    [Orchestrator.added_scene "a"; Orchestrator.added_scene "b"] 0%nat
    (Orchestrator.added_scene "a") eq_refl eq_refl eq_refl)).
Defined.

(** X24.  When the first frame of a shot is generated, the updates of the
    handler, applied in a row to a sequence that holds the shot, leave it
    with the generated image as start frame, image state completed and no
    image error, and with the video state and URL it had.  With a prompt
    at hand (the override or the stored one) the prompts of the shot stay
    as they are, an override included; otherwise the generated prompt is
    stored as image prompt, and the video prompt is set back to the one
    the handler saw at its last render. *)
Theorem first_frame_success_records_image :
  forall (c : Orchestrator.Closure) (target : string)
         (promptOverride : option string) (prompt : Outcome string)
         (imageUrl : string) (scene : Orchestrator.Scene)
         (prev : list Orchestrator.Scene) (k : nat) (s : Orchestrator.Scene),
    Orchestrator.find target (Orchestrator.scenes c) = Some scene ->
    prev !! k = Some s -> Orchestrator.id s = target ->
    (truthy (or_else promptOverride (Orchestrator.imagePrompt scene)) = true \/
     exists p, prompt = Resolved p) ->
    exists completed,
      foldl (fun l u => Orchestrator.apply u l) prev
        (Orchestrator.updates
           (Orchestrator.handleGenerateFirstFrame c target promptOverride
              prompt (Resolved imageUrl))) !! k = Some completed /\
      Orchestrator.generatedImage completed = Some imageUrl /\
      Orchestrator.imageStatus completed = Orchestrator.ICompleted /\
      Orchestrator.imageErrorMessage completed = None /\
      Orchestrator.status completed = Orchestrator.status s /\
      Orchestrator.videoUrl completed = Orchestrator.videoUrl s /\
      (truthy (or_else promptOverride (Orchestrator.imagePrompt scene)) = true ->
       Orchestrator.imagePrompt completed = Orchestrator.imagePrompt s /\
       Orchestrator.visualPrompt completed = Orchestrator.visualPrompt s) /\
      (forall p,
         truthy (or_else promptOverride (Orchestrator.imagePrompt scene)) = false ->
         prompt = Resolved p ->
         Orchestrator.imagePrompt completed = Some p /\
         Orchestrator.visualPrompt completed = Orchestrator.visualPrompt scene).
Proof.
  intros c target promptOverride prompt imageUrl scene prev k s Hfind Hk Hid Hprompt.
  unfold Orchestrator.handleGenerateFirstFrame. rewrite Hfind.
  destruct (truthy (or_else promptOverride (Orchestrator.imagePrompt scene)))
    eqn:Hhave.
  - cbn [app Orchestrator.updates foldl Orchestrator.apply].
    exists (Orchestrator.image_completed imageUrl (Orchestrator.image_started s)).
    split.
    { apply map_id_lookup_target; [|exact Hid]. by apply map_id_lookup_target. }
    do 5 (split; [reflexivity|]). split; [by intros _ | intros p0 Hno; discriminate].
  - destruct Hprompt as [Hno|[p ->]]; [discriminate|].
    cbn [app Orchestrator.updates foldl Orchestrator.apply
         Orchestrator.handleUpdatePrompt].
    exists (Orchestrator.image_completed imageUrl
              (Orchestrator.prompt_updated (Orchestrator.visualPrompt scene) (Some p)
                 (Orchestrator.image_started s))).
    split.
    { apply map_id_lookup_target; [|exact Hid].
      apply map_id_lookup_target; [|exact Hid]. by apply map_id_lookup_target. }
    do 5 (split; [reflexivity|]). split; [intros Hyes; discriminate|].
    intros p0 _ Hp. inversion Hp. by subst p0.
Qed.

(** A fresh shot has no image prompt: one is generated and stored. *)
Lemma first_frame_success_records_image_witness :
  exists completed,
    foldl (fun l u => Orchestrator.apply u l) [Orchestrator.added_scene "a"]
      (Orchestrator.updates
         (Orchestrator.handleGenerateFirstFrame
            {| Orchestrator.mode := Orchestrator.Single;
               Orchestrator.scenes := [Orchestrator.added_scene "a"];
               Orchestrator.selectedAspectRatio := Orchestrator.R16_9;
               Orchestrator.selectedStyle := ""; Orchestrator.selectedEra := "";
               Orchestrator.selectedEthnicity := "";
               Orchestrator.globalReferenceImage := None |}
            "a" None (Resolved "a street at dawn") (Resolved "data:image")))
      !! 0%nat = Some completed /\
    Orchestrator.generatedImage completed = Some "data:image".
Proof.
  destruct (first_frame_success_records_image
    {| Orchestrator.mode := Orchestrator.Single;
       Orchestrator.scenes := [Orchestrator.added_scene "a"];
       Orchestrator.selectedAspectRatio := Orchestrator.R16_9;
       Orchestrator.selectedStyle := ""; Orchestrator.selectedEra := "";
       Orchestrator.selectedEthnicity := "";
       Orchestrator.globalReferenceImage := None |}
    "a" None (Resolved "a street at dawn") "data:image"
    (Orchestrator.added_scene "a") [Orchestrator.added_scene "a"] 0%nat
    (Orchestrator.added_scene "a") eq_refl eq_refl eq_refl
    (or_intror (ex_intro _ "a street at dawn" eq_refl)))
    as (completed & Hk & Himage & _).
  exists completed. split; [exact Hk | exact Himage].
Defined.

(** ** Video generation: a failing refresh *)

(** X25.  Video generation is not run by the retry executor: when the
    start of the operation or a refresh of it fails, after [k] states that
    are not done, the generation fails with that error after [k] waits,
    whatever the error is, a retryable one included, and asks no more. *)
Theorem generateVideo_refresh_failure_is_final :
  forall (operations : nat -> Outcome Services.Operation)
         (download : Outcome Services.Download)
         (k rounds : nat) (e : JsError),
    (forall j, (j < k)%nat ->
       exists operation, operations j = Resolved operation /\
                         Services.done operation = false) ->
    operations k = Rejected e ->
    (k <= rounds)%nat ->
    Services.video (Services.generateVideoForScene operations download rounds)
    = Some (Rejected e) /\
    Services.queries (Services.generateVideoForScene operations download rounds) = k /\
    Services.poll_waits (Services.generateVideoForScene operations download rounds)
    = replicate k 8000.
Proof.
  intros operations download k rounds e Hpending Hk Hrounds.
  unfold Services.generateVideoForScene.
  rewrite (poll_pending operations download k rounds 0 [] Hrounds)
    by (intros j Hj; apply Hpending; lia).
  simpl. destruct (rounds - k)%nat; cbn [Services.poll]; by rewrite Hk.
Qed.

(** The first refresh answers 503. *)
Lemma generateVideo_refresh_failure_is_final_witness :
  Services.video (Services.generateVideoForScene
    (fun n => match n with
              | O => Resolved {| Services.done := false; Services.uri := None |}
              | S _ => Rejected (Retry.error_with_code 503)
              end)
    (Rejected (Error "unused")) 3)
  = Some (Rejected (Retry.error_with_code 503)).
Proof.
  apply (proj1 (generateVideo_refresh_failure_is_final
    (fun n => match n with
              | O => Resolved {| Services.done := false; Services.uri := None |}
              | S _ => Rejected (Retry.error_with_code 503)
              end)
    (Rejected (Error "unused")) 1%nat 3%nat (Retry.error_with_code 503)
    ltac:(intros [|j] Hj; [eexists; split; reflexivity | lia])
    eq_refl ltac:(lia))).
Defined.

(** ** Script analysis and storyboard generation: what is parsed is returned *)

Section ParsedFacts.
Import Services.
Variable fallback : Prompts.JSON.
Variable syntaxError : string.
Variable model : nat -> Outcome Prompts.ResponseText.

Lemma parse_attempt_run (k : nat) (text : Prompts.ResponseText) :
  (k < 3)%nat ->
  (forall j, (j < k)%nat ->
     exists e, model j = Rejected e /\ Retry.isRetryable e = true) ->
  model k = Resolved text ->
  Retry.calls (Retry.withRetry_default
                 (fun j => parse_attempt fallback syntaxError (model j))) = S k /\
  Retry.settled (Retry.withRetry_default
                   (fun j => parse_attempt fallback syntaxError (model j)))
  = match text with
    | Prompts.TextAbsent => inr fallback
    | Prompts.TextJson v => inr v
    | Prompts.TextMalformed => inl (ThrowError (Error syntaxError))
    end.
Proof.
  intros Hk Hfail Hok.
  unfold Retry.withRetry_default, Retry.withRetry.
  set (fn := fun j => parse_attempt fallback syntaxError (model j)).
  assert (Hretry : forall j, (0 <= j < 0 + k)%nat ->
            exists e, fn j = Rejected e /\ Retry.isRetryable e = true).
  { intros j Hj. destruct (Hfail j ltac:(lia)) as (e & He & Hre).
    exists e. unfold fn. by rewrite He. }
  assert (Hfn : fn (0 + k)%nat = parse_attempt fallback syntaxError (Resolved text)).
  { unfold fn. simpl. by rewrite Hok. }
  destruct text as [|v|]; cbn [parse_attempt] in Hfn.
  - destruct (attempts_retry_then_resolve fn 3 2000 k (Z.to_nat 3) 0
                ThrowUndefined [] fallback) as [Hs Hc];
      [simpl; lia | simpl; lia | done | done | done].
  - destruct (attempts_retry_then_resolve fn 3 2000 k (Z.to_nat 3) 0
                ThrowUndefined [] v) as [Hs Hc];
      [simpl; lia | simpl; lia | done | done | done].
  - destruct (attempts_retry_then_reject fn 3 2000 k (Z.to_nat 3) 0
                ThrowUndefined [] (Error syntaxError)) as [Hs Hc];
      [simpl; lia | simpl; lia | done | done | done | done].
Qed.
End ParsedFacts.

(** X26.  Script analysis and storyboard generation return what
    [JSON.parse] gives, without a check against the declared type: when
    the request succeeds, at once or after retried failures, a response
    without text gives the empty object for the analysis and the empty
    list for the storyboard, a response with JSON text gives that value
    whatever it is, and text that is not JSON makes both throw the
    SyntaxError, which is not retried: the request that got this response
    is the last one. *)
Theorem parsed_services_return_what_they_parse :
  forall (syntaxError : string) (model : nat -> Outcome Prompts.ResponseText)
         (k : nat) (text : Prompts.ResponseText),
    (k < 3)%nat ->
    (forall j, (j < k)%nat ->
       exists e, model j = Rejected e /\ Retry.isRetryable e = true) ->
    model k = Resolved text ->
    Retry.calls (Services.analyzeScriptDeeply syntaxError model) = S k /\
    Retry.calls (Services.generateScenesFromScript syntaxError model) = S k /\
    Retry.settled (Services.analyzeScriptDeeply syntaxError model)
    = match text with
      | Prompts.TextAbsent => inr (Prompts.JObj [])
      | Prompts.TextJson v => inr v
      | Prompts.TextMalformed => inl (ThrowError (Error syntaxError))
      end /\
    Retry.settled (Services.generateScenesFromScript syntaxError model)
    = match text with
      | Prompts.TextAbsent => inr (Prompts.JArr [])
      | Prompts.TextJson v => inr v
      | Prompts.TextMalformed => inl (ThrowError (Error syntaxError))
      end.
Proof.
  intros syntaxError model k text Hk Hfail Hok.
  destruct (parse_attempt_run (Prompts.JObj []) syntaxError model k text Hk Hfail Hok)
    as [Hc1 Hs1].
  destruct (parse_attempt_run (Prompts.JArr []) syntaxError model k text Hk Hfail Hok)
    as [Hc2 Hs2].
  unfold Services.analyzeScriptDeeply, Services.generateScenesFromScript.
  split; [exact Hc1|]. split; [exact Hc2|]. split; [exact Hs1 | exact Hs2].
Qed.

(** A storyboard response that is an object, not a list, after one 503. *)
Lemma parsed_services_return_what_they_parse_witness :
  Retry.settled (Services.generateScenesFromScript "Unexpected token"
    (Retry.fails_then [Retry.error_with_code 503]
       (Prompts.TextJson (Prompts.JObj [("error", Prompts.JStr "blocked")]))))
  = inr (Prompts.JObj [("error", Prompts.JStr "blocked")]).
Proof.
  apply (proj2 (proj2 (proj2 (parsed_services_return_what_they_parse
    "Unexpected token"
    (Retry.fails_then [Retry.error_with_code 503]
       (Prompts.TextJson (Prompts.JObj [("error", Prompts.JStr "blocked")])))
    1%nat (Prompts.TextJson (Prompts.JObj [("error", Prompts.JStr "blocked")]))
    ltac:(lia)
    ltac:(intros [|j] Hj; [eexists; split; reflexivity | lia])
    eq_refl)))).
Defined.

(** ** AssetCompressor: the size after downscaling *)

Section CompressMore.
Local Open Scope Q_scope.
Variable fl : Q -> Q.
Variable u : Q.
Hypothesis u_nonneg : 0 <= u.
Hypothesis fl_near : forall x, 0 <= x -> x * (1 - u) <= fl x <= x * (1 + u).





End CompressMore.


(** ** AssetCompressor: what is forwarded when the image is not re-encoded *)

Section DataUrlFacts.
Import Stdlib.Strings.Ascii.

Lemma append_empty (s : string) : "" +:+ s = s.
Proof. reflexivity. Qed.

Lemma append_cons (c : Ascii.ascii) (a s : string) :
  String c a +:+ s = String c (a +:+ s).
Proof. reflexivity. Qed.

Lemma append_assoc3 (a b c : string) : (a +:+ b) +:+ c = a +:+ (b +:+ c).
Proof.
  induction a as [|x a IH]; [done|]. by rewrite !append_cons, IH.
Qed.

Lemma length_append3 (a b : string) :
  String.length (a +:+ b) = (String.length a + String.length b)%nat.
Proof.
  induction a as [|x a IH]; [done|]. rewrite append_cons. simpl. by rewrite IH.
Qed.

Lemma prefix_comma (c : Ascii.ascii) (rest : string) :
  String.prefix "," (String c rest) = Ascii.eqb c ","%char.
Proof.
  destruct (String.prefix "," (String c rest)) eqn:Hp.
  - apply String.prefix_correct in Hp. simpl in Hp. inversion Hp.
    by rewrite Ascii.eqb_refl.
  - destruct (Ascii.eqb_spec c ","%char) as [->|]; [|done].
    assert (Hyes : String.prefix "," (String ","%char rest) = true)
      by (apply String.prefix_correct; simpl; by destruct rest).
    congruence.
Qed.

Lemma index_comma_cons (c : Ascii.ascii) (rest : string) :
  String.index 0 "," (String c rest)
  = if Ascii.eqb c ","%char then Some 0%nat
    else S <$> String.index 0 "," rest.
Proof.
  cbn [String.index]. rewrite prefix_comma.
  destruct (Ascii.eqb c ","%char); [done|].
  by destruct (String.index 0 "," rest).
Qed.

Lemma index_comma_append (a b : string) :
  String.index 0 "," a = None ->
  String.index 0 "," (a +:+ String ","%char b) = Some (String.length a).
Proof.
  induction a as [|c a IH]; intros Hno.
  - rewrite append_empty, index_comma_cons. by rewrite Ascii.eqb_refl.
  - rewrite index_comma_cons in Hno.
    rewrite append_cons, index_comma_cons. cbn [String.length].
    destruct (Ascii.eqb c ","%char); [done|].
    destruct (String.index 0 "," a); [done|]. by rewrite IH.
Qed.

Lemma substring_all (b : string) : String.substring 0 (String.length b) b = b.
Proof. induction b as [|c b IH]; [done|]. simpl. by rewrite IH. Qed.

Lemma length_after (a : string) (c : Ascii.ascii) (b : string) :
  (String.length (a +:+ String c b) - S (String.length a))%nat = String.length b.
Proof. rewrite length_append3. simpl. lia. Qed.

Lemma substring_after (a : string) (c : Ascii.ascii) (b : string) (n : nat) :
  String.substring (S (String.length a)) n (a +:+ String c b)
  = String.substring 0 n b.
Proof.
  induction a as [|d a IH]; [done|]. rewrite append_cons. exact IH.
Qed.

(** The payload of a data URL. *)
Lemma split_comma_1_payload (header payload : string) :
  Compress.includes "," header = false ->
  Compress.includes "," payload = false ->
  Compress.split_comma_1 (header +:+ "," +:+ payload) = Some payload.
Proof.
  unfold Compress.includes. intros Hh Hp.
  destruct (String.index 0 "," header) eqn:Hheader; [done|].
  destruct (String.index 0 "," payload) eqn:Hpayload; [done|].
  unfold Compress.split_comma_1.
  change ("," +:+ payload) with (String ","%char payload).
  rewrite (index_comma_append header payload Hheader).
  cbv zeta. rewrite length_after, substring_after, substring_all.
  by rewrite Hpayload.
Qed.
End DataUrlFacts.

(** X28.  When the image cannot be re-encoded, because it does not decode
    or the canvas gives no context, the compressor still resolves: for a
    data URL whose header and payload hold no comma and whose payload is
    not empty, it forwards the payload unchanged, labelled "image/png" if
    the URL mentions that type and "image/jpeg" in every other case,
    whatever the type of the source. *)
Theorem compressImage_fallback_forwards_payload :
  forall (fl : Q -> Q) (env : Compress.Browser) (header payload : string)
         (maxWidth : Z) (quality : Q),
    Compress.includes "," header = false ->
    Compress.includes "," payload = false ->
    payload <> "" ->
    Compress.decoded env = None \/ Compress.context2d env = false ->
    Compress.compressImage fl env (header +:+ "," +:+ payload) maxWidth quality
    = Compress.Forwarded payload
        (if Compress.includes "image/png" (header +:+ "," +:+ payload)
         then "image/png" else "image/jpeg").
Proof.
  intros fl env header payload maxWidth quality Hh Hp Hne Hfail.
  assert (Hurl : String.eqb (header +:+ "," +:+ payload) "" = false).
  { apply String.eqb_neq. by destruct header. }
  assert (Hforward : Compress.forward (header +:+ "," +:+ payload)
                     = Compress.Forwarded payload
                         (if Compress.includes "image/png" (header +:+ "," +:+ payload)
                          then "image/png" else "image/jpeg")).
  { unfold Compress.forward. rewrite (split_comma_1_payload header payload Hh Hp).
    unfold or_else. cbn [truthy].
    by rewrite (proj2 (String.eqb_neq _ _) Hne). }
  unfold Compress.compressImage. rewrite Hurl.
  destruct (Compress.decoded env) as [[w h]|] eqn:Hdec; [|exact Hforward].
  destruct Hfail as [Hnone|Hctx]; [discriminate|].
  destruct (Compress.canvas_size fl maxWidth w h) as [w' h'].
  by rewrite Hctx.
Qed.

(** A WebP image that does not decode is forwarded as a JPEG. *)
Lemma compressImage_fallback_forwards_payload_witness :
  Compress.compressImage (fun x => x)
    {| Compress.decoded := None; Compress.context2d := true |}
    ("data:image/webp;base64" +:+ "," +:+ "UklGRg") 1024 (8 # 10)
  = Compress.Forwarded "UklGRg" "image/jpeg".
Proof.
  apply (compressImage_fallback_forwards_payload (fun x => x)
    {| Compress.decoded := None; Compress.context2d := true |}
    "data:image/webp;base64" "UklGRg" 1024 (8 # 10)
    eq_refl eq_refl ltac:(discriminate) (or_introl eq_refl)).
Defined.

(** ** Video generation: the prompt given to the model *)

(** X29.  The prompt of the shot reaches the video model whole, at the
    end of the text: the working prompt is the prompt after a prefix, and
    the prefix is empty, so the prompt goes unchanged, when there is no
    context or when neither the era nor the style is named (a value is
    named when it is not empty and does not contain "默认"); when the era
    or the style is named, the working prompt differs from the prompt. *)
Theorem workingPrompt_ends_with_the_prompt :
  forall (prompt : string) (context : option Services.VideoContext),
    (exists before, Services.workingPrompt prompt context = before +:+ prompt) /\
    (context = None -> Services.workingPrompt prompt context = prompt) /\
    (forall c, context = Some c ->
       Services.named (Services.era c) = false ->
       Services.named (Services.style c) = false ->
       Services.workingPrompt prompt context = prompt) /\
    (forall c, context = Some c ->
       Services.named (Services.era c) = true \/
       Services.named (Services.style c) = true ->
       Services.workingPrompt prompt context <> prompt).
Proof.
  intros prompt context. unfold Services.workingPrompt. split.
  - destruct (Services.contextParts context) as [|part parts].
    + by exists "".
    + exists (Services.join "，" (part :: parts) +:+ "。").
      by rewrite append_assoc3.
  - split; [by intros ->|]. split.
    + intros c -> He Hs. simpl. by rewrite He, Hs.
    + intros c -> Hnamed. simpl.
      assert (Hlonger : forall before : string,
                before <> "" -> before +:+ prompt <> prompt).
      { intros before Hbefore Heq.
        assert (Hlen : String.length (before +:+ prompt) = String.length prompt)
          by (by rewrite Heq).
        rewrite length_append3 in Hlen. destruct before; [done|]. simpl in Hlen. lia. }
      destruct (Services.named (Services.era c));
        destruct (Services.named (Services.style c));
        cbn [app Services.join]; try (destruct Hnamed; discriminate).
      all: rewrite <- append_assoc3; apply Hlonger; intros H; discriminate H.
Qed.

(** A named era and a default style: only the era is put before. *)
Lemma workingPrompt_ends_with_the_prompt_witness :
  Services.workingPrompt "a street at dawn"
    (Some {| Services.style := Some "默认"; Services.era := Some "1990s" |})
  <> "a street at dawn".
Proof.
  apply (proj2 (proj2 (proj2 (workingPrompt_ends_with_the_prompt "a street at dawn"
    (Some {| Services.style := Some "默认"; Services.era := Some "1990s" |}))))
    {| Services.style := Some "默认"; Services.era := Some "1990s" |} eq_refl).
  left. reflexivity.
Defined.
